(** * MusicLinker: a shallow embedding of [musiclinker.py] and its properties

    The cog watches chat messages for Spotify track links and YouTube watch
    links, looks up the title of each through the platform's oEmbed endpoint
    and answers with search links for the other platform.  The embedding
    follows the source top to bottom: the regular expressions of the class,
    the oEmbed helpers, the title cleaner, the link builders, the embed
    builders, the settings commands and the message listener. *)

From Stdlib Require Import Ascii String.
From Stdlib Require Import List NArith ZArith Bool Lia.
From Stdlib Require Import DecimalString DecimalZ.
Import ListNotations.

Set Implicit Arguments.
Set Warnings "-register-all".

(* ===================================================================== *)
(** * Text *)
(* ===================================================================== *)

(** A Python [str] is a sequence of code points.  A code point is a number
    below [0x110000]; the surrogates [0xD800..0xDFFF] are code points too
    (a [str] may hold them, UTF-8 cannot encode them). *)
Definition char := N.
Definition str := list char.

Definition ch (a : ascii) : char := N_of_ascii a.
Definition txt (s : string) : str := List.map N_of_ascii (list_ascii_of_string s).

Definition is_code_point (c : char) : bool := (c <? 0x110000)%N.
Definition is_surrogate (c : char) : bool := ((0xD800 <=? c) && (c <=? 0xDFFF))%N.

Definition in_range (lo hi c : char) : bool := ((lo <=? c) && (c <=? hi))%N.

(** [str.isspace] on one code point, which is also the class [\s] of a
    [str] pattern. *)
Definition is_space (c : char) : bool :=
  (in_range 0x09 0x0D c || in_range 0x1C 0x20 c || (c =? 0x85) || (c =? 0xA0)
   || (c =? 0x1680) || in_range 0x2000 0x200A c || (c =? 0x2028)
   || (c =? 0x2029) || (c =? 0x202F) || (c =? 0x205F) || (c =? 0x3000))%N.

Definition non_space (c : char) : bool := negb (is_space c).

Definition is_lower_az (c : char) : bool := in_range 0x61%N 0x7A%N c.
Definition is_upper_AZ (c : char) : bool := in_range 0x41%N 0x5A%N c.
Definition is_digit_09 (c : char) : bool := in_range 0x30%N 0x39%N c.

(** [[a-zA-Z0-9]] and [[a-zA-Z0-9_-]]. *)
Definition is_alnum_ascii (c : char) : bool :=
  is_lower_az c || is_upper_AZ c || is_digit_09 c.
Definition is_video_id_char (c : char) : bool :=
  is_alnum_ascii c || (c =? 0x5F)%N || (c =? 0x2D)%N.

Definition newline : char := 10%N.

(** [.] without [re.DOTALL]. *)
Definition is_dot (c : char) : bool := negb (c =? newline)%N.

(** [str.strip()] *)
Fixpoint lstrip (s : str) : str :=
  match s with
  | c :: s' => if is_space c then lstrip s' else s
  | [] => []
  end.
Definition rstrip (s : str) : str := rev (lstrip (rev s)).
Definition strip (s : str) : str := rstrip (lstrip s).

(* ===================================================================== *)
(** * The part of [re] the cog uses *)
(* ===================================================================== *)

Module Re.

(** The syntax covers the five patterns of the source.  Every repetition
    in them (a class or the dot under a star, a plus or a counted
    repetition) is over a one-character atom, so [Star] takes a
    character class; [?] over a group is [Alt r Empty]. *)
Inductive regex : Type :=
| Empty                                   (* the empty pattern *)
| Char (p : char -> bool)                 (* a literal, a class, [.] *)
| Cat (r1 r2 : regex)
| Alt (r1 r2 : regex)                     (* [r1|r2], [r1] first *)
| Star (greedy : bool) (p : char -> bool) (* [p*] and [p*?] *)
| Group (r : regex)                       (* the capturing group, number 1 *)
| Bol                                     (* [^] *)
| Eol                                     (* [$] *)
| WordB (w : char -> bool).               (* [\b] for the word class [w] *)

Definition Opt (r : regex) : regex := Alt r Empty.
Definition Plus (p : char -> bool) : regex := Cat (Char p) (Star true p).
Fixpoint Rep (n : nat) (p : char -> bool) : regex :=
  match n with
  | O => Empty
  | S n' => Cat (Char p) (Rep n' p)
  end.
Definition AtLeast (n : nat) (p : char -> bool) : regex := Cat (Rep n p) (Star true p).

Definition is_char (c : char) : char -> bool := N.eqb c.

Fixpoint Lit (s : str) : regex :=
  match s with
  | [] => Empty
  | c :: s' => Cat (Char (is_char c)) (Lit s')
  end.

(** Case-insensitive literal of a [str] pattern ([re.IGNORECASE] with
    Unicode matching): a cased pattern character [l] (lower case) accepts
    the characters whose simple lower case is [l], and those the compiler
    adds as equivalent: dotless i for [i], long s for [s].  Capital I with
    dot lowers to [i] and the Kelvin sign to [k]. *)
Definition ci_char (l : char) : char -> bool :=
  fun c =>
    (c =? l)%N
    || (is_lower_az l && (c =? l - 32)%N)
    || ((l =? 0x69)%N && ((c =? 0x130)%N || (c =? 0x131)%N))
    || ((l =? 0x73)%N && (c =? 0x17F)%N)
    || ((l =? 0x6B)%N && (c =? 0x212A)%N).

Fixpoint LitI (s : str) : regex :=
  match s with
  | [] => Empty
  | c :: s' => Cat (Char (ci_char c)) (LitI s')
  end.

(** A match in progress: the character before the cursor (for [^] and
    [\b]), the text from the cursor on, and what group 1 holds. *)
Definition cont (R : Type) := option char -> str -> option str -> option R.

Section Matcher.
Variable R : Type.

(** [p*]: the longest run first, then shorter ones. *)
Fixpoint star_greedy (p : char -> bool) (prev : option char) (s : str)
         (cap : option str) (k : cont R) : option R :=
  match s with
  | c :: s' =>
      if p c then
        match star_greedy p (Some c) s' cap k with
        | Some x => Some x
        | None => k prev s cap
        end
      else k prev s cap
  | [] => k prev s cap
  end.

(** [p*?]: the shortest run first, then longer ones. *)
Fixpoint star_lazy (p : char -> bool) (prev : option char) (s : str)
         (cap : option str) (k : cont R) : option R :=
  match k prev s cap with
  | Some x => Some x
  | None =>
      match s with
      | c :: s' => if p c then star_lazy p (Some c) s' cap k else None
      | [] => None
      end
  end.

Definition at_word (w : char -> bool) (c : option char) : bool :=
  match c with
  | Some c => w c
  | None => false
  end.

(** The backtracking matcher: [k] is the rest of the pattern; [None]
    makes the caller try its next choice. *)
Fixpoint run (r : regex) (prev : option char) (s : str) (cap : option str)
         (k : cont R) {struct r} : option R :=
  match r with
  | Empty => k prev s cap
  | Char p =>
      match s with
      | c :: s' => if p c then k (Some c) s' cap else None
      | [] => None
      end
  | Cat r1 r2 => run r1 prev s cap (fun prev' s' cap' => run r2 prev' s' cap' k)
  | Alt r1 r2 =>
      match run r1 prev s cap k with
      | Some x => Some x
      | None => run r2 prev s cap k
      end
  | Star true p => star_greedy p prev s cap k
  | Star false p => star_lazy p prev s cap k
  | Group r1 =>
      run r1 prev s cap
          (fun prev' s' _ => k prev' s' (Some (firstn (length s - length s') s)))
  | Bol =>
      match prev with
      | None => k prev s cap
      | Some _ => None
      end
  | Eol =>
      match s with
      | [] => k prev s cap
      | [c] => if (c =? newline)%N then k prev s cap else None
      | _ => None
      end
  | WordB w =>
      if xorb (at_word w prev) (at_word w (hd_error s)) then k prev s cap else None
  end.
End Matcher.

(** A match object: [group(0)] and [group(1)]. *)
Record match_obj : Type := { whole : str; group1 : option str }.

(** One attempt at the cursor. *)
Definition exec (r : regex) (prev : option char) (s : str) : option match_obj :=
  run r prev s None
      (fun _ s' cap => Some {| whole := firstn (length s - length s') s; group1 := cap |}).

(** The scan shared by [finditer] and [sub]: left to right, a search
    resumes where the last match ended.  [skip] counts the characters of
    the current match still to pass.  None of the cog's patterns matches
    the empty string (see [exec_nonempty] below); for such a match the scan
    moves one character on. *)
Inductive piece : Type :=
| Plain (c : char)
| Hit (m : match_obj).

Fixpoint scan (r : regex) (skip : nat) (prev : option char) (s : str) {struct s}
  : list piece :=
  match skip with
  | S n =>
      match s with
      | [] => []
      | c :: s' => scan r n (Some c) s'
      end
  | O =>
      match exec r prev s with
      | Some m =>
          Hit m ::
          match s with
          | [] => []
          | c :: s' =>
              match length (whole m) with
              | O => Plain c :: scan r 0 (Some c) s'
              | S n => scan r n (Some c) s'
              end
          end
      | None =>
          match s with
          | [] => []
          | c :: s' => Plain c :: scan r 0 (Some c) s'
          end
      end
  end.

Fixpoint hits (ps : list piece) : list match_obj :=
  match ps with
  | [] => []
  | Plain _ :: ps' => hits ps'
  | Hit m :: ps' => m :: hits ps'
  end.

Fixpoint replace (repl : str) (ps : list piece) : str :=
  match ps with
  | [] => []
  | Plain c :: ps' => c :: replace repl ps'
  | Hit _ :: ps' => repl ++ replace repl ps'
  end.

(** [pattern.finditer(string)] and [pattern.sub(repl, string)] for a
    [repl] without escapes. *)
Definition finditer (r : regex) (s : str) : list match_obj := hits (scan r 0 None s).
Definition sub (r : regex) (repl : str) (s : str) : str := replace repl (scan r 0 None s).

End Re.

Import Re.

(* ===================================================================== *)
(** * The patterns of the class *)
(* ===================================================================== *)

Fixpoint Cats (rs : list regex) : regex :=
  match rs with
  | [] => Empty
  | [r] => r
  | r :: rs' => Cat r (Cats rs')
  end.

Fixpoint Alts (rs : list regex) : regex :=
  match rs with
  | [] => Empty
  | [r] => r
  | r :: rs' => Alt r (Alts rs')
  end.

(** "https?://open\.spotify\.com/(?:intl-[a-z]{2}/)?track/([a-zA-Z0-9]{22})\S*" *)
Definition SPOTIFY_RE : regex :=
  Cats [ Lit (txt "http"); Opt (Char (is_char (ch "s")));
         Lit (txt "://open.spotify.com/");
         Opt (Cats [Lit (txt "intl-"); Rep 2 is_lower_az; Lit (txt "/")]);
         Lit (txt "track/");
         Group (Rep 22 is_alnum_ascii);
         Star true non_space ].

(** "https?://(?:(?:www\.)?youtube\.com/watch\?[^\s]*v=|youtu\.be/"
    "|music\.youtube\.com/watch\?[^\s]*v=)([a-zA-Z0-9_-]{11})\S*" *)
Definition YOUTUBE_RE : regex :=
  Cats [ Lit (txt "http"); Opt (Char (is_char (ch "s")));
         Lit (txt "://");
         Alts [ Cats [ Opt (Lit (txt "www.")); Lit (txt "youtube.com/watch?");
                       Star true non_space; Lit (txt "v=") ];
                Lit (txt "youtu.be/");
                Cats [ Lit (txt "music.youtube.com/watch?");
                       Star true non_space; Lit (txt "v=") ] ];
         Group (Rep 11 is_video_id_char);
         Star true non_space ].

Definition is_open_bracket (c : char) : bool :=
  ((c =? 0x28) || (c =? 0x5B) || (c =? 0x7B))%N.
Definition is_close_bracket (c : char) : bool :=
  ((c =? 0x29) || (c =? 0x5D) || (c =? 0x7D))%N.

(** "(?i)[\(\[\{].*?[\)\]\}]": the flag changes nothing, the pattern has
    no cased character. *)
Definition YT_TITLE_NOISE : regex :=
  Cats [ Char is_open_bracket; Star false is_dot; Char is_close_bracket ].

(** The class of the separators: hyphen, en dash, em dash, bar, slash,
    backslash. *)
Definition is_separator (c : char) : bool :=
  ((c =? 0x2D) || (c =? 0x2013) || (c =? 0x2014) || (c =? 0x7C) || (c =? 0x2F)
   || (c =? 0x5C))%N.

(** The three patterns written inline in [_clean_yt_title]:
    "\s*[-–—|/\\]+\s*$", "^\s*[-–—|/\\]+\s*" and "\s{2,}". *)
Definition TRAILING_SEPARATORS : regex :=
  Cats [ Star true is_space; Plus is_separator; Star true is_space; Eol ].
Definition LEADING_SEPARATORS : regex :=
  Cats [ Bol; Star true is_space; Plus is_separator; Star true is_space ].
Definition WHITESPACE_RUN : regex := AtLeast 2 is_space.

Section Unicode.

(** [str.isalnum] on the code points above 127: the Unicode database of
    the interpreter, which is not part of the cog. *)
Variable unicode_alnum : char -> bool.

(** [\w] of a [str] pattern: alphanumeric or the underscore. *)
Definition is_word (c : char) : bool :=
  if (c <? 128)%N then is_alnum_ascii c || (c =? 0x5F)%N else unicode_alnum c.

Definition ws : regex := Star true is_space.

(** The keyword pattern, compiled with (?i): a word boundary, twelve
    alternatives in the order of the source, a word boundary.  Between the
    words of an alternative the source has "\s*" (written [ws] here), and
    the whole of "music\s*" is optional in the first one. *)
Definition YT_TITLE_KEYWORDS : regex :=
  Cats [ WordB is_word;
         Alts [ Cats [ LitI (txt "official"); ws;
                       Opt (Cats [LitI (txt "music"); ws]); LitI (txt "video") ];
                Cats [ LitI (txt "lyric"); ws; LitI (txt "video") ];
                Cats [ LitI (txt "official"); ws; LitI (txt "audio") ];
                LitI (txt "audio");
                LitI (txt "visualizer");
                Cats [ LitI (txt "performance"); ws; LitI (txt "video") ];
                Cats [ LitI (txt "clip"); ws; LitI (txt "officiel") ];
                Cats [ LitI (txt "remaster"); Opt (LitI (txt "ed")) ];
                LitI (txt "hd");
                LitI (txt "hq");
                LitI (txt "4k");
                LitI (txt "mv") ];
         WordB is_word ].

(* ===================================================================== *)
(** * Title cleaning *)
(* ===================================================================== *)

(** The five assignments to [cleaned], before the [or] of the last line. *)
Definition cleaned_title (title : str) : str :=
  let cleaned := sub YT_TITLE_NOISE [] title in
  let cleaned := sub YT_TITLE_KEYWORDS [] cleaned in
  let cleaned := sub TRAILING_SEPARATORS [] cleaned in
  let cleaned := sub LEADING_SEPARATORS [] cleaned in
  strip (sub WHITESPACE_RUN (txt " ") cleaned).

(** [cleaned or title.strip()]: an empty [str] is false. *)
Definition _clean_yt_title (title : str) : str :=
  match cleaned_title title with
  | [] => strip title
  | cleaned => cleaned
  end.

End Unicode.

(* ===================================================================== *)
(** * Exceptions *)
(* ===================================================================== *)

Inductive exn : Type :=
| TypeError
| AttributeError
| UnicodeEncodeError
| ContentTypeError
| JSONDecodeError
| TimeoutError
| ClientError.

Inductive result (A : Type) : Type :=
| Ok (a : A)
| Raise (e : exn).
Arguments Ok {A} a.
Arguments Raise {A} e.

Definition rbind {A B : Type} (x : result A) (f : A -> result B) : result B :=
  match x with
  | Ok a => f a
  | Raise e => Raise e
  end.

(* ===================================================================== *)
(** * [urllib.parse.quote] and [quote_plus] *)
(* ===================================================================== *)

Definition byte := N.

(** [str.encode("utf-8", "strict")] on one code point: one to four
    bytes; a surrogate is refused. *)
Definition utf8 (c : char) : option (list byte) :=
  (if c <? 0x80 then Some [c]
   else if c <? 0x800 then Some [0xC0 + c / 0x40; 0x80 + c mod 0x40]
   else if c <? 0x10000 then
     if is_surrogate c then None
     else Some [0xE0 + c / 0x1000; 0x80 + (c / 0x40) mod 0x40; 0x80 + c mod 0x40]
   else if c <? 0x110000 then
     Some [0xF0 + c / 0x40000; 0x80 + (c / 0x1000) mod 0x40;
           0x80 + (c / 0x40) mod 0x40; 0x80 + c mod 0x40]
   else None)%N.

Fixpoint encode_utf8 (s : str) : result (list byte) :=
  match s with
  | [] => Ok []
  | c :: s' =>
      match utf8 c with
      | None => Raise UnicodeEncodeError
      | Some bs => rbind (encode_utf8 s') (fun rest => Ok (bs ++ rest))
      end
  end.

(** [_ALWAYS_SAFE]: letters, digits and [_.-~]. *)
Definition always_safe (b : byte) : bool :=
  (is_alnum_ascii b || (b =? 0x5F) || (b =? 0x2E) || (b =? 0x2D) || (b =? 0x7E))%N.

Definition hex_digit (n : N) : char :=
  (if n <? 10 then 0x30 + n else 0x41 + (n - 10))%N.

(** The quoter of one byte: itself when safe, [%XX] otherwise. *)
Definition quote_byte (safe : byte -> bool) (b : byte) : str :=
  if always_safe b || safe b then [b]
  else [ch "%"; hex_digit (b / 16)%N; hex_digit (b mod 16)%N].

Definition quote_from_bytes (safe : byte -> bool) (bs : list byte) : str :=
  flat_map (quote_byte safe) bs.

Definition quote_with (safe : byte -> bool) (s : str) : result str :=
  match s with
  | [] => Ok []
  | _ => rbind (encode_utf8 s) (fun bs => Ok (quote_from_bytes safe bs))
  end.

Definition no_safe : byte -> bool := fun _ => false.

(** [quote(string)]: the default [safe] is ["/"]. *)
Definition quote (s : str) : result str := quote_with (is_char (ch "/")) s.

(** [quote_plus(string)]: without a space it is [quote] with nothing safe;
    with one, the space is kept safe and then replaced by [+]. *)
Definition quote_plus (s : str) : result str :=
  if existsb (is_char (ch " ")) s then
    rbind (quote_with (is_char (ch " ")) s)
          (fun q => Ok (List.map (fun c => if (c =? ch " ")%N then ch "+" else c) q))
  else quote_with no_safe s.

(* ===================================================================== *)
(** * Link builders *)
(* ===================================================================== *)

Definition _yt_music_search (query : str) : result str :=
  rbind (quote_plus query) (fun q => Ok (txt "https://music.youtube.com/search?q=" ++ q)).

Definition _yt_search (query : str) : result str :=
  rbind (quote_plus query)
        (fun q => Ok (txt "https://www.youtube.com/results?search_query=" ++ q)).

Definition _spotify_search (query : str) : result str :=
  rbind (quote query) (fun q => Ok (txt "https://open.spotify.com/search/" ++ q)).

Definition _brave_lyrics (query : str) : result str :=
  rbind (quote_plus (query ++ txt " lyrics"))
        (fun q => Ok (txt "https://search.brave.com/search?q=" ++ q)).

(* ===================================================================== *)
(** * Python values *)
(* ===================================================================== *)

(** What [resp.json()] can return, and [None].  Of a float only whether it
    is zero is kept: the listener does no more with a number than test it. *)
Inductive value : Type :=
| VNone
| VBool (b : bool)
| VInt (z : Z)
| VFloat (is_zero : bool)
| VStr (s : str)
| VList (l : list value)
| VDict (d : list (str * value)).

(** Truth value testing, as [if data:] and [if author:] do it. *)
Definition truthy (v : value) : bool :=
  match v with
  | VNone => false
  | VBool b => b
  | VInt z => negb (z =? 0)%Z
  | VFloat is_zero => negb is_zero
  | VStr s => match s with [] => false | _ => true end
  | VList l => match l with [] => false | _ => true end
  | VDict d => match d with [] => false | _ => true end
  end.

Fixpoint str_eqb (a b : str) : bool :=
  match a, b with
  | [], [] => true
  | x :: a', y :: b' => (x =? y)%N && str_eqb a' b'
  | _, _ => false
  end.

(** A [dict] holds one value per key; the entries are looked up from the
    front. *)
Fixpoint lookup (d : list (str * value)) (key : str) : option value :=
  match d with
  | [] => None
  | (k, v) :: d' => if str_eqb k key then Some v else lookup d' key
  end.

(** [data.get(key, default)]; on anything but a [dict] the attribute is
    missing. *)
Definition get (data : value) (key : str) (default : value) : result value :=
  match data with
  | VDict d =>
      match lookup d key with
      | Some v => Ok v
      | None => Ok default
      end
  | _ => Raise AttributeError
  end.

(* ===================================================================== *)
(** * Embeds *)
(* ===================================================================== *)

Record field : Type := { name : str; fvalue : str; inline : bool }.

(** A [discord.Embed] as the builders fill it.  [description] keeps the
    author interpolated into "by **{author}**", [thumbnail] the [url] given
    to [set_thumbnail]. *)
Record embed : Type := {
  title : str;
  color : Z;
  description : option value;
  fields : list field;
  thumbnail : option value;
  footer : str
}.

Definition SPOTIFY_GREEN : Z := 0x1DB954.
Definition YOUTUBE_RED : Z := 0xFF0000.

(** The decorations of the embeds: musical note, red circle, memo, green
    circle, bullet and arrow, by code point. *)
Definition note_prefix : str := [0x1F3B5; 32; 32]%N.
Definition youtube_name : str := [0x1F534; 32; 32]%N ++ txt "YouTube".
Definition lyrics_name : str := [0x1F4DD; 32; 32]%N ++ txt "Lyrics".
Definition spotify_name : str := [0x1F7E2; 32; 32]%N ++ txt "Spotify".
Definition footer_of (src dst : string) : str :=
  txt "MusicLinker  " ++ [0x2022]%N ++ txt "  " ++ txt src ++ txt " " ++ [0x279C]%N
  ++ txt " " ++ txt dst.

Definition md_link (label : string) (url : str) : str :=
  txt "[" ++ txt label ++ txt "](" ++ url ++ txt ")".

(** [show_thumb and thumbnail] *)
Definition thumb_of (show_thumb : bool) (thumbnail : value) : option value :=
  if show_thumb && truthy thumbnail then Some thumbnail else None.

(** The builders take what [data.get] returned: a title that is not a
    [str] makes [quote_plus] (or [re.sub]) raise [TypeError]. *)
Definition _build_spotify_embed (title : value) (thumbnail : value) (show_thumb : bool)
  : result embed :=
  match title with
  | VStr title =>
      rbind (_yt_music_search title) (fun yt_music =>
      rbind (_yt_search title) (fun yt_regular =>
      rbind (_brave_lyrics title) (fun brave =>
      Ok {| title := note_prefix ++ title;
            color := SPOTIFY_GREEN;
            description := None;
            fields :=
              [ {| name := youtube_name;
                   fvalue := md_link "YouTube Music" yt_music ++ [newline]
                             ++ md_link "YouTube" yt_regular;
                   inline := true |};
                {| name := lyrics_name;
                   fvalue := md_link "Brave Search" brave;
                   inline := true |} ];
            thumbnail := thumb_of show_thumb thumbnail;
            footer := footer_of "Spotify" "YouTube" |})))
  | _ => Raise TypeError
  end.

Section Cog.

Variable unicode_alnum : char -> bool.

Definition _build_youtube_embed (raw_title : value) (author : value) (thumbnail : value)
           (show_thumb : bool) : result embed :=
  match raw_title with
  | VStr raw_title =>
      let clean := _clean_yt_title unicode_alnum raw_title in
      rbind (_spotify_search clean) (fun spotify =>
      rbind (_brave_lyrics clean) (fun brave =>
      Ok {| title := note_prefix ++ raw_title;
            color := YOUTUBE_RED;
            description := if truthy author then Some author else None;
            fields :=
              [ {| name := spotify_name;
                   fvalue := md_link "Search on Spotify" spotify;
                   inline := true |};
                {| name := lyrics_name;
                   fvalue := md_link "Brave Search" brave;
                   inline := true |} ];
            thumbnail := thumb_of show_thumb thumbnail;
            footer := footer_of "YouTube" "Spotify" |}))
  | _ => Raise TypeError
  end.

(* ===================================================================== *)
(** * The cog's state and the network *)
(* ===================================================================== *)

Record settings : Type := {
  enabled : bool;
  show_thumbnail : bool;
  max_links_per_message : Z
}.

Definition default_guild : settings :=
  {| enabled := true; show_thumbnail := true; max_links_per_message := 3 |}.

Definition guild_id := Z.

Inductive session_state : Type :=
| NoSession
| SessionOpen
| SessionClosed.

(** A GET as [session.get] issues it. *)
Record request : Type := { url : str; timeout_total : Z }.

(** A response: the status, the declared content type, and the body as
    [json.loads] reads it ([None] when it is not JSON). *)
Record response : Type := {
  status : Z;
  content_type : str;
  body : option value
}.

(** What a GET comes to: a response, or the timeout, or a transport
    error. *)
Inductive outcome : Type :=
| Responded (r : response)
| TimedOut
| Failed.

(** The state of the cog: the per-guild settings in [Config] (a guild that
    was never written reads the registered defaults), the shared session,
    and the requests issued so far, oldest first. *)
Record cog : Type := {
  config : guild_id -> settings;
  session : session_state;
  requests : list request
}.

Definition initial : cog :=
  {| config := fun _ => default_guild; session := NoSession; requests := [] |}.

(** The network answers the [n]-th request of a run. *)
Variable net : nat -> request -> outcome.

(** Coroutines of the cog: state in, result and state out. *)
Definition M (A : Type) : Type := cog -> result A * cog.

Definition ret {A : Type} (a : A) : M A := fun st => (Ok a, st).
Definition bind {A B : Type} (m : M A) (f : A -> M B) : M B :=
  fun st =>
    match m st with
    | (Ok a, st') => f a st'
    | (Raise e, st') => (Raise e, st')
    end.
Definition lift {A : Type} (r : result A) : M A := fun st => (r, st).

(** [try: m  except Exception: pass], then the code after it. *)
Definition try_pass {A : Type} (m : M A) (after : M A) : M A :=
  fun st =>
    match m st with
    | (Ok a, st') => (Ok a, st')
    | (Raise _, st') => after st'
    end.

Notation "x <- m ;; k" := (bind m (fun x => k))
  (at level 61, m at next level, right associativity).

Definition _get_session : M unit :=
  fun st =>
    match session st with
    | SessionOpen => (Ok tt, st)
    | _ => (Ok tt, {| config := config st; session := SessionOpen;
                      requests := requests st |})
    end.

Definition cog_unload : M unit :=
  fun st =>
    match session st with
    | SessionOpen => (Ok tt, {| config := config st; session := SessionClosed;
                                requests := requests st |})
    | _ => (Ok tt, st)
    end.

(** [async with session.get(url, timeout=ClientTimeout(total=t)) as resp]:
    the request is logged and the network answers it; a timeout and a
    transport error are raised here. *)
Definition session_get (u : str) (t : Z) : M response :=
  fun st =>
    let rq := {| url := u; timeout_total := t |} in
    let st' := {| config := config st; session := session st;
                  requests := requests st ++ [rq] |} in
    match net (List.length (requests st)) rq with
    | Responded r => (Ok r, st')
    | TimedOut => (Raise TimeoutError, st')
    | Failed => (Raise ClientError, st')
    end.

(** [resp.json(content_type=expected)]: a declared type other than the
    expected one is refused, unless [expected] is [None]; then the body
    is decoded. *)
Definition resp_json (expected : option str) (r : response) : result value :=
  match expected with
  | Some ct => if str_eqb ct (content_type r) then
                 match body r with Some v => Ok v | None => Raise JSONDecodeError end
               else Raise ContentTypeError
  | None => match body r with Some v => Ok v | None => Raise JSONDecodeError end
  end.

(** The body is written out in each helper, as in the source: the
    session is taken outside the [try]; inside it the GET is issued and,
    on a 200, the body is decoded with the content type check off; every
    exception falls through to [return None]. *)
Definition _fetch_spotify_oembed (track_id : str) : M value :=
  let url := txt "https://open.spotify.com/track/" ++ track_id in
  let oembed := txt "https://open.spotify.com/oembed?url=" ++ url in
  _ <- _get_session ;;
  try_pass
    (resp <- session_get oembed 10 ;;
     if (status resp =? 200)%Z then lift (resp_json None resp) else ret VNone)
    (ret VNone).

Definition _fetch_youtube_oembed (video_id : str) : M value :=
  let url := txt "https://www.youtube.com/watch?v=" ++ video_id in
  let oembed := txt "https://www.youtube.com/oembed?url=" ++ url ++ txt "&format=json" in
  _ <- _get_session ;;
  try_pass
    (resp <- session_get oembed 10 ;;
     if (status resp =? 200)%Z then lift (resp_json None resp) else ret VNone)
    (ret VNone).

(* ===================================================================== *)
(** * Settings commands *)
(* ===================================================================== *)

Definition set_guild (g : guild_id) (s : settings) (st : cog) : cog :=
  {| config := fun g' => if (g' =? g)%Z then s else config st g';
     session := session st;
     requests := requests st |}.

(** The commands run in a guild ([guild_only]); the text they send back is
    left out. *)
Definition ml_toggle (g : guild_id) : M unit :=
  fun st =>
    let current := enabled (config st g) in
    (Ok tt, set_guild g {| enabled := negb current;
                           show_thumbnail := show_thumbnail (config st g);
                           max_links_per_message := max_links_per_message (config st g) |}
                      st).

Definition ml_thumbnail (g : guild_id) : M unit :=
  fun st =>
    let current := show_thumbnail (config st g) in
    (Ok tt, set_guild g {| enabled := enabled (config st g);
                           show_thumbnail := negb current;
                           max_links_per_message := max_links_per_message (config st g) |}
                      st).

Definition ml_maxlinks (g : guild_id) (limit : Z) : M unit :=
  fun st =>
    let limit := Z.max 1 (Z.min 10 limit) in
    (Ok tt, set_guild g {| enabled := enabled (config st g);
                           show_thumbnail := show_thumbnail (config st g);
                           max_links_per_message := limit |}
                      st).

(** The group command only shows the settings. *)
Definition musiclinker (g : guild_id) : M settings :=
  fun st => (Ok (config st g), st).

Inductive command : Type :=
| CmdView
| CmdToggle
| CmdThumbnail
| CmdMaxlinks (limit : Z).

Definition run_command (g : guild_id) (c : command) (st : cog) : cog :=
  match c with
  | CmdView => snd (musiclinker g st)
  | CmdToggle => snd (ml_toggle g st)
  | CmdThumbnail => snd (ml_thumbnail g st)
  | CmdMaxlinks limit => snd (ml_maxlinks g limit st)
  end.

(** Any sequence of commands, each in some guild. *)
Fixpoint run_commands (cs : list (guild_id * command)) (st : cog) : cog :=
  match cs with
  | [] => st
  | (g, c) :: cs' => run_commands cs' (run_command g c st)
  end.

(* ===================================================================== *)
(** * The listener *)
(* ===================================================================== *)

Record message : Type := {
  author_bot : bool;
  guild : option guild_id;
  ctx_valid : bool;          (* the message is a command of the bot *)
  content : str
}.

(** [match.group(1)] inside an f-string: a group that took no part reads
    [None]. *)
Definition group_1 (m : match_obj) : str :=
  match group1 m with
  | Some s => s
  | None => txt "None"
  end.

(** [len(embeds) >= max_links] *)
Definition cap_reached (embeds : list embed) (max_links : Z) : bool :=
  (max_links <=? Z.of_nat (List.length embeds))%Z.

(** The first loop: [break] at the cap, an embed for each match whose
    metadata is truthy. *)
Fixpoint spotify_loop (show_thumb : bool) (max_links : Z) (ms : list match_obj)
         (embeds : list embed) : M (list embed) :=
  match ms with
  | [] => ret embeds
  | m :: ms' =>
      if cap_reached embeds max_links then ret embeds
      else
        data <- _fetch_spotify_oembed (group_1 m) ;;
        if truthy data then
          title <- lift (get data (txt "title") (VStr (txt "Unknown Track"))) ;;
          thumb <- lift (get data (txt "thumbnail_url") VNone) ;;
          e <- lift (_build_spotify_embed title thumb show_thumb) ;;
          spotify_loop show_thumb max_links ms' (embeds ++ [e])
        else spotify_loop show_thumb max_links ms' embeds
  end.

(** The second loop, on the same list of embeds. *)
Fixpoint youtube_loop (show_thumb : bool) (max_links : Z) (ms : list match_obj)
         (embeds : list embed) : M (list embed) :=
  match ms with
  | [] => ret embeds
  | m :: ms' =>
      if cap_reached embeds max_links then ret embeds
      else
        data <- _fetch_youtube_oembed (group_1 m) ;;
        if truthy data then
          raw_title <- lift (get data (txt "title") (VStr (txt "Unknown"))) ;;
          author <- lift (get data (txt "author_name") (VStr [])) ;;
          thumb <- lift (get data (txt "thumbnail_url") VNone) ;;
          e <- lift (_build_youtube_embed raw_title author thumb show_thumb) ;;
          youtube_loop show_thumb max_links ms' (embeds ++ [e])
        else youtube_loop show_thumb max_links ms' embeds
  end.

(** [on_message]: the embeds handed to [message.reply]; the empty list
    when the listener returns early or has nothing to send. *)
Definition on_message (msg : message) : M (list embed) :=
  fun st =>
    match guild msg with
    | None => (Ok [], st)
    | Some g =>
        if author_bot msg then (Ok [], st)
        else if negb (enabled (config st g)) then (Ok [], st)
        else if ctx_valid msg then (Ok [], st)
        else
          let show_thumb := show_thumbnail (config st g) in
          let max_links := max_links_per_message (config st g) in
          (embeds <- spotify_loop show_thumb max_links
                                  (finditer SPOTIFY_RE (content msg)) [] ;;
           youtube_loop show_thumb max_links
                        (finditer YOUTUBE_RE (content msg)) embeds) st
    end.

End Cog.

(* ===================================================================== *)
(** * Definitions used to state the properties *)
(* ===================================================================== *)

Unset Implicit Arguments.

(** The cursor's left neighbour after passing [m]. *)
Definition advance (prev : option char) (m : str) : option char :=
  fold_left (fun _ c => Some c) m prev.

(** The least number of characters a match of [r] takes. *)
Fixpoint min_len (r : regex) : nat :=
  match r with
  | Empty => 0
  | Char _ => 1
  | Cat r1 r2 => min_len r1 + min_len r2
  | Alt r1 r2 => Nat.min (min_len r1) (min_len r2)
  | Star _ _ => 0
  | Group r1 => min_len r1
  | Bol | Eol | WordB _ => 0
  end.

(** Every class of [r] accepts only characters in [Q]. *)
Fixpoint classes_in (Q : char -> Prop) (r : regex) : Prop :=
  match r with
  | Char p | Star _ p => forall c, p c = true -> Q c
  | Cat r1 r2 | Alt r1 r2 => classes_in Q r1 /\ classes_in Q r2
  | Group r1 => classes_in Q r1
  | Empty | Bol | Eol | WordB _ => True
  end.

(** The URLs the extraction is stated on. *)
Definition scheme (https : bool) : str :=
  txt "http" ++ (if https then [ch "s"] else []).

(** A Spotify track link: the optional [intl-xx/] holds two letters. *)
Definition spotify_track_url (https : bool) (intl : option (char * char)) (id : str) : str :=
  scheme https ++ txt "://open.spotify.com/"
  ++ match intl with
     | Some (a, b) => txt "intl-" ++ [a; b] ++ txt "/"
     | None => []
     end
  ++ txt "track/" ++ id.

(** The three forms of a YouTube link; [params] stands before [v=]. *)
Inductive youtube_form : Type :=
| Watch (www : bool) (params : str)
| Short
| Music (params : str).

Definition youtube_url (https : bool) (form : youtube_form) (id : str) : str :=
  scheme https ++ txt "://"
  ++ match form with
     | Watch www params =>
         (if www then txt "www." else []) ++ txt "youtube.com/watch?" ++ params ++ txt "v="
     | Short => txt "youtu.be/"
     | Music params => txt "music.youtube.com/watch?" ++ params ++ txt "v="
     end
  ++ id.

(** The link stands at the start of the text or after whitespace, and ends
    the text or is followed by whitespace. *)
Definition after_blank (pre : str) : Prop :=
  pre = [] \/ exists p c, pre = p ++ [c] /\ is_space c = true.
Definition before_blank (post : str) : Prop :=
  match post with
  | [] => True
  | c :: _ => is_space c = true
  end.

(** The parameters before [v=] are part of the link: no whitespace. *)
Definition form_ok (form : youtube_form) : Prop :=
  match form with
  | Watch _ params | Music params => forallb non_space params = true
  | Short => True
  end.

(** What happens to a running cog: a settings command in some guild, a
    message, the unloading of the cog. *)
Inductive event : Type :=
| OnCommand (g : guild_id) (c : command)
| OnMessage (msg : message)
| OnUnload.

Definition step (ua : char -> bool) (net : nat -> request -> outcome) (e : event)
           (st : cog) : cog :=
  match e with
  | OnCommand g c => run_command g c st
  | OnMessage msg => snd (on_message ua net msg st)
  | OnUnload => snd (cog_unload st)
  end.

Definition run_events (ua : char -> bool) (net : nat -> request -> outcome)
           (es : list event) (st : cog) : cog :=
  fold_left (fun st e => step ua net e st) es st.

(** The stored limit of every guild lies in [1..10]. *)
Definition limits_clamped (st : cog) : Prop :=
  forall g, (1 <= max_links_per_message (config st g) <= 10)%Z.

(** A coroutine that leaves the settings as they are. *)
Definition keeps_config {A : Type} (m : M A) : Prop :=
  forall st, config (snd (m st)) = config st.

(** The oEmbed address asked for a track and for a video. *)
Definition spotify_oembed_url (track_id : str) : str :=
  txt "https://open.spotify.com/oembed?url=https://open.spotify.com/track/" ++ track_id.
Definition youtube_oembed_url (video_id : str) : str :=
  txt "https://www.youtube.com/oembed?url=https://www.youtube.com/watch?v=" ++ video_id
  ++ txt "&format=json".

(** What a fetch returns for the answer of the network: the decoded body
    of a 200, [None] for everything else. *)
Definition metadata_of (o : outcome) : value :=
  match o with
  | Responded r =>
      if (status r =? 200)%Z then
        match body r with
        | Some v => v
        | None => VNone
        end
      else VNone
  | TimedOut | Failed => VNone
  end.

(** A coroutine run from [st] that asks the network exactly once, for
    [rq], and returns the metadata of the answer without raising; the
    settings stay, the session is open afterwards. *)
Definition one_request (net : nat -> request -> outcome) (m : M value) (rq : request)
           (st : cog) : Prop :=
  fst (m st) = Ok (metadata_of (net (List.length (requests st)) rq))
  /\ requests (snd (m st)) = requests st ++ [rq]
  /\ config (snd (m st)) = config st
  /\ session (snd (m st)) = SessionOpen.

(** A code point UTF-8 can encode: any but a surrogate. *)
Definition is_scalar (c : char) : bool := is_code_point c && negb (is_surrogate c).

(** The characters a quoted query is made of: the unreserved ones and the
    percent sign, and [+] (for a space) under [quote_plus], [/] under
    [quote]. *)
Definition quoted_char (extra : char) (c : char) : bool :=
  always_safe c || (c =? ch "%")%N || (c =? extra)%N.

(** One byte under [quote_plus]. *)
Definition plus_byte (b : byte) : str :=
  if (b =? ch " ")%N then [ch "+"] else quote_byte no_safe b.

Definition count (c : char) (s : str) : nat := count_occ N.eq_dec s c.

(** ** The reply, match by match *)

(** The value of a key of the fetched object, or [default]. *)
Definition field_or (d : list (str * value)) (key : string) (default : value) : value :=
  match lookup d (txt key) with
  | Some v => v
  | None => default
  end.

(** What one match contributes, given its metadata: nothing when the
    metadata is false, else the embed, or the exception of the builder. *)
Definition spotify_unit (show_thumb : bool) (data : value) : option (result embed) :=
  if truthy data then
    Some (rbind (get data (txt "title") (VStr (txt "Unknown Track"))) (fun title =>
          rbind (get data (txt "thumbnail_url") VNone) (fun thumb =>
          _build_spotify_embed title thumb show_thumb)))
  else None.

Definition youtube_unit (ua : char -> bool) (show_thumb : bool) (data : value)
  : option (result embed) :=
  if truthy data then
    Some (rbind (get data (txt "title") (VStr (txt "Unknown"))) (fun raw_title =>
          rbind (get data (txt "author_name") (VStr [])) (fun author =>
          rbind (get data (txt "thumbnail_url") VNone) (fun thumb =>
          _build_youtube_embed ua raw_title author thumb show_thumb))))
  else None.

(** The units of a list of matches, were each of them fetched: the [i]-th
    match is answered as the request number [n + i]. *)
Fixpoint units (net : nat -> request -> outcome) (unit_of : value -> option (result embed))
         (oembed_url : str -> str) (n : nat) (ms : list match_obj)
  : list (option (result embed)) :=
  match ms with
  | [] => []
  | m :: ms' =>
      unit_of (metadata_of (net n {| url := oembed_url (group_1 m); timeout_total := 10 |}))
      :: units net unit_of oembed_url (S n) ms'
  end.

(** All units of a message in extraction order: the Spotify matches, then
    the YouTube matches. *)
Definition message_units (ua : char -> bool) (net : nat -> request -> outcome)
           (show_thumb : bool) (n : nat) (text : str) : list (option (result embed)) :=
  units net (spotify_unit show_thumb) spotify_oembed_url n (finditer SPOTIFY_RE text)
  ++ units net (youtube_unit ua show_thumb) youtube_oembed_url
           (n + List.length (finditer SPOTIFY_RE text)) (finditer YOUTUBE_RE text).

(** Going through units until the cap is reached. *)
Fixpoint gather (max_links : Z) (us : list (option (result embed))) (embeds : list embed)
  : result (list embed) :=
  match us with
  | [] => Ok embeds
  | u :: us' =>
      if cap_reached embeds max_links then Ok embeds
      else match u with
           | None => gather max_links us' embeds
           | Some (Ok e) => gather max_links us' (embeds ++ [e])
           | Some (Raise x) => Raise x
           end
  end.

(** The embeds among the units. *)
Fixpoint resolved (us : list (option (result embed))) : list embed :=
  match us with
  | [] => []
  | Some (Ok e) :: us' => e :: resolved us'
  | _ :: us' => resolved us'
  end.

(** Following the spec's words: "for each match up to maxLinksPerMessage
    (counting Spotify and YouTube matches together against one shared cap,
    in extraction order), resolve metadata; skip on unavailable".  The cap
    counts matches: the first [max_links] of them are resolved, and the
    unavailable ones among these are skipped. *)
Definition reply_as_specified (max_links : Z) (us : list (option (result embed)))
  : list embed :=
  resolved (firstn (Z.to_nat max_links) us).

(** The state after the GET [rq] was issued from [st]. *)
Definition asked (st : cog) (rq : request) : cog :=
  {| config := config st; session := SessionOpen; requests := requests st ++ [rq] |}.

(** ** Scenarios *)

(** A word table for texts of ASCII characters, on which it is never
    consulted. *)
Definition ascii_only : char -> bool := fun _ => false.

(** A message of a member in guild 1 that is not a command. *)
Definition member_message (text : str) : message :=
  {| author_bot := false; guild := Some 1%Z; ctx_valid := false; content := text |}.

(** Five links: in the text the YouTube links come first and third; in
    extraction order the three Spotify links come first. *)
Definition five_links : str :=
  txt "https://youtu.be/aaaaaaaaaaa https://open.spotify.com/track/1111111111111111111111 "
  ++ txt "https://youtu.be/bbbbbbbbbbb https://open.spotify.com/track/2222222222222222222222 "
  ++ txt "https://open.spotify.com/track/3333333333333333333333".

(** A network on which every oEmbed request is answered with a title,
    here the address that was asked for. *)
Definition titled (rq : request) : outcome :=
  Responded {| status := 200; content_type := txt "application/json";
               body := Some (VDict [(txt "title", VStr (url rq))]) |}.
Definition all_answer : nat -> request -> outcome := fun _ rq => titled rq.

(** The same network, but the first request of the run times out. *)
Definition first_times_out : nat -> request -> outcome :=
  fun n rq => match n with O => TimedOut | S _ => titled rq end.

Definition titles (r : result (list embed)) : list str :=
  match r with
  | Ok es => List.map title es
  | Raise _ => []
  end.

(** A network that answers with an object whose title is [null]. *)
Definition null_title_object : list (str * value) :=
  [ (txt "title", VNone); (txt "thumbnail_url", VStr (txt "https://img/x.jpg")) ].
Definition null_title : nat -> request -> outcome :=
  fun _ _ => Responded {| status := 200; content_type := txt "application/json";
                          body := Some (VDict null_title_object) |}.

(** The match of the link in the spec's first scenario. *)
Definition scenario_match : match_obj :=
  {| whole := txt "https://open.spotify.com/track/abcdefghijklmnopqrstuv";
     group1 := Some (txt "abcdefghijklmnopqrstuv") |}.

(** ** The cleaning steps, written without patterns *)

Fixpoint take_while (p : char -> bool) (s : str) : str :=
  match s with
  | c :: s' => if p c then c :: take_while p s' else []
  | [] => []
  end.

Fixpoint skip_while (p : char -> bool) (s : str) : str :=
  match s with
  | c :: s' => if p c then skip_while p s' else s
  | [] => []
  end.

(** Where the bracket opened before [s] closes: the index of the nearest
    closing bracket of any kind, if no line break comes before it. *)
Fixpoint close_at (s : str) : option nat :=
  match s with
  | [] => None
  | c :: s' =>
      if is_close_bracket c then Some 0
      else if is_dot c then option_map S (close_at s')
      else None
  end.

Definition closes (s : str) : bool :=
  match close_at s with
  | Some _ => true
  | None => false
  end.

(** Step 1: everything from an opening bracket to the nearest closing
    bracket of any kind on the same line goes; [inside] says that such a
    stretch is being passed. *)
Fixpoint remove_bracketed (inside : bool) (s : str) : str :=
  match s with
  | [] => []
  | c :: s' =>
      if inside then
        if is_close_bracket c then remove_bracketed false s' else remove_bracketed true s'
      else if is_open_bracket c && closes s' then remove_bracketed true s'
      else c :: remove_bracketed false s'
  end.

(** A text that is one run of separators with whitespace before and after
    it, and nothing else. *)
Definition separator_tail (s : str) : bool :=
  match skip_while is_space s with
  | c :: t => is_separator c && forallb is_space (skip_while is_separator t)
  | [] => false
  end.

(** Step 3, at the end: the text is cut where its rest is such a tail. *)
Fixpoint strip_trailing_separators (s : str) : str :=
  match s with
  | [] => []
  | c :: s' => if separator_tail s then [] else c :: strip_trailing_separators s'
  end.

(** Step 3, at the start: leading whitespace, a run of separators and the
    whitespace after it go, when the text starts that way. *)
Definition strip_leading_separators (s : str) : str :=
  match skip_while is_space s with
  | c :: t => if is_separator c then skip_while is_space (skip_while is_separator t) else s
  | [] => s
  end.

(** Step 4: every run of two or more whitespace characters becomes one
    space; [in_run] says that such a run is being passed. *)
Fixpoint collapse_whitespace (in_run : bool) (s : str) : str :=
  match s with
  | [] => []
  | c :: s' =>
      if is_space c then
        if in_run then collapse_whitespace true s'
        else match s' with
             | d :: _ =>
                 if is_space d then ch " " :: collapse_whitespace true s'
                 else c :: collapse_whitespace false s'
             | [] => [c]
             end
      else c :: collapse_whitespace false s'
  end.

(** Following the spec's words for step 1, "remove every substring
    enclosed in matching (), [], or {} (non-greedy)": from an opening
    bracket to the nearest closing bracket of the same kind.  [pending]
    is the closing bracket awaited. *)
Definition closing_of (c : char) : option char :=
  (if c =? 0x28 then Some 0x29
   else if c =? 0x5B then Some 0x5D
   else if c =? 0x7B then Some 0x7D
   else None)%N.

Fixpoint remove_matching_brackets (pending : option char) (s : str) : str :=
  match s with
  | [] => []
  | c :: s' =>
      match pending with
      | Some close =>
          if (c =? close)%N then remove_matching_brackets None s'
          else remove_matching_brackets pending s'
      | None =>
          match closing_of c with
          | Some close =>
              if existsb (is_char close) s' then remove_matching_brackets (Some close) s'
              else c :: remove_matching_brackets None s'
          | None => c :: remove_matching_brackets None s'
          end
      end
  end.

(** ** What a pattern denotes *)

(** A position is a word boundary when exactly one of its neighbours is a
    word character. *)
Definition word_boundary (w : char -> bool) (before : option char) (after : str) : Prop :=
  xorb (at_word w before) (at_word w (hd_error after)) = true.

(** [denotes r before m after]: the text [m], standing after the
    character [before] and before the text [after], is in the language of
    [r]. *)
Fixpoint denotes (r : regex) (before : option char) (m after : str) : Prop :=
  match r with
  | Empty => m = []
  | Char p => exists c, m = [c] /\ p c = true
  | Cat r1 r2 =>
      exists m1 m2, m = m1 ++ m2 /\ denotes r1 before m1 (m2 ++ after)
                    /\ denotes r2 (advance before m1) m2 after
  | Alt r1 r2 => denotes r1 before m after \/ denotes r2 before m after
  | Star _ p => forallb p m = true
  | Group r1 => denotes r1 before m after
  | Bol => m = [] /\ before = None
  | Eol => m = [] /\ (after = [] \/ after = [newline])
  | WordB w => m = [] /\ word_boundary w before after
  end.

(** The text of the pieces of a scan, matches included. *)
Definition piece_text (p : piece) : str :=
  match p with
  | Plain c => [c]
  | Hit m => whole m
  end.

(** ** The keywords, without a pattern *)

(** [m] is [word] up to the case of its letters. *)
Definition same_letters (word : string) (m : str) : Prop :=
  Forall2 (fun l c => ci_char l c = true) (txt word) m.

(** [m] is the words in order, with any whitespace (or none) between
    one word and the next. *)
Fixpoint spells (words : list string) (m : str) : Prop :=
  match words with
  | [] => m = []
  | w :: ws =>
      match ws with
      | [] => same_letters w m
      | _ :: _ =>
          exists v blank rest,
            m = v ++ blank ++ rest /\ same_letters w v
            /\ forallb is_space blank = true /\ spells ws rest
      end
  end.

Definition keyword_forms : list (list string) :=
  [ ["official"; "video"]; ["official"; "music"; "video"]; ["lyric"; "video"];
    ["official"; "audio"]; ["audio"]; ["visualizer"]; ["performance"; "video"];
    ["clip"; "officiel"]; ["remaster"]; ["remastered"]; ["hd"]; ["hq"]; ["4k"]; ["mv"] ]%string.

Definition is_keyword (m : str) : Prop :=
  exists words, In words keyword_forms /\ spells words m.

(* ===================================================================== *)
(** * The lookups of a message *)
(* ===================================================================== *)

(** The request with which the match of either pattern is looked up. *)
Definition spotify_request (m : match_obj) : request :=
  {| url := spotify_oembed_url (group_1 m); timeout_total := 10 |}.
Definition youtube_request (m : match_obj) : request :=
  {| url := youtube_oembed_url (group_1 m); timeout_total := 10 |}.

(** The ids the two patterns capture. *)
Definition is_track_id (id : str) : Prop :=
  List.length id = 22 /\ forallb is_alnum_ascii id = true.
Definition is_video_id (id : str) : Prop :=
  List.length id = 11 /\ forallb is_video_id_char id = true.

(** A text that begins with a track link as [SPOTIFY_RE] reads one:
    either scheme, the [intl-xx/] part or none, [track/] and an id. *)
Definition begins_track_link (s : str) : Prop :=
  exists https intl id rest,
    s = spotify_track_url https intl id ++ rest
    /\ is_track_id id
    /\ match intl with
       | Some (a, b) => is_lower_az a = true /\ is_lower_az b = true
       | None => True
       end.

(** The text [pre] before a link, read on into the text [rest] from the
    link on: no track link begins in the stretch of non-whitespace
    characters that ends [pre].  A match of the pattern ends at the first
    whitespace after its id, so that nothing else can reach over the
    position after [pre]. *)
Definition clear_of_links (pre rest : str) : Prop :=
  forall a b, pre = a ++ b -> b <> [] -> forallb non_space b = true ->
              ~ begins_track_link (b ++ rest).

(** The other case: a track link begins before the position after
    [pre], with no whitespace between. *)
Definition link_before (pre rest : str) : Prop :=
  exists a b, pre = a ++ b /\ b <> [] /\ forallb non_space b = true
              /\ begins_track_link (b ++ rest).

(** A request that looks up one such id at one of the two oEmbed
    endpoints, with the timeout of the helpers. *)
Definition oembed_lookup (rq : request) : Prop :=
  timeout_total rq = 10%Z
  /\ ((exists id, is_track_id id /\ url rq = spotify_oembed_url id)
      \/ (exists id, is_video_id id /\ url rq = youtube_oembed_url id)).

(** The session after [n] lookups were made from a state. *)
Definition session_after (n : nat) (st : cog) : session_state :=
  match n with
  | O => session st
  | S _ => SessionOpen
  end.

(** The number of embeds a run of the listener hands to [message.reply];
    none when it raises. *)
Definition reply_size (r : result (list embed)) : nat :=
  match r with
  | Ok embeds => List.length embeds
  | Raise _ => 0
  end.

(** Twelve track links in one message. *)
Definition twelve_links : str :=
  flat_map (fun c => txt "https://open.spotify.com/track/" ++ repeat c 22 ++ txt " ")
           (txt "abcdefghijkl").

(* ===================================================================== *)
(** * The metadata of a lookup *)
(* ===================================================================== *)

(** Metadata the loops can deal with: an object (the empty one included)
    whose title, when it has one, is a [str] that UTF-8 can encode; or
    anything that tests false. *)
Definition well_formed (data : value) : bool :=
  match data with
  | VDict d =>
      match lookup d (txt "title") with
      | Some (VStr t) => forallb is_scalar t
      | Some _ => false
      | None => true
      end
  | _ => negb (truthy data)
  end.

(** An answer from which the loops build an embed: metadata that tests
    true and is well formed. *)
Definition resolves (o : outcome) : bool :=
  truthy (metadata_of o) && well_formed (metadata_of o).

(** A network that answers every request with the same object. *)
Definition one_song : nat -> request -> outcome :=
  fun _ _ => Responded {| status := 200; content_type := txt "application/json";
                          body := Some (VDict [ (txt "title", VStr (txt "Song"));
                                                (txt "thumbnail_url",
                                                 VStr (txt "https://img/x.jpg")) ]) |}.

(** A network that answers every request with a JSON list. *)
Definition a_list : nat -> request -> outcome :=
  fun _ _ => Responded {| status := 200; content_type := txt "application/json";
                          body := Some (VList [VInt 1]) |}.

(* ===================================================================== *)
(** * The end of the listener: sending the embeds *)
(* ===================================================================== *)

(** What the listener asks Discord to deliver: the reply to the message
    with all the embeds, or one embed sent to the channel. *)
Inductive delivery : Type :=
| Reply (embeds : list embed) (mention_author : bool)
| Send (e : embed).

(** How a delivery ends: delivered, refused with a
    [discord.HTTPException], or another exception, which the listener
    does not catch. *)
Inductive verdict : Type :=
| Delivered
| HTTPException
| OtherException.

(** How the block ends: it returns, or the exception goes on to the
    caller. *)
Inductive ending : Type :=
| Returned
| Raised.

(** The deliveries attempted so far, oldest first, each with its
    verdict. *)
Definition outbox := list (delivery * verdict).

Section Sending.

(** Discord answers the [n]-th delivery of a run. *)
Variable discord : nat -> delivery -> verdict.

Definition attempt (d : delivery) (log : outbox) : verdict * outbox :=
  let v := discord (List.length log) d in (v, log ++ [(d, v)]).

(** The fallback: [for embed in embeds], each [message.channel.send] in a
    [try] of its own that passes over an [HTTPException]. *)
Fixpoint send_each (embeds : list embed) (log : outbox) : ending * outbox :=
  match embeds with
  | [] => (Returned, log)
  | e :: embeds' =>
      match attempt (Send e) log with
      | (OtherException, log') => (Raised, log')
      | (_, log') => send_each embeds' log'
      end
  end.

(** [if embeds:] the reply with all of them and [mention_author=False];
    on an [HTTPException] the fallback. *)
Definition send_embeds (embeds : list embed) (log : outbox) : ending * outbox :=
  match embeds with
  | [] => (Returned, log)
  | _ :: _ =>
      match attempt (Reply embeds false) log with
      | (Delivered, log') => (Returned, log')
      | (HTTPException, log') => send_each embeds log'
      | (OtherException, log') => (Raised, log')
      end
  end.

End Sending.

(** The listener from the message to the deliveries: an exception of the
    loops ends it before anything is sent. *)
Definition on_message_sends (ua : char -> bool) (net : nat -> request -> outcome)
           (discord : nat -> delivery -> verdict) (msg : message) (st : cog) (log : outbox)
  : ending * cog * outbox :=
  match on_message ua net msg st with
  | (Ok embeds, st') =>
      let (r, log') := send_embeds discord embeds log in (r, st', log')
  | (Raise _, st') => (Raised, st', log)
  end.

(** The embeds that reached the channel. *)
Definition delivered_embeds (log : outbox) : list embed :=
  flat_map (fun dv =>
              match dv with
              | (Reply embeds _, Delivered) => embeds
              | (Send e, Delivered) => [e]
              | _ => []
              end) log.

(** The elements of a list at the places a mask marks. *)
Fixpoint select {A : Type} (mask : list bool) (l : list A) : list A :=
  match mask, l with
  | b :: mask', x :: l' => if b then x :: select mask' l' else select mask' l'
  | _, _ => []
  end.

(** An embed with a title and nothing else. *)
Definition plain_embed (t : string) : embed :=
  {| title := txt t; color := 0; description := None; fields := [];
     thumbnail := None; footer := [] |}.

(** Discord accepting everything, refusing everything, and refusing
    whatever carries more than one embed. *)
Definition accepts_all : nat -> delivery -> verdict := fun _ _ => Delivered.
Definition refuses_all : nat -> delivery -> verdict := fun _ _ => HTTPException.
Definition one_at_a_time : nat -> delivery -> verdict :=
  fun _ d =>
    match d with
    | Reply (_ :: _ :: _) _ => HTTPException
    | _ => Delivered
    end.

(* ===================================================================== *)
(** * What the settings commands send back *)
(* ===================================================================== *)

(** [str(limit)] of an [int]. *)
Definition str_of_int (z : Z) : str := txt (NilZero.string_of_int (Z.to_int z)).

(** [ml_toggle] with the text it sends. *)
Definition ml_toggle_sends (g : guild_id) : M str :=
  fun st =>
    let current := enabled (config st g) in
    let state := if negb current then txt "enabled" else txt "disabled" in
    (Ok (txt "MusicLinker is now **" ++ state ++ txt "**."), snd (ml_toggle g st)).

(** [ml_thumbnail] with the text it sends. *)
Definition ml_thumbnail_sends (g : guild_id) : M str :=
  fun st =>
    let current := show_thumbnail (config st g) in
    let state := if negb current then txt "shown" else txt "hidden" in
    (Ok (txt "Thumbnails will now be **" ++ state ++ txt "**."), snd (ml_thumbnail g st)).

(** [ml_maxlinks] with the text it sends: the limit after clamping. *)
Definition ml_maxlinks_sends (g : guild_id) (limit : Z) : M str :=
  fun st =>
    let clamped := Z.max 1 (Z.min 10 limit) in
    (Ok (txt "Max links per message set to **" ++ str_of_int clamped ++ txt "**."),
     snd (ml_maxlinks g limit st)).

(** The embed of the group command.  It sets a title, a colour and three
    fields, nothing else. *)
Record settings_embed : Type := {
  view_title : str;
  view_color : Z;
  view_fields : list field
}.

(** The check mark and the cross, by code point. *)
Definition yes_no (b : bool) : str :=
  if b then [0x2705; 32]%N ++ txt "Yes" else [0x274C; 32]%N ++ txt "No".

Section View.

(** [discord.Color.blurple()], a constant of the library. *)
Variable blurple : Z.

Definition musiclinker_sends (g : guild_id) : M settings_embed :=
  fun st =>
    let enabled := enabled (config st g) in
    let thumb := show_thumbnail (config st g) in
    let limit := max_links_per_message (config st g) in
    (Ok {| view_title := txt "MusicLinker Settings";
           view_color := blurple;
           view_fields :=
             [ {| name := txt "Enabled"; fvalue := yes_no enabled; inline := true |};
               {| name := txt "Thumbnails"; fvalue := yes_no thumb; inline := true |};
               {| name := txt "Max links / message"; fvalue := str_of_int limit;
                  inline := true |} ] |},
     st).

End View.

(** The value of the field of a given name, in the view. *)
Definition view_field (v : result settings_embed) (field_name : string) : option str :=
  match v with
  | Ok e =>
      match filter (fun f => str_eqb (name f) (txt field_name)) (view_fields e) with
      | f :: _ => Some (fvalue f)
      | [] => None
      end
  | Raise _ => None
  end.

(* ===================================================================== *)
(** * Reading a quoted query back *)
(* ===================================================================== *)

(** The first code point of a UTF-8 byte sequence, and the bytes after
    it. *)
Definition utf8_head (bs : list byte) : option (char * list byte) :=
  match bs with
  | [] => None
  | b0 :: r =>
      (if b0 <? 0x80 then Some (b0, r)
       else if b0 <? 0xE0 then
         match r with
         | b1 :: r' => Some ((b0 - 0xC0) * 0x40 + (b1 - 0x80), r')
         | _ => None
         end
       else if b0 <? 0xF0 then
         match r with
         | b1 :: b2 :: r' =>
             Some ((b0 - 0xE0) * 0x1000 + (b1 - 0x80) * 0x40 + (b2 - 0x80), r')
         | _ => None
         end
       else
         match r with
         | b1 :: b2 :: b3 :: r' =>
             Some ((b0 - 0xF0) * 0x40000 + (b1 - 0x80) * 0x1000 + (b2 - 0x80) * 0x40
                   + (b3 - 0x80), r')
         | _ => None
         end)%N
  end.

(** The value of a hexadecimal digit as [quote] writes it. *)
Definition unhex (c : char) : N := (if c <? 0x3A then c - 0x30 else c - 0x37)%N.

(** The first byte of a quoted text, and the text after it; with [plus],
    a [+] stands for a space. *)
Definition unquote_head (plus : bool) (q : str) : option (byte * str) :=
  match q with
  | [] => None
  | c :: r =>
      if (c =? ch "%")%N then
        match r with
        | h1 :: h2 :: r' => Some ((16 * unhex h1 + unhex h2)%N, r')
        | _ => None
        end
      else if plus && (c =? ch "+")%N then Some (ch " ", r)
      else Some (c, r)
  end.

(** A query of unreserved characters and spaces. *)
Definition is_plain (c : char) : bool := always_safe c || (c =? ch " ")%N.

(* ===================================================================== *)
(** * Clean titles *)
(* ===================================================================== *)

(** No two whitespace characters stand next to each other. *)
Fixpoint single_spaced (s : str) : bool :=
  match s with
  | [] => true
  | c :: s' =>
      match s' with
      | d :: _ => negb (is_space c && is_space d)
      | [] => true
      end && single_spaced s'
  end.

(** A character that can stand at either end of a clean title: no
    whitespace and no separator. *)
Definition is_edge (c : char) : bool := negb (is_space c) && negb (is_separator c).

(** A title the cleaner has nothing to do on: no opening bracket, no
    doubled whitespace, and an edge character at both ends. *)
Definition is_tidy (s : str) : bool :=
  forallb (fun c => negb (is_open_bracket c)) s
  && single_spaced s
  && match s with
     | [] => false
     | c :: _ => is_edge c && is_edge (last s c)
     end.

(* ===================================================================== *)
(** * The keywords in a text *)
(* ===================================================================== *)

(** The [i]-th character of [s] lies in a keyword that stands in [s] as a
    whole word: a stretch of [s] around it is a keyword of the list, in
    any case, between two word boundaries. *)
Definition in_keyword (ua : char -> bool) (s : str) (i : nat) : Prop :=
  exists pre m after,
    s = pre ++ m ++ after
    /\ is_keyword m
    /\ word_boundary (is_word ua) (advance None pre) (m ++ after)
    /\ word_boundary (is_word ua) (advance None (pre ++ m)) after
    /\ List.length pre <= i < List.length pre + List.length m.

(** The characters a substitution by the empty string keeps: one flag
    for each character of the text, in the order of the scan. *)
Fixpoint kept_mask (r : regex) (skip : nat) (prev : option char) (s : str) : list bool :=
  match s with
  | [] => []
  | c :: s' =>
      match skip with
      | S n => false :: kept_mask r n (Some c) s'
      | O =>
          match exec r prev s with
          | Some m =>
              match List.length (whole m) with
              | O => true :: kept_mask r 0 (Some c) s'
              | S n => false :: kept_mask r n (Some c) s'
              end
          | None => true :: kept_mask r 0 (Some c) s'
          end
      end
  end.

(** The letters of the keywords: lower-case letters and digits; those
    with a second form that is no ASCII character are i, s and k. *)
Definition is_keyword_letter (l : char) : bool := is_lower_az l || is_digit_09 l.
Definition has_wide_form (l : char) : bool :=
  ((l =? 0x69) || (l =? 0x73) || (l =? 0x6B))%N.

(** Reading a word of a keyword at the start of a text, in any case: the
    characters read and the rest of the text. *)
Fixpoint read_word (word s : str) : option (str * str) :=
  match word with
  | [] => Some ([], s)
  | l :: word' =>
      match s with
      | c :: s' =>
          if ci_char l c then
            match read_word word' s' with
            | Some (m, rest) => Some (c :: m, rest)
            | None => None
            end
          else None
      | [] => None
      end
  end.

(** Reading the words of a keyword, with the whitespace that stands
    between one word and the next. *)
Fixpoint read_words (words : list str) (s : str) : option (str * str) :=
  match words with
  | [] => Some ([], s)
  | w :: words' =>
      match read_word w s with
      | Some (m, rest) =>
          match words' with
          | [] => Some (m, rest)
          | _ :: _ =>
              match read_words words' (skip_while is_space rest) with
              | Some (m', rest') => Some (m ++ take_while is_space rest ++ m', rest')
              | None => None
              end
          end
      | None => None
      end
  end.

(** Words that begin with a letter. *)
Definition lettered (words : list string) : bool :=
  forallb (fun w => match txt w with l :: _ => is_keyword_letter l | [] => false end) words.

(** What the rest of a pattern gets from a form that was read. *)
Definition after_reading {R : Type} (words : list str) (prev : option char) (s : str)
           (cap : option str) (k : cont R) : option R :=
  match read_words words s with
  | Some (m, r) => k (advance prev m) r cap
  | None => None
  end.

(** The keywords as lists of words, in the order in which the pattern
    tries them: with the optional part before without it. *)
Definition keyword_tries : list (list string) :=
  [ ["official"; "music"; "video"]; ["official"; "video"]; ["lyric"; "video"];
    ["official"; "audio"]; ["audio"]; ["visualizer"]; ["performance"; "video"];
    ["clip"; "officiel"]; ["remastered"]; ["remaster"]; ["hd"]; ["hq"]; ["4k"]; ["mv"] ]%string.

(** The first of these that can be read at the start of [s] and ends at a
    word boundary. *)
Fixpoint first_keyword (w : char -> bool) (prev : option char) (forms : list (list string))
         (s : str) : option str :=
  match forms with
  | [] => None
  | words :: forms' =>
      match read_words (List.map txt words) s with
      | Some (m, rest) =>
          if xorb (at_word w (advance prev m)) (at_word w (hd_error rest)) then Some m
          else first_keyword w prev forms' s
      | None => first_keyword w prev forms' s
      end
  end.

(** The keyword that stands at the start of [s], after the character
    [prev], between two word boundaries. *)
Definition keyword_at (w : char -> bool) (prev : option char) (s : str) : option str :=
  if xorb (at_word w prev) (at_word w (hd_error s)) then first_keyword w prev keyword_tries s
  else None.

(** A keyword that stands at the start of [s] as a whole word, after the
    character [prev], has at most [n] characters. *)
Definition short_keywords (ua : char -> bool) (prev : option char) (s : str) (n : nat) : Prop :=
  forall m after,
    s = m ++ after -> is_keyword m ->
    word_boundary (is_word ua) prev s ->
    List.length m <= n.

(** From every place in the stretch [y] of the text [y ++ rest], a
    keyword that stands there as a whole word ends within the stretch,
    or at most [extra] characters after it. *)
Fixpoint covers (ua : char -> bool) (prev : option char) (y rest : str) (extra : nat) : Prop :=
  match y with
  | [] => True
  | c :: y' =>
      short_keywords ua prev (y ++ rest) (List.length y + extra)
      /\ covers ua (Some c) y' rest extra
  end.

(** The scan has [skip] characters of a keyword still to pass, and what
    is known of them. *)
Definition passing (ua : char -> bool) (skip : nat) (prev : option char) (s : str) : Prop :=
  exists y rest, s = y ++ rest /\ List.length y = skip /\ covers ua prev y rest 0.

(* ===================================================================== *)
(** * Character classes *)
(* ===================================================================== *)

Lemma space_cases : forall c, is_space c = false <->
  ~ ((9 <= c <= 13) \/ (28 <= c <= 32) \/ c = 0x85 \/ c = 0xA0 \/ c = 0x1680
     \/ (0x2000 <= c <= 0x200A) \/ c = 0x2028 \/ c = 0x2029 \/ c = 0x202F
     \/ c = 0x205F \/ c = 0x3000)%N.
Proof.
  intro c. rewrite <- not_true_iff_false. unfold is_space, in_range.
  rewrite !orb_true_iff, !andb_true_iff, !N.leb_le, !N.eqb_eq. tauto.
Qed.

Lemma alnum_cases : forall c, is_alnum_ascii c = true <->
  ((0x61 <= c <= 0x7A) \/ (0x41 <= c <= 0x5A) \/ (0x30 <= c <= 0x39))%N.
Proof.
  intro c. unfold is_alnum_ascii, is_lower_az, is_upper_AZ, is_digit_09, in_range.
  rewrite !orb_true_iff, !andb_true_iff, !N.leb_le. tauto.
Qed.

Lemma alnum_not_space : forall c, is_alnum_ascii c = true -> is_space c = false.
Proof. intros c H. apply space_cases. apply alnum_cases in H. lia. Qed.

Lemma lower_not_space : forall c, is_lower_az c = true -> is_space c = false.
Proof.
  intros c H. apply alnum_not_space. unfold is_alnum_ascii. rewrite H. reflexivity.
Qed.

Lemma video_id_char_cases : forall c, is_video_id_char c = true <->
  (is_alnum_ascii c = true \/ c = 0x5F \/ c = 0x2D)%N.
Proof.
  intro c. unfold is_video_id_char. rewrite !orb_true_iff, !N.eqb_eq. tauto.
Qed.

Lemma video_id_char_not_space : forall c, is_video_id_char c = true -> is_space c = false.
Proof.
  intros c H. apply video_id_char_cases in H. destruct H as [H | [-> | ->]];
    [now apply alnum_not_space | reflexivity | reflexivity].
Qed.

Lemma non_space_iff : forall c, non_space c = true <-> is_space c = false.
Proof. intro c. unfold non_space. apply negb_true_iff. Qed.

Lemma is_char_iff : forall a c, is_char a c = true <-> c = a.
Proof. intros a c. unfold is_char. rewrite N.eqb_eq. split; congruence. Qed.

(** ** Stripping *)

Lemma lstrip_Forall : forall (P : char -> Prop) s, Forall P s -> Forall P (lstrip s).
Proof.
  intros P s H. induction H as [|c s Hc Hs IH]; simpl; [constructor|].
  destruct (is_space c); [exact IH | now constructor].
Qed.

Lemma strip_Forall : forall (P : char -> Prop) s, Forall P s -> Forall P (strip s).
Proof.
  intros P s H. unfold strip, rstrip.
  apply Forall_rev, lstrip_Forall, Forall_rev, lstrip_Forall, H.
Qed.

Lemma lstrip_nil_iff : forall s, lstrip s = [] <-> forallb is_space s = true.
Proof.
  induction s as [|c s IH]; simpl; [tauto|].
  destruct (is_space c); simpl; [exact IH | split; discriminate].
Qed.

Lemma lstrip_head : forall s c t, lstrip s = c :: t -> is_space c = false.
Proof.
  induction s as [|d s IH]; intros c t H; simpl in H; [discriminate|].
  destruct (is_space d) eqn:Hd; [now apply (IH c t) | congruence].
Qed.

Lemma forallb_rev : forall (p : char -> bool) s, forallb p (rev s) = forallb p s.
Proof.
  intros p s. induction s as [|c s IH]; simpl; [reflexivity|].
  rewrite forallb_app, IH. simpl. rewrite andb_true_r. apply andb_comm.
Qed.

(** [strip] leaves nothing exactly of the texts made of whitespace. *)
Lemma strip_nil_iff : forall s, strip s = [] <-> forallb is_space s = true.
Proof.
  intro s. unfold strip, rstrip. split.
  - intro H. destruct (lstrip s) as [|c t] eqn:E.
    + now apply lstrip_nil_iff.
    + exfalso. apply (f_equal (@rev char)) in H. rewrite rev_involutive in H.
      change (rev []) with (@nil char) in H.
      apply lstrip_nil_iff in H. rewrite forallb_rev in H.
      simpl in H. rewrite (lstrip_head _ _ _ E) in H. discriminate.
  - intro H. apply lstrip_nil_iff in H. rewrite H. reflexivity.
Qed.

(* ===================================================================== *)
(** * The matcher *)
(* ===================================================================== *)

Lemma advance_app : forall m1 m2 prev,
  advance prev (m1 ++ m2) = advance (advance prev m1) m2.
Proof. intros. unfold advance. apply fold_left_app. Qed.

Lemma firstn_consumed : forall (m s' : str),
  firstn (List.length (m ++ s') - List.length s') (m ++ s') = m.
Proof.
  intros. rewrite length_app.
  replace (List.length m + List.length s' - List.length s') with (List.length m + 0) by lia.
  rewrite firstn_app_2. simpl. apply app_nil_r.
Qed.

Lemma firstn_split : forall (s m s' : str),
  s = m ++ s' -> firstn (List.length s - List.length s') s = m.
Proof. intros s m s' ->. apply firstn_consumed. Qed.

Section MatcherFacts.
Variable R : Type.
Implicit Types (k : cont R) (s m : str) (p : char -> bool).

(** A literal passes over itself. *)
Lemma run_Lit : forall w prev s cap k,
  run (Lit w) prev (w ++ s) cap k = k (advance prev w) s cap.
Proof.
  induction w as [|c w IH]; intros; simpl.
  - reflexivity.
  - unfold is_char. rewrite N.eqb_refl. apply IH.
Qed.

(** A counted repetition passes over [n] characters of the class. *)
Lemma run_Rep : forall p w prev s cap k,
  forallb p w = true ->
  run (Rep (List.length w) p) prev (w ++ s) cap k = k (advance prev w) s cap.
Proof.
  induction w as [|c w IH]; intros prev s cap k H; simpl in *.
  - reflexivity.
  - apply andb_prop in H. destruct H as [Hc Hw]. rewrite Hc. now apply IH.
Qed.

(** The greedy star hands the longest run to a continuation that takes
    it. *)
Lemma star_greedy_all : forall p w prev s cap k x,
  forallb p w = true ->
  match s with [] => True | c :: _ => p c = false end ->
  k (advance prev w) s cap = Some x ->
  star_greedy p prev (w ++ s) cap k = Some x.
Proof.
  induction w as [|c w IH]; intros prev s cap k x Hw Hs Hk; simpl in *.
  - destruct s as [|c s']; [assumption|]. simpl. rewrite Hs. assumption.
  - apply andb_prop in Hw. destruct Hw as [Hc Hw]. rewrite Hc.
    rewrite (IH (Some c) s cap k x Hw Hs Hk). reflexivity.
Qed.

(** The greedy star fails when the continuation refuses every position
    of the run. *)
Lemma star_greedy_none : forall p u prev s cap k,
  forallb p u = true ->
  match s with [] => True | c :: _ => p c = false end ->
  (forall a b, u = a ++ b -> k (advance prev a) (b ++ s) cap = None) ->
  star_greedy p prev (u ++ s) cap k = None.
Proof.
  induction u as [|e u IHu]; intros prev s cap k Hu Hs Hnone.
  - simpl. specialize (Hnone [] [] eq_refl). simpl in Hnone.
    destruct s as [|f s']; [assumption|]. simpl. rewrite Hs. assumption.
  - simpl in Hu. apply andb_prop in Hu. destruct Hu as [He Hu].
    simpl. rewrite He. rewrite (IHu (Some e) s cap k Hu Hs).
    + apply (Hnone [] (e :: u) eq_refl).
    + intros a b Hab. subst u. apply (Hnone (e :: a) b eq_refl).
Qed.

(** The greedy star gives characters back, one at a time, while the
    continuation refuses; the first position it accepts wins. *)
Lemma star_greedy_back : forall p w1 w2 prev s cap k x,
  forallb p (w1 ++ w2) = true ->
  match s with [] => True | c :: _ => p c = false end ->
  (forall a b, w2 = a ++ b -> a <> [] ->
               k (advance prev (w1 ++ a)) (b ++ s) cap = None) ->
  k (advance prev w1) (w2 ++ s) cap = Some x ->
  star_greedy p prev (w1 ++ w2 ++ s) cap k = Some x.
Proof.
  induction w1 as [|c w1 IH]; intros w2 prev s cap k x Hw Hs Hno Hk.
  - simpl in *. destruct w2 as [|c w2].
    + simpl in *. destruct s as [|c s']; [assumption|]. simpl. rewrite Hs. assumption.
    + simpl in Hw. apply andb_prop in Hw. destruct Hw as [Hc Hw].
      simpl. rewrite Hc. rewrite star_greedy_none; [exact Hk | exact Hw | exact Hs |].
      intros a b Hab. subst w2. apply (Hno (c :: a) b eq_refl). discriminate.
  - simpl in Hw. apply andb_prop in Hw. destruct Hw as [Hc Hw].
    simpl. rewrite Hc.
    rewrite (IH w2 (Some c) s cap k x Hw Hs); [reflexivity | | exact Hk].
    intros a b Hab Ha. apply (Hno a b Hab Ha).
Qed.

Lemma run_Cat : forall r1 r2 prev s cap k,
  run (Cat r1 r2) prev s cap k
  = run r1 prev s cap (fun prev' s' cap' => run r2 prev' s' cap' k).
Proof. reflexivity. Qed.

Lemma run_Char_cons : forall p c prev s cap k,
  run (Char p) prev (c :: s) cap k = if p c then k (Some c) s cap else None.
Proof. reflexivity. Qed.

Lemma run_Char_nil : forall p prev cap k, run (Char p) prev [] cap k = None.
Proof. reflexivity. Qed.

Lemma run_Bol : forall prev s cap k,
  run Bol prev s cap k = match prev with None => k prev s cap | Some _ => None end.
Proof. reflexivity. Qed.

Lemma run_Char : forall p c prev s cap k,
  p c = true -> run (Char p) prev (c :: s) cap k = k (Some c) s cap.
Proof. intros p c prev s cap k H. simpl. rewrite H. reflexivity. Qed.

Lemma run_Alt_take : forall r1 r2 prev s cap k x,
  run r1 prev s cap k = Some x -> run (Alt r1 r2) prev s cap k = Some x.
Proof. intros r1 r2 prev s cap k x H. simpl. rewrite H. reflexivity. Qed.

Lemma run_Alt_skip : forall r1 r2 prev s cap k,
  run r1 prev s cap k = None -> run (Alt r1 r2) prev s cap k = run r2 prev s cap k.
Proof. intros r1 r2 prev s cap k H. simpl. rewrite H. reflexivity. Qed.

Lemma run_Star_greedy : forall p prev s cap k,
  run (Star true p) prev s cap k = star_greedy p prev s cap k.
Proof. reflexivity. Qed.

Lemma run_Cat_Lit : forall w r prev s cap k,
  run (Cat (Lit w) r) prev (w ++ s) cap k = run r (advance prev w) s cap k.
Proof. intros. simpl. apply run_Lit. Qed.

(** An optional part is taken when the rest then matches, and left out
    when it does not match at all. *)
Lemma run_Opt_take : forall r prev s cap k x,
  run r prev s cap k = Some x -> run (Opt r) prev s cap k = Some x.
Proof. intros r prev s cap k x H. simpl. rewrite H. reflexivity. Qed.

Lemma run_Opt_skip : forall r prev s cap k,
  run r prev s cap k = None -> run (Opt r) prev s cap k = k prev s cap.
Proof. intros r prev s cap k H. simpl. rewrite H. reflexivity. Qed.

(** The group over a counted repetition captures the characters it
    passes. *)
Lemma run_Group_Rep : forall p w prev s cap k,
  forallb p w = true ->
  run (Group (Rep (List.length w) p)) prev (w ++ s) cap k = k (advance prev w) s (Some w).
Proof.
  intros p w prev s cap k H. simpl. rewrite run_Rep by assumption.
  rewrite firstn_consumed. reflexivity.
Qed.

End MatcherFacts.

Section MatcherSound.
Variable R : Type.
Variable Q : char -> Prop.
Implicit Types (k : cont R) (s m : str) (p : char -> bool).

Lemma star_greedy_sound : forall p s prev cap k x,
  (forall c, p c = true -> Q c) ->
  star_greedy p prev s cap k = Some x ->
  exists m s', s = m ++ s' /\ Forall Q m /\ k (advance prev m) s' cap = Some x.
Proof.
  induction s as [|c s IH]; intros prev cap k x HQ H; simpl in H.
  - exists [], []. auto.
  - destruct (p c) eqn:Hc.
    + destruct (star_greedy p (Some c) s cap k) eqn:Hrec.
      * inversion H; subst. destruct (IH _ _ _ _ HQ Hrec) as (m & s' & -> & Hm & Hk).
        exists (c :: m), s'. auto.
      * exists [], (c :: s). auto.
    + exists [], (c :: s). auto.
Qed.

Lemma star_lazy_sound : forall p s prev cap k x,
  (forall c, p c = true -> Q c) ->
  star_lazy p prev s cap k = Some x ->
  exists m s', s = m ++ s' /\ Forall Q m /\ k (advance prev m) s' cap = Some x.
Proof.
  induction s as [|c s IH]; intros prev cap k x HQ H; simpl in H.
  - destruct (k prev [] cap) eqn:Hk; [|discriminate].
    exists [], []. inversion H; subst. auto.
  - destruct (k prev (c :: s) cap) eqn:Hk.
    + inversion H; subst. exists [], (c :: s). auto.
    + destruct (p c) eqn:Hc; [|discriminate].
      destruct (IH _ _ _ _ HQ H) as (m & s' & -> & Hm & Hk').
      exists (c :: m), s'. auto.
Qed.

End MatcherSound.

(** Whatever the matcher returns went through its continuation, after a
    prefix of the text made of characters the classes accept and at least
    [min_len] long. *)
Lemma run_sound : forall (R : Type) (Q : char -> Prop) r prev s cap (k : cont R) x,
  classes_in Q r ->
  run r prev s cap k = Some x ->
  exists m s' cap', s = m ++ s' /\ Forall Q m /\ min_len r <= List.length m
                    /\ k (advance prev m) s' cap' = Some x.
Proof.
  intros R Q r. induction r as [|p|r1 IH1 r2 IH2|r1 IH1 r2 IH2|g p|r1 IH1| | |w];
    intros prev s cap k x HQ H; simpl in *.
  - exists [], s, cap. repeat split; auto.
  - destruct s as [|c s]; [discriminate|]. destruct (p c) eqn:Hc; [|discriminate].
    exists [c], s, cap. repeat split; auto.
  - destruct HQ as [HQ1 HQ2].
    destruct (IH1 _ _ _ _ _ HQ1 H) as (m1 & s1 & cap1 & -> & Hm1 & Hl1 & H1).
    destruct (IH2 _ _ _ _ _ HQ2 H1) as (m2 & s2 & cap2 & -> & Hm2 & Hl2 & H2).
    exists (m1 ++ m2), s2, cap2. rewrite advance_app, length_app, <- app_assoc.
    repeat split; auto using Forall_app. apply Forall_app; auto. lia.
  - destruct HQ as [HQ1 HQ2].
    destruct (run r1 prev s cap k) eqn:H1.
    + destruct (IH1 _ _ _ _ _ HQ1 H1) as (m & s' & cap' & -> & Hm & Hl & Hk).
      inversion H; subst. exists m, s', cap'. repeat split; auto. lia.
    + destruct (IH2 _ _ _ _ _ HQ2 H) as (m & s' & cap' & -> & Hm & Hl & Hk).
      exists m, s', cap'. repeat split; auto. lia.
  - destruct g.
    + destruct (star_greedy_sound R Q _ _ _ _ _ _ HQ H) as (m & s' & -> & Hm & Hk).
      exists m, s', cap. repeat split; auto. lia.
    + destruct (star_lazy_sound R Q _ _ _ _ _ _ HQ H) as (m & s' & -> & Hm & Hk).
      exists m, s', cap. repeat split; auto. lia.
  - destruct (IH1 _ _ _ _ _ HQ H) as (m & s' & cap' & -> & Hm & Hl & Hk).
    eauto 10.
  - destruct prev; [discriminate|]. exists [], s, cap. repeat split; auto.
  - exists [], s, cap. repeat split; auto.
    destruct s as [|c [|d s]]; try discriminate; auto.
    destruct (c =? newline)%N; [auto | discriminate].
  - destruct (xorb _ _); [|discriminate]. exists [], s, cap. repeat split; auto.
Qed.

(** A match is a prefix of the text at the cursor. *)
Lemma exec_sound : forall (Q : char -> Prop) r prev s mo,
  classes_in Q r ->
  exec r prev s = Some mo ->
  exists s', s = whole mo ++ s' /\ Forall Q (whole mo) /\ min_len r <= List.length (whole mo).
Proof.
  intros Q r prev s mo HQ H. unfold exec in H.
  destruct (run_sound _ Q _ _ _ _ _ _ HQ H) as (m & s' & cap' & -> & Hm & Hl & Hk).
  inversion Hk; subst; clear Hk. simpl. rewrite firstn_consumed. eauto.
Qed.

Lemma classes_in_True : forall r, classes_in (fun _ => True) r.
Proof. induction r; simpl; auto. Qed.

(** A pattern that needs a character never matches the empty string. *)
Lemma exec_nonempty : forall r prev s mo,
  0 < min_len r -> exec r prev s = Some mo -> whole mo <> [].
Proof.
  intros r prev s mo Hmin H.
  destruct (exec_sound (fun _ => True) _ _ _ _ (classes_in_True r) H) as (s' & _ & _ & Hl).
  destruct (whole mo); simpl in *; [lia | discriminate].
Qed.

(** So it is with every pattern of the cog. *)
Lemma patterns_need_a_character : forall ua,
  0 < min_len SPOTIFY_RE /\ 0 < min_len YOUTUBE_RE /\ 0 < min_len YT_TITLE_NOISE
  /\ 0 < min_len (YT_TITLE_KEYWORDS ua) /\ 0 < min_len TRAILING_SEPARATORS
  /\ 0 < min_len LEADING_SEPARATORS /\ 0 < min_len WHITESPACE_RUN.
Proof. intro ua. cbn. repeat split; lia. Qed.

(* ===================================================================== *)
(** * The scan *)
(* ===================================================================== *)

Lemma hits_app : forall ps qs, hits (ps ++ qs) = hits ps ++ hits qs.
Proof.
  induction ps as [|[c|m] ps IH]; intros; simpl; rewrite ?IH; reflexivity.
Qed.

(** The characters of a match are passed without a new attempt. *)
Lemma scan_skip : forall r m rest prev,
  scan r (List.length m) prev (m ++ rest) = scan r 0 (advance prev m) rest.
Proof.
  induction m as [|c m IH]; intros; simpl.
  - destruct rest; reflexivity.
  - apply IH.
Qed.

Lemma scan_hit : forall r prev m rest mo,
  exec r prev (m ++ rest) = Some mo -> whole mo = m -> m <> [] ->
  scan r 0 prev (m ++ rest) = Hit mo :: scan r 0 (advance prev m) rest.
Proof.
  intros r prev m rest mo He Hw Hm. destruct m as [|c m]; [congruence|].
  simpl. simpl in He. rewrite He, Hw. simpl. f_equal. apply scan_skip.
Qed.

Lemma scan_miss : forall r prev c s,
  exec r prev (c :: s) = None ->
  scan r 0 prev (c :: s) = Plain c :: scan r 0 (Some c) s.
Proof. intros r prev c s He. simpl. rewrite He. reflexivity. Qed.

(** A pattern whose classes take no whitespace cannot match across a
    whitespace character: the scan is at rest right after it. *)
Lemma scan_across_space : forall r,
  classes_in (fun c => is_space c = false) r -> 0 < min_len r ->
  forall pre c rest skip prev,
    is_space c = true ->
    Forall (fun c => is_space c = false) (firstn skip (pre ++ c :: rest)) ->
    exists ps, scan r skip prev (pre ++ c :: rest) = ps ++ scan r 0 (Some c) rest.
Proof.
  intros r HQ Hmin. induction pre as [|d pre IH]; intros c rest skip prev Hc Hinv.
  - destruct skip as [|n].
    + destruct (exec r prev (c :: rest)) as [mo|] eqn:He.
      * exfalso. destruct (exec_sound _ _ _ _ _ HQ He) as (s' & Hs & Hall & Hl).
        destruct (whole mo) as [|e m]; simpl in *; [lia|].
        inversion Hs; subst. inversion Hall; subst. congruence.
      * exists [Plain c]. simpl ([] ++ _). rewrite (scan_miss _ _ _ _ He). reflexivity.
    + exfalso. simpl in Hinv. inversion Hinv; subst. congruence.
  - destruct skip as [|n].
    + simpl ((d :: pre) ++ _).
      destruct (exec r prev (d :: pre ++ c :: rest)) as [mo|] eqn:He.
      * destruct (exec_sound _ _ _ _ _ HQ He) as (s' & Hs & Hall & Hl).
        destruct (whole mo) as [|e m] eqn:Hw; [simpl in Hl; lia|].
        injection Hs as Hd Hrest. apply Forall_inv_tail in Hall.
        destruct (IH c rest (List.length m) (Some d) Hc) as (ps & Hps).
        { rewrite Hrest. rewrite firstn_app, Nat.sub_diag, firstn_all. simpl.
          rewrite app_nil_r. assumption. }
        exists (Hit mo :: ps). cbn [scan]. rewrite He, Hw. cbn [List.length].
        rewrite Hps. reflexivity.
      * destruct (IH c rest 0 (Some d) Hc) as (ps & Hps); [constructor|].
        exists (Plain d :: ps). cbn [scan]. rewrite He. rewrite Hps. reflexivity.
    + simpl in Hinv. apply Forall_inv_tail in Hinv.
      destruct (IH c rest n (Some d) Hc Hinv) as (ps & Hps).
      exists ps. simpl. exact Hps.
Qed.

Lemma scan_nil : forall r prev, 0 < min_len r -> scan r 0 prev [] = [].
Proof.
  intros r prev Hmin. simpl. destruct (exec r prev []) as [mo|] eqn:He; [|reflexivity].
  exfalso. apply (exec_nonempty _ _ _ _ Hmin He).
  destruct (exec_sound _ _ _ _ _ (classes_in_True r) He) as (s' & Hs & _).
  symmetry in Hs. now apply app_eq_nil in Hs.
Qed.

(** A substitution writes characters of the text and of the replacement,
    no others. *)
Lemma replace_scan_Forall : forall (P : char -> Prop) r repl s skip prev,
  Forall P s -> Forall P repl -> Forall P (replace repl (scan r skip prev s)).
Proof.
  intros P r repl s. induction s as [|c s IH]; intros skip prev Hs Hrepl.
  - destruct skip; simpl; [|constructor].
    destruct (exec r prev []); simpl; [|constructor].
    rewrite app_nil_r. exact Hrepl.
  - apply Forall_inv in Hs as Hc. apply Forall_inv_tail in Hs.
    destruct skip as [|n]; cbn [scan].
    + destruct (exec r prev (c :: s)) as [mo|]; cbn [replace].
      * apply Forall_app. split; [exact Hrepl|].
        destruct (List.length (whole mo)); cbn [replace]; auto.
      * constructor; auto.
    + auto.
Qed.

Lemma sub_Forall : forall (P : char -> Prop) r repl s,
  Forall P s -> Forall P repl -> Forall P (sub r repl s).
Proof. intros. unfold sub. now apply replace_scan_Forall. Qed.

(** ** Runs of a class *)

Lemma take_skip_while : forall p s, take_while p s ++ skip_while p s = s.
Proof.
  intros p s. induction s as [|c s IH]; simpl; [reflexivity|].
  destruct (p c); simpl; [rewrite IH|]; reflexivity.
Qed.

Lemma take_while_all : forall p s, forallb p (take_while p s) = true.
Proof.
  intros p s. induction s as [|c s IH]; simpl; [reflexivity|].
  destruct (p c) eqn:E; simpl; [rewrite E, IH|]; reflexivity.
Qed.

Lemma skip_while_head : forall p s,
  match skip_while p s with [] => True | c :: _ => p c = false end.
Proof.
  intros p s. induction s as [|c s IH]; simpl; [exact I|].
  destruct (p c) eqn:E; [exact IH | exact E].
Qed.

Section Greedy.
Variable R : Type.
Implicit Types (k : cont R) (s : str) (p : char -> bool).

(** The greedy star takes the whole run when the continuation accepts
    there. *)
Lemma star_greedy_run : forall p s prev cap k x,
  k (advance prev (take_while p s)) (skip_while p s) cap = Some x ->
  star_greedy p prev s cap k = Some x.
Proof.
  intros p s prev cap k x H.
  rewrite <- (take_skip_while p s) at 1.
  apply star_greedy_all; [apply take_while_all | apply skip_while_head | exact H].
Qed.

(** It has no other choice when the continuation refuses every text that
    starts with a character of the class. *)
Lemma star_greedy_commit : forall p s prev cap k,
  (forall prev' c s', p c = true -> k prev' (c :: s') cap = None) ->
  star_greedy p prev s cap k = k (advance prev (take_while p s)) (skip_while p s) cap.
Proof.
  intros p s. induction s as [|c s IH]; intros prev cap k Hk; simpl.
  - reflexivity.
  - destruct (p c) eqn:E; [|reflexivity].
    rewrite (IH (Some c) cap k Hk). cbn [advance fold_left].
    fold (advance (Some c) (take_while p s)).
    destruct (k (advance (Some c) (take_while p s)) (skip_while p s) cap); [reflexivity|].
    now apply Hk.
Qed.

End Greedy.

(** ** The matcher and the language of a pattern *)

(** Whatever the matcher returns went through its continuation after a
    prefix of the text that the pattern denotes. *)
Lemma run_denotes : forall (R : Type) r prev s cap (k : cont R) x,
  run r prev s cap k = Some x ->
  exists m s' cap', s = m ++ s' /\ denotes r prev m s'
                    /\ k (advance prev m) s' cap' = Some x.
Proof.
  intros R r. induction r as [|p|r1 IH1 r2 IH2|r1 IH1 r2 IH2|g p|r1 IH1| | |w];
    intros prev s cap k x H; simpl in H.
  - exists [], s, cap. simpl. auto.
  - destruct s as [|c s]; [discriminate|]. destruct (p c) eqn:Hc; [|discriminate].
    exists [c], s, cap. simpl. eauto.
  - destruct (IH1 _ _ _ _ _ H) as (m1 & s1 & cap1 & -> & Hd1 & H1).
    destruct (IH2 _ _ _ _ _ H1) as (m2 & s2 & cap2 & -> & Hd2 & H2).
    exists (m1 ++ m2), s2, cap2. rewrite advance_app, <- app_assoc.
    split; [reflexivity|]. split; [|exact H2]. simpl. eauto.
  - destruct (run r1 prev s cap k) eqn:H1.
    + destruct (IH1 _ _ _ _ _ H1) as (m & s' & cap' & -> & Hd & Hk).
      inversion H; subst. exists m, s', cap'. simpl. auto.
    + destruct (IH2 _ _ _ _ _ H) as (m & s' & cap' & -> & Hd & Hk).
      exists m, s', cap'. simpl. auto.
  - destruct g.
    + destruct (star_greedy_sound R (fun c => p c = true) p s prev cap k x
                  (fun c Hc => Hc) H) as (m & s' & -> & Hm & Hk).
      exists m, s', cap. simpl. rewrite forallb_forall. rewrite Forall_forall in Hm. auto.
    + destruct (star_lazy_sound R (fun c => p c = true) p s prev cap k x
                  (fun c Hc => Hc) H) as (m & s' & -> & Hm & Hk).
      exists m, s', cap. simpl. rewrite forallb_forall. rewrite Forall_forall in Hm. auto.
  - destruct (IH1 _ _ _ _ _ H) as (m & s' & cap' & -> & Hd & Hk).
    exists m, s'. simpl. eauto.
  - destruct prev; [discriminate|]. exists [], s, cap. simpl. auto.
  - exists [], s, cap. simpl. split; [reflexivity|]. split; [|
      destruct s as [|c [|d s]]; try discriminate; auto;
      destruct (c =? newline)%N; [auto | discriminate]].
    split; [reflexivity|].
    destruct s as [|c [|d s]]; try discriminate; auto.
    destruct (c =? newline)%N eqn:E; [|discriminate].
    apply N.eqb_eq in E. subst. auto.
  - unfold word_boundary. destruct (xorb _ _) eqn:E; [|discriminate].
    exists [], s, cap. simpl. auto.
Qed.

(** A match is a prefix of the text at the cursor that the pattern
    denotes there. *)
Lemma exec_denotes : forall r prev s mo,
  exec r prev s = Some mo ->
  exists s', s = whole mo ++ s' /\ denotes r prev (whole mo) s'.
Proof.
  intros r prev s mo H. unfold exec in H.
  destruct (run_denotes _ _ _ _ _ _ _ H) as (m & s' & cap' & -> & Hd & Hk).
  injection Hk as <-. simpl. rewrite firstn_consumed. eauto.
Qed.

(** Every match of a scan was found by an attempt somewhere in the
    text. *)
Lemma scan_hits_exec : forall r s skip prev mo,
  In (Hit mo) (scan r skip prev s) ->
  exists pre post, s = pre ++ post /\ exec r (advance prev pre) post = Some mo.
Proof.
  intros r s. induction s as [|c s IH]; intros skip prev mo Hin.
  - destruct skip; simpl in Hin; [|contradiction].
    destruct (exec r prev []) eqn:He; simpl in Hin; [|contradiction].
    destruct Hin as [[= ->]|[]]. exists [], []. auto.
  - destruct skip as [|n]; cbn [scan] in Hin.
    + destruct (exec r prev (c :: s)) as [m|] eqn:He.
      * destruct Hin as [[= ->]|Hin]; [exists [], (c :: s); auto|].
        assert (Hin' : exists n', In (Hit mo) (scan r n' (Some c) s)).
        { destruct (List.length (whole m)); [|eauto].
          destruct Hin as [Hin|Hin]; [discriminate | eauto]. }
        destruct Hin' as [n' Hin'].
        destruct (IH _ _ _ Hin') as (pre & post & -> & Hex).
        exists (c :: pre), post. auto.
      * destruct Hin as [Hin|Hin]; [discriminate|].
        destruct (IH _ _ _ Hin) as (pre & post & -> & Hex).
        exists (c :: pre), post. auto.
    + destruct (IH _ _ _ Hin) as (pre & post & -> & Hex).
      exists (c :: pre), post. auto.
Qed.

(** The pieces of a scan, in order, make up the text: a substitution
    writes the text again with the replacement in the place of each
    match. *)
Lemma scan_text : forall r, 0 < min_len r ->
  forall s skip prev, flat_map piece_text (scan r skip prev s) = skipn skip s.
Proof.
  intros r Hmin. induction s as [|c s IH]; intros skip prev.
  - destruct skip; [|reflexivity]. rewrite scan_nil by exact Hmin. reflexivity.
  - destruct skip as [|n]; cbn [scan skipn]; [|apply IH].
    destruct (exec r prev (c :: s)) as [mo|] eqn:He.
    + destruct (exec_sound _ _ _ _ _ (classes_in_True r) He) as (s' & Hs & _ & Hl).
      cbn [flat_map piece_text].
      destruct (whole mo) as [|d m] eqn:Hw; [simpl in Hl; lia|].
      injection Hs as <- ->. cbn [List.length]. rewrite IH.
      rewrite skipn_app, Nat.sub_diag, skipn_all. reflexivity.
    + cbn [flat_map piece_text app]. rewrite IH. reflexivity.
Qed.

(* ===================================================================== *)
(** * Link extraction *)
(* ===================================================================== *)

(** A class test of a pattern, read as a fact about the character. *)
Ltac class_fact c H :=
  first
    [ apply is_char_iff in H; subst c; reflexivity
    | apply non_space_iff in H; exact H
    | apply alnum_not_space; exact H
    | apply lower_not_space; exact H
    | apply video_id_char_not_space; exact H ].

Ltac no_space_classes :=
  cbn -[is_space is_char is_lower_az is_alnum_ascii is_video_id_char non_space];
  repeat match goal with |- _ /\ _ => split end;
  try exact I;
  let c := fresh "c" in let H := fresh "H" in intros c H; class_fact c H.

Lemma spotify_classes : classes_in (fun c => is_space c = false) SPOTIFY_RE.
Proof. no_space_classes. Qed.

Lemma youtube_classes : classes_in (fun c => is_space c = false) YOUTUBE_RE.
Proof. no_space_classes. Qed.

(** The Spotify pattern on a track link: the group takes the 22
    characters, the tail of the pattern whatever follows up to the next
    whitespace. *)
Lemma run_spotify : forall (R : Type) https intl id trail post prev cap (k : cont R) x,
  match intl with
  | Some (a, b) => is_lower_az a = true /\ is_lower_az b = true
  | None => True
  end ->
  List.length id = 22 -> forallb is_alnum_ascii id = true ->
  forallb non_space trail = true -> before_blank post ->
  (forall prev', k prev' post (Some id) = Some x) ->
  run SPOTIFY_RE prev (spotify_track_url https intl id ++ trail ++ post) cap k = Some x.
Proof.
  intros R https intl id trail post prev cap k x Hintl Hlen Hid Htrail Hpost Hk.
  assert (Htail : forall prev' cap',
    run (Cat (Lit (txt "track/")) (Cat (Group (Rep 22 is_alnum_ascii)) (Star true non_space)))
        prev' (txt "track/" ++ id ++ trail ++ post) cap' k = Some x).
  { intros prev' cap'. rewrite run_Cat_Lit. rewrite <- Hlen.
    rewrite run_Cat, (run_Group_Rep _ _ _ _ _ _ _ Hid). cbn [run].
    apply star_greedy_all; [assumption | | apply Hk].
    destruct post as [|c post]; [exact I|]. simpl in Hpost.
    unfold non_space. rewrite Hpost. reflexivity. }
  unfold SPOTIFY_RE, spotify_track_url, scheme. cbn [Cats].
  rewrite <- !app_assoc. rewrite run_Cat_Lit.
  assert (Hrest : forall prev' cap',
    run (Cat (Lit (txt "://open.spotify.com/"))
          (Cat (Opt (Cat (Lit (txt "intl-")) (Cat (Rep 2 is_lower_az) (Lit (txt "/")))))
             (Cat (Lit (txt "track/"))
                (Cat (Group (Rep 22 is_alnum_ascii)) (Star true non_space)))))
        prev' (txt "://open.spotify.com/"
               ++ match intl with
                  | Some (a, b) => txt "intl-" ++ [a; b] ++ txt "/"
                  | None => []
                  end ++ txt "track/" ++ id ++ trail ++ post) cap' k = Some x).
  { intros prev' cap'. rewrite run_Cat_Lit, run_Cat.
    destruct intl as [[a b]|].
    - destruct Hintl as [Ha Hb]. apply run_Opt_take.
      rewrite <- !app_assoc. rewrite run_Cat_Lit, run_Cat.
      rewrite (run_Rep _ is_lower_az [a; b]) by (simpl; rewrite Ha, Hb; reflexivity).
      rewrite run_Lit. exact (Htail _ _).
    - rewrite run_Opt_skip by reflexivity. exact (Htail _ _). }
  rewrite run_Cat. destruct https.
  - apply run_Opt_take. cbn [app]. rewrite run_Char by reflexivity.
    exact (Hrest _ _).
  - rewrite run_Opt_skip by reflexivity. exact (Hrest _ _).
Qed.

Lemma exec_spotify : forall https intl id trail post prev,
  match intl with
  | Some (a, b) => is_lower_az a = true /\ is_lower_az b = true
  | None => True
  end ->
  List.length id = 22 -> forallb is_alnum_ascii id = true ->
  forallb non_space trail = true -> before_blank post ->
  exec SPOTIFY_RE prev (spotify_track_url https intl id ++ trail ++ post)
  = Some {| whole := spotify_track_url https intl id ++ trail; group1 := Some id |}.
Proof.
  intros https intl id trail post prev Hintl Hlen Hid Htrail Hpost.
  unfold exec. apply run_spotify; try assumption.
  intros _. rewrite app_assoc, firstn_consumed. reflexivity.
Qed.

(** An attempt that succeeds right after the text [pre], which ends in
    whitespace or is empty, is one of the matches of the scan. *)
Lemma finditer_after_blank : forall r pre m rest mo,
  classes_in (fun c => is_space c = false) r -> 0 < min_len r ->
  after_blank pre ->
  (forall prev, exec r prev (m ++ rest) = Some mo) -> whole mo = m -> m <> [] ->
  In mo (finditer r (pre ++ m ++ rest)).
Proof.
  intros r pre m rest mo HQ Hmin Hpre He Hw Hm. unfold finditer.
  destruct Hpre as [-> | (p & c & -> & Hc)].
  - simpl. rewrite (scan_hit _ _ _ _ _ (He None) Hw Hm). left. reflexivity.
  - rewrite <- app_assoc. simpl ([c] ++ _).
    destruct (scan_across_space _ HQ Hmin p c (m ++ rest) 0 None Hc) as (ps & Hps);
      [constructor|].
    rewrite Hps, hits_app, (scan_hit _ _ _ _ _ (He (Some c)) Hw Hm).
    apply in_or_app. right. left. reflexivity.
Qed.

Lemma scheme_not_nil : forall https rest, scheme https ++ rest <> [].
Proof. intros https rest. unfold scheme. destruct https; discriminate. Qed.

(** ** YouTube *)

(** [v=] is not found where the text does not start with it. *)
Lemma run_v_eq_fail : forall (R : Type) s prev cap (K : cont R),
  (forall rest, s <> ch "v" :: ch "=" :: rest) ->
  run (Lit (txt "v=")) prev s cap K = None.
Proof.
  intros R s prev cap K H.
  change (txt "v=") with [ch "v"; ch "="].
  destruct s as [|c1 [|c2 s]]; cbn [Lit run].
  - reflexivity.
  - destruct (is_char (ch "v") c1); reflexivity.
  - destruct (is_char (ch "v") c1) eqn:H1; [|reflexivity].
    destruct (is_char (ch "=") c2) eqn:H2; [|reflexivity].
    apply is_char_iff in H1, H2. subst. exfalso. apply (H s). reflexivity.
Qed.

(** Inside [v=] and the id, and at the blank after them, no second [v=]
    starts. *)
Lemma no_later_v_eq : forall id post a b,
  forallb is_video_id_char id = true -> before_blank post ->
  txt "v=" ++ id = a ++ b -> a <> [] ->
  forall rest, b ++ post <> ch "v" :: ch "=" :: rest.
Proof.
  intros id post a b Hid Hpost Hsplit Ha rest Heq.
  assert (Hpost' : forall c q, post = c :: q -> c <> ch "v" /\ c <> ch "=").
  { intros c q ->. simpl in Hpost. split; intros ->; vm_compute in Hpost; discriminate. }
  destruct a as [|a1 a]; [congruence|].
  injection Hsplit as _ Hsplit.
  destruct a as [|a2 a].
  - (* the cursor stands on the equals sign *)
    simpl in Hsplit. subst b. discriminate.
  - (* the cursor stands inside the id, or after it *)
    injection Hsplit as _ Hsplit. subst id.
    rewrite forallb_app in Hid. apply andb_prop in Hid. destruct Hid as [_ Hb].
    destruct b as [|b1 [|b2 b]]; simpl in Heq.
    + destruct post as [|c q]; [discriminate|].
      injection Heq as -> _. now destruct (Hpost' _ _ eq_refl).
    + destruct post as [|c q]; [discriminate|].
      injection Heq as _ -> _. now destruct (Hpost' _ _ eq_refl).
    + injection Heq as _ -> _. cbn [forallb] in Hb.
      apply andb_prop in Hb. destruct Hb as [_ Hb].
      apply andb_prop in Hb. destruct Hb as [Hb _]. vm_compute in Hb. discriminate.
Qed.

(** The part of the watch forms after [watch?]: the greedy class runs to
    the end of the link and comes back to the last [v=]. *)
Lemma run_watch_query : forall (R : Type) params id post prev cap (K : cont R) x,
  forallb non_space params = true ->
  forallb is_video_id_char id = true -> before_blank post ->
  (forall prev' cap', K prev' (id ++ post) cap' = Some x) ->
  run (Cat (Star true non_space) (Lit (txt "v="))) prev
      (params ++ txt "v=" ++ id ++ post) cap K = Some x.
Proof.
  intros R params id post prev cap K x Hparams Hid Hpost HK.
  rewrite run_Cat, run_Star_greedy.
  rewrite (app_assoc (txt "v=") id post).
  apply star_greedy_back.
  - rewrite forallb_app, Hparams. simpl.
    rewrite forallb_forall in Hid. apply forallb_forall. intros c Hc.
    apply non_space_iff, video_id_char_not_space, Hid, Hc.
  - destruct post as [|c q]; [exact I|]. simpl in Hpost. unfold non_space.
    rewrite Hpost. reflexivity.
  - intros a b Hsplit Ha. apply run_v_eq_fail.
    now apply (no_later_v_eq id post a b).
  - rewrite <- app_assoc. rewrite run_Lit. apply HK.
Qed.

Lemma run_youtube : forall (R : Type) https form id post prev cap (k : cont R) x,
  form_ok form ->
  List.length id = 11 -> forallb is_video_id_char id = true -> before_blank post ->
  (forall prev', k prev' post (Some id) = Some x) ->
  run YOUTUBE_RE prev (youtube_url https form id ++ post) cap k = Some x.
Proof.
  intros R https form id post prev cap k x Hform Hlen Hid Hpost Hk.
  assert (Htail : forall prev' cap',
    run (Cat (Group (Rep 11 is_video_id_char)) (Star true non_space))
        prev' (id ++ post) cap' k = Some x).
  { intros prev' cap'. rewrite <- Hlen.
    rewrite run_Cat, (run_Group_Rep _ _ _ _ _ _ _ Hid), run_Star_greedy.
    apply (star_greedy_all _ _ []); [reflexivity | | apply Hk].
    destruct post as [|c post]; [exact I|]. simpl in Hpost.
    unfold non_space. rewrite Hpost. reflexivity. }
  unfold YOUTUBE_RE, youtube_url, scheme. cbn [Cats Alts].
  rewrite <- !app_assoc. rewrite run_Cat_Lit, run_Cat.
  assert (Hrest : forall prev' cap',
    run (Cat (Lit (txt "://"))
          (Cat (Alt (Cat (Opt (Lit (txt "www.")))
                       (Cat (Lit (txt "youtube.com/watch?"))
                          (Cat (Star true non_space) (Lit (txt "v=")))))
                  (Alt (Lit (txt "youtu.be/"))
                     (Cat (Lit (txt "music.youtube.com/watch?"))
                        (Cat (Star true non_space) (Lit (txt "v="))))))
             (Cat (Group (Rep 11 is_video_id_char)) (Star true non_space))))
        prev'
        (txt "://"
         ++ match form with
            | Watch www params =>
                (if www then txt "www." else []) ++ txt "youtube.com/watch?"
                ++ params ++ txt "v="
            | Short => txt "youtu.be/"
            | Music params => txt "music.youtube.com/watch?" ++ params ++ txt "v="
            end ++ id ++ post) cap' k = Some x).
  { intros prev' cap'. rewrite run_Cat_Lit, run_Cat.
    destruct form as [www params| |params]; simpl in Hform.
    - apply run_Alt_take. rewrite <- !app_assoc. rewrite run_Cat.
      destruct www.
      + apply run_Opt_take. rewrite run_Lit, run_Cat_Lit.
        apply run_watch_query; assumption.
      + rewrite run_Opt_skip by reflexivity. cbn [app]. rewrite run_Cat_Lit.
        apply run_watch_query; assumption.
    - rewrite run_Alt_skip by reflexivity. apply run_Alt_take.
      rewrite run_Lit. apply Htail.
    - rewrite run_Alt_skip by reflexivity. rewrite run_Alt_skip by reflexivity.
      rewrite <- !app_assoc. rewrite run_Cat_Lit.
      apply run_watch_query; assumption. }
  destruct https.
  - apply run_Opt_take. cbn [app]. rewrite run_Char by reflexivity. exact (Hrest _ _).
  - rewrite run_Opt_skip by reflexivity. exact (Hrest _ _).
Qed.

Lemma exec_youtube : forall https form id post prev,
  form_ok form ->
  List.length id = 11 -> forallb is_video_id_char id = true -> before_blank post ->
  exec YOUTUBE_RE prev (youtube_url https form id ++ post)
  = Some {| whole := youtube_url https form id; group1 := Some id |}.
Proof.
  intros https form id post prev Hform Hlen Hid Hpost.
  unfold exec. apply run_youtube; try assumption.
  intros _. rewrite firstn_consumed. reflexivity.
Qed.

(* ===================================================================== *)
(** * The coroutines of the cog *)
(* ===================================================================== *)

Section Coroutines.
Variable ua : char -> bool.
Variable net : nat -> request -> outcome.

Lemma keeps_ret : forall (A : Type) (a : A), keeps_config (ret a).
Proof. intros A a st. reflexivity. Qed.

Lemma keeps_lift : forall (A : Type) (r : result A), keeps_config (lift r).
Proof. intros A r st. reflexivity. Qed.

Lemma keeps_bind : forall (A B : Type) (m : M A) (f : A -> M B),
  keeps_config m -> (forall a, keeps_config (f a)) -> keeps_config (bind m f).
Proof.
  intros A B m f Hm Hf st. unfold bind. specialize (Hm st).
  destruct (m st) as [[a|e] st']; simpl in *.
  - rewrite Hf. exact Hm.
  - exact Hm.
Qed.

(** A fetch is one logged request and the metadata of its answer. *)
Ltac fetch_cases st rq :=
  unfold bind, try_pass, _get_session, session_get, lift, ret, asked;
  destruct (session st) eqn:Hs; simpl; rewrite ?Hs;
  destruct (net (List.length (requests st)) rq) as [r| |]; simpl; try reflexivity;
  destruct (status r =? 200)%Z; simpl; try reflexivity;
  unfold resp_json; destruct (body r); reflexivity.

Lemma fetch_spotify_run : forall id st,
  _fetch_spotify_oembed net id st
  = (Ok (metadata_of (net (List.length (requests st))
                          {| url := spotify_oembed_url id; timeout_total := 10 |})),
     asked st {| url := spotify_oembed_url id; timeout_total := 10 |}).
Proof.
  intros id st. unfold _fetch_spotify_oembed, spotify_oembed_url.
  change (txt "https://open.spotify.com/oembed?url=https://open.spotify.com/track/" ++ id)
    with (txt "https://open.spotify.com/oembed?url="
          ++ txt "https://open.spotify.com/track/" ++ id).
  set (u := txt "https://open.spotify.com/oembed?url="
            ++ txt "https://open.spotify.com/track/" ++ id).
  fetch_cases st {| url := u; timeout_total := 10 |}.
Qed.

Lemma fetch_youtube_run : forall id st,
  _fetch_youtube_oembed net id st
  = (Ok (metadata_of (net (List.length (requests st))
                          {| url := youtube_oembed_url id; timeout_total := 10 |})),
     asked st {| url := youtube_oembed_url id; timeout_total := 10 |}).
Proof.
  intros id st. unfold _fetch_youtube_oembed, youtube_oembed_url.
  change (txt "https://www.youtube.com/oembed?url=https://www.youtube.com/watch?v="
          ++ id ++ txt "&format=json")
    with (txt "https://www.youtube.com/oembed?url="
          ++ (txt "https://www.youtube.com/watch?v=" ++ id) ++ txt "&format=json").
  set (u := txt "https://www.youtube.com/oembed?url="
            ++ (txt "https://www.youtube.com/watch?v=" ++ id) ++ txt "&format=json").
  fetch_cases st {| url := u; timeout_total := 10 |}.
Qed.

Lemma keeps_fetch_spotify : forall id, keeps_config (_fetch_spotify_oembed net id).
Proof. intros id st. rewrite fetch_spotify_run. reflexivity. Qed.

Lemma keeps_fetch_youtube : forall id, keeps_config (_fetch_youtube_oembed net id).
Proof. intros id st. rewrite fetch_youtube_run. reflexivity. Qed.

Lemma keeps_spotify_loop : forall show max ms embeds,
  keeps_config (spotify_loop net show max ms embeds).
Proof.
  intros show max ms. induction ms as [|m ms IH]; intro embeds; simpl.
  - apply keeps_ret.
  - destruct (cap_reached embeds max); [apply keeps_ret|].
    apply keeps_bind; [apply keeps_fetch_spotify|]. intro data.
    destruct (truthy data); [|apply IH].
    repeat (apply keeps_bind; [apply keeps_lift|]; intro). apply IH.
Qed.

Lemma keeps_youtube_loop : forall show max ms embeds,
  keeps_config (youtube_loop ua net show max ms embeds).
Proof.
  intros show max ms. induction ms as [|m ms IH]; intro embeds; simpl.
  - apply keeps_ret.
  - destruct (cap_reached embeds max); [apply keeps_ret|].
    apply keeps_bind; [apply keeps_fetch_youtube|]. intro data.
    destruct (truthy data); [|apply IH].
    repeat (apply keeps_bind; [apply keeps_lift|]; intro). apply IH.
Qed.

Lemma keeps_on_message : forall msg, keeps_config (on_message ua net msg).
Proof.
  intros msg st. unfold on_message.
  destruct (guild msg) as [g|]; [|reflexivity].
  destruct (author_bot msg); [reflexivity|].
  destruct (negb (enabled (config st g))); [reflexivity|].
  destruct (ctx_valid msg); [reflexivity|].
  apply (keeps_bind _ _ _ _ (keeps_spotify_loop _ _ _ _)).
  intro embeds. apply keeps_youtube_loop.
Qed.

Lemma clamp_range : forall limit, (1 <= Z.max 1 (Z.min 10 limit) <= 10)%Z.
Proof. intro limit. lia. Qed.

Lemma maxlinks_stored : forall g limit st,
  max_links_per_message (config (snd (ml_maxlinks g limit st)) g)
  = Z.max 1 (Z.min 10 limit).
Proof.
  intros g limit st. unfold ml_maxlinks, set_guild. cbn [snd config].
  rewrite Z.eqb_refl. reflexivity.
Qed.

Lemma command_keeps_clamped : forall g c st,
  limits_clamped st -> limits_clamped (run_command g c st).
Proof.
  intros g c st H g'. destruct c as [| | |limit]; simpl.
  - apply H.
  - destruct (g' =? g)%Z eqn:E; simpl; [|apply H].
    apply Z.eqb_eq in E. subst. apply H.
  - destruct (g' =? g)%Z eqn:E; simpl; [|apply H].
    apply Z.eqb_eq in E. subst. apply H.
  - destruct (g' =? g)%Z eqn:E; simpl; [apply clamp_range | apply H].
Qed.

Lemma step_keeps_clamped : forall e st,
  limits_clamped st -> limits_clamped (step ua net e st).
Proof.
  intros e st H. destruct e as [g c|msg|]; simpl.
  - now apply command_keeps_clamped.
  - intro g. rewrite keeps_on_message. apply H.
  - intro g. unfold cog_unload. destruct (session st); apply H.
Qed.

Lemma bind_lift : forall (A B : Type) (r : result A) (f : A -> M B) st,
  bind (lift r) f st = match r with Ok a => f a st | Raise e => (Raise e, st) end.
Proof. intros A B r f st. unfold bind, lift. destruct r; reflexivity. Qed.

End Coroutines.


(* ===================================================================== *)
(** * The listener *)
(* ===================================================================== *)

Section Listener.
Variable ua : char -> bool.
Variable net : nat -> request -> outcome.

Lemma requests_asked : forall st rq,
  List.length (requests (asked st rq)) = S (List.length (requests st)).
Proof. intros st rq. unfold asked. simpl. rewrite length_app. simpl. lia. Qed.

(** The Spotify loop goes through the units of its matches; when it ends
    below the cap, every match was fetched. *)
Lemma spotify_loop_run : forall show max ms embeds st,
  exists st',
    spotify_loop net show max ms embeds st
    = (gather max (units net (spotify_unit show) spotify_oembed_url
                         (List.length (requests st)) ms) embeds, st')
    /\ forall out,
         gather max (units net (spotify_unit show) spotify_oembed_url
                           (List.length (requests st)) ms) embeds = Ok out ->
         cap_reached out max = false ->
         List.length (requests st') = List.length (requests st) + List.length ms.
Proof.
  intros show max ms. induction ms as [|m ms IH]; intros embeds st;
    cbn [spotify_loop units gather].
  - exists st. split; [reflexivity|]. intros. simpl. lia.
  - destruct (cap_reached embeds max) eqn:Hcap.
    + exists st. split; [reflexivity|]. intros out [= <-] Hout. congruence.
    + unfold bind at 1. rewrite fetch_spotify_run. unfold spotify_unit.
      set (rq := {| url := spotify_oembed_url (group_1 m); timeout_total := 10 |}).
      destruct (truthy (metadata_of (net (List.length (requests st)) rq))).
      * rewrite bind_lift.
        destruct (get _ (txt "title") _) as [title|x]; cbn [rbind];
          [|exists (asked st rq); split; [reflexivity | intros out Hout; discriminate]].
        rewrite bind_lift.
        destruct (get _ (txt "thumbnail_url") _) as [thumb|x]; cbn [rbind];
          [|exists (asked st rq); split; [reflexivity | intros out Hout; discriminate]].
        rewrite bind_lift.
        destruct (_build_spotify_embed title thumb show) as [e|x]; cbn [rbind];
          [|exists (asked st rq); split; [reflexivity | intros out Hout; discriminate]].
        destruct (IH (embeds ++ [e]) (asked st rq)) as (st' & H1 & H2).
        rewrite requests_asked in H1, H2. exists st'. split; [exact H1|].
        intros out Hout Hc. rewrite (H2 out Hout Hc). cbn [List.length]. lia.
      * destruct (IH embeds (asked st rq)) as (st' & H1 & H2).
        rewrite requests_asked in H1, H2. exists st'. split; [exact H1|].
        intros out Hout Hc. rewrite (H2 out Hout Hc). cbn [List.length]. lia.
Qed.

Lemma youtube_loop_run : forall show max ms embeds st,
  fst (youtube_loop ua net show max ms embeds st)
  = gather max (units net (youtube_unit ua show) youtube_oembed_url
                      (List.length (requests st)) ms) embeds.
Proof.
  intros show max ms. induction ms as [|m ms IH]; intros embeds st;
    cbn [youtube_loop units gather].
  - reflexivity.
  - destruct (cap_reached embeds max) eqn:Hcap; [reflexivity|].
    unfold bind at 1. rewrite fetch_youtube_run. unfold youtube_unit.
    set (rq := {| url := youtube_oembed_url (group_1 m); timeout_total := 10 |}).
    destruct (truthy (metadata_of (net (List.length (requests st)) rq))).
    + rewrite bind_lift.
      destruct (get _ (txt "title") _) as [title|x]; cbn [rbind fst snd]; [|reflexivity].
      rewrite bind_lift.
      destruct (get _ (txt "author_name") _) as [author|x]; cbn [rbind fst snd];
        [|reflexivity].
      rewrite bind_lift.
      destruct (get _ (txt "thumbnail_url") _) as [thumb|x]; cbn [rbind fst snd];
        [|reflexivity].
      rewrite bind_lift.
      destruct (_build_youtube_embed ua title author thumb show) as [e|x];
        cbn [rbind fst snd]; [|reflexivity].
      rewrite (IH (embeds ++ [e]) (asked st rq)), requests_asked. reflexivity.
    + rewrite (IH embeds (asked st rq)), requests_asked. reflexivity.
Qed.

(** ** Going through units *)

Lemma gather_at_cap : forall max us embeds,
  cap_reached embeds max = true -> gather max us embeds = Ok embeds.
Proof. intros max us embeds H. destruct us; simpl; [|rewrite H]; reflexivity. Qed.

Lemma gather_app : forall max us1 us2 embeds,
  gather max (us1 ++ us2) embeds
  = rbind (gather max us1 embeds) (fun embeds' => gather max us2 embeds').
Proof.
  intros max us1. induction us1 as [|u us1 IH]; intros us2 embeds; simpl.
  - reflexivity.
  - destruct (cap_reached embeds max) eqn:Hcap.
    + simpl. symmetry. now apply gather_at_cap.
    + destruct u as [[e|x]|]; [apply IH | reflexivity | apply IH].
Qed.

Lemma cap_reached_iff : forall embeds max,
  cap_reached embeds max = true <-> Z.to_nat max <= List.length embeds.
Proof. intros embeds max. unfold cap_reached. rewrite Z.leb_le. lia. Qed.

(** What comes out is what was there, then the embeds of the units up to
    the cap. *)
Lemma gather_resolved : forall max us embeds out,
  gather max us embeds = Ok out ->
  out = embeds ++ firstn (Z.to_nat max - List.length embeds) (resolved us).
Proof.
  intros max us. induction us as [|u us IH]; intros embeds out H; simpl in H.
  - injection H as <-. simpl. rewrite firstn_nil, app_nil_r. reflexivity.
  - destruct (cap_reached embeds max) eqn:Hcap.
    + injection H as <-. apply cap_reached_iff in Hcap.
      replace (Z.to_nat max - List.length embeds) with 0 by lia.
      simpl. rewrite app_nil_r. reflexivity.
    + assert (Hlt : List.length embeds < Z.to_nat max).
      { destruct (Nat.le_gt_cases (Z.to_nat max) (List.length embeds)) as [Hle|Hgt];
          [|exact Hgt]. apply cap_reached_iff in Hle. congruence. }
      destruct u as [[e|x]|]; simpl.
      * rewrite (IH _ _ H), length_app, <- app_assoc. simpl.
        replace (Z.to_nat max - List.length embeds)
          with (S (Z.to_nat max - (List.length embeds + 1))) by lia.
        reflexivity.
      * discriminate.
      * apply (IH _ _ H).
Qed.

(** Units that all resolve are taken in order up to the cap. *)
Lemma gather_all_resolved : forall max es embeds,
  gather max (List.map (fun e => Some (Ok e)) es) embeds
  = Ok (embeds ++ firstn (Z.to_nat max - List.length embeds) es).
Proof.
  intros max es. induction es as [|e es IH]; intro embeds; simpl.
  - rewrite firstn_nil, app_nil_r. reflexivity.
  - destruct (cap_reached embeds max) eqn:Hcap.
    + apply cap_reached_iff in Hcap.
      replace (Z.to_nat max - List.length embeds) with 0 by lia.
      simpl. rewrite app_nil_r. reflexivity.
    + assert (Hlt : List.length embeds < Z.to_nat max).
      { destruct (Nat.le_gt_cases (Z.to_nat max) (List.length embeds)) as [Hle|Hgt];
          [|exact Hgt]. apply cap_reached_iff in Hle. congruence. }
      rewrite IH, length_app, <- app_assoc. simpl.
      replace (Z.to_nat max - List.length embeds)
        with (S (Z.to_nat max - (List.length embeds + 1))) by lia.
      reflexivity.
Qed.

(** The listener on a message it answers: both loops, as one pass over
    the units of the message. *)
Lemma on_message_run : forall msg g st,
  guild msg = Some g -> author_bot msg = false ->
  enabled (config st g) = true -> ctx_valid msg = false ->
  fst (on_message ua net msg st)
  = gather (max_links_per_message (config st g))
           (message_units ua net (show_thumbnail (config st g))
                          (List.length (requests st)) (content msg)) [].
Proof.
  intros msg g st Hg Hbot Hen Hcmd. unfold on_message, message_units.
  rewrite Hg, Hbot, Hen, Hcmd. cbn [negb].
  set (show := show_thumbnail (config st g)).
  set (max := max_links_per_message (config st g)).
  rewrite gather_app. unfold bind.
  destruct (spotify_loop_run show max (finditer SPOTIFY_RE (content msg)) [] st)
    as (st1 & H1 & H2).
  rewrite H1.
  destruct (gather max (units net (spotify_unit show) spotify_oembed_url
                              (List.length (requests st))
                              (finditer SPOTIFY_RE (content msg))) [])
    as [embeds|x] eqn:Hsp; cbn [rbind fst].
  - rewrite youtube_loop_run.
    destruct (cap_reached embeds max) eqn:Hcap.
    + rewrite !gather_at_cap by exact Hcap. reflexivity.
    + rewrite (H2 embeds eq_refl Hcap). reflexivity.
  - reflexivity.
Qed.

End Listener.

Section Rounds.
Variable ua : char -> bool.
Variable net : nat -> request -> outcome.

Lemma get_field_or : forall d key default,
  get (VDict d) (txt key) default = Ok (field_or d key default).
Proof.
  intros d key default. unfold get, field_or. destruct (lookup d (txt key)); reflexivity.
Qed.

Lemma truthy_dict : forall d, d <> [] -> truthy (VDict d) = true.
Proof. intros [|e d] H; [congruence | reflexivity]. Qed.

(** One round of the Spotify loop on an object that was fetched. *)
Lemma spotify_round : forall show max m ms embeds st d,
  cap_reached embeds max = false -> d <> [] ->
  metadata_of (net (List.length (requests st))
                   {| url := spotify_oembed_url (group_1 m); timeout_total := 10 |})
  = VDict d ->
  spotify_loop net show max (m :: ms) embeds st
  = match _build_spotify_embed (field_or d "title" (VStr (txt "Unknown Track")))
                               (field_or d "thumbnail_url" VNone) show with
    | Ok e => spotify_loop net show max ms (embeds ++ [e])
                (asked st {| url := spotify_oembed_url (group_1 m); timeout_total := 10 |})
    | Raise x =>
        (Raise x, asked st {| url := spotify_oembed_url (group_1 m); timeout_total := 10 |})
    end.
Proof.
  intros show max m ms embeds st d Hcap Hd Hdata. cbn [spotify_loop].
  rewrite Hcap. unfold bind at 1. rewrite fetch_spotify_run, Hdata.
  rewrite (truthy_dict d Hd). rewrite bind_lift, get_field_or.
  rewrite bind_lift, get_field_or. rewrite bind_lift. reflexivity.
Qed.

(** One round of the YouTube loop on an object that was fetched. *)
Lemma youtube_round : forall show max m ms embeds st d,
  cap_reached embeds max = false -> d <> [] ->
  metadata_of (net (List.length (requests st))
                   {| url := youtube_oembed_url (group_1 m); timeout_total := 10 |})
  = VDict d ->
  youtube_loop ua net show max (m :: ms) embeds st
  = match _build_youtube_embed ua (field_or d "title" (VStr (txt "Unknown")))
                               (field_or d "author_name" (VStr []))
                               (field_or d "thumbnail_url" VNone) show with
    | Ok e => youtube_loop ua net show max ms (embeds ++ [e])
                (asked st {| url := youtube_oembed_url (group_1 m); timeout_total := 10 |})
    | Raise x =>
        (Raise x, asked st {| url := youtube_oembed_url (group_1 m); timeout_total := 10 |})
    end.
Proof.
  intros show max m ms embeds st d Hcap Hd Hdata. cbn [youtube_loop].
  rewrite Hcap. unfold bind at 1. rewrite fetch_youtube_run, Hdata.
  rewrite (truthy_dict d Hd). rewrite bind_lift, get_field_or.
  rewrite bind_lift, get_field_or. rewrite bind_lift, get_field_or.
  rewrite bind_lift. reflexivity.
Qed.

End Rounds.

(* ===================================================================== *)
(** * Quoting *)
(* ===================================================================== *)

Ltac Zify.zify_post_hook ::= Z.to_euclidean_division_equations.

Lemma scalar_cases : forall c,
  is_scalar c = true <-> (c < 0x110000 /\ ~ (0xD800 <= c <= 0xDFFF))%N.
Proof.
  intro c. unfold is_scalar, is_code_point, is_surrogate.
  rewrite andb_true_iff, negb_true_iff, N.ltb_lt, andb_false_iff, !N.leb_gt. lia.
Qed.

(** UTF-8 encodes exactly the scalar values. *)
Lemma utf8_scalar : forall c, is_scalar c = true <-> exists bs, utf8 c = Some bs.
Proof.
  intro c. rewrite scalar_cases. unfold utf8, is_surrogate.
  destruct (c <? 0x80)%N eqn:H1; [apply N.ltb_lt in H1; split; [eauto | lia]|].
  destruct (c <? 0x800)%N eqn:H2; [apply N.ltb_lt in H2; split; [eauto | lia]|].
  apply N.ltb_ge in H1, H2.
  destruct (c <? 0x10000)%N eqn:H3.
  - apply N.ltb_lt in H3.
    destruct ((0xD800 <=? c) && (c <=? 0xDFFF))%N eqn:H4.
    + apply andb_prop in H4. destruct H4 as [H4 H5]. apply N.leb_le in H4, H5.
      split; [lia | intros [bs Hbs]; discriminate].
    + apply andb_false_iff in H4. rewrite !N.leb_gt in H4. split; [eauto | lia].
  - apply N.ltb_ge in H3.
    destruct (c <? 0x110000)%N eqn:H4.
    + apply N.ltb_lt in H4. split; [eauto | lia].
    + apply N.ltb_ge in H4. split; [lia | intros [bs Hbs]; discriminate].
Qed.

Local Opaque N.add N.div N.modulo.

(** Its bytes are bytes, and only the space gives the byte 32. *)
Lemma utf8_bytes : forall c bs, utf8 c = Some bs ->
  Forall (fun b => (b < 256)%N) bs
  /\ (c = ch " " -> bs = [ch " "])
  /\ (c <> ch " " -> ~ In (ch " ") bs).
Proof.
  intros c bs. unfold utf8. change (ch " ") with 32%N.
  destruct (c <? 0x80)%N eqn:H1.
  { apply N.ltb_lt in H1. intros [= <-]. split; [|split].
    - repeat constructor. lia.
    - congruence.
    - intros Hc [Hin | []]. congruence. }
  destruct (c <? 0x800)%N eqn:H2.
  { apply N.ltb_lt in H2. apply N.ltb_ge in H1. intros [= <-]. split; [|split].
    - apply Forall_forall; intros b Hin; cbn [In] in Hin; intuition (subst; lia).
    - intros ->. lia.
    - intros _ Hin. cbn [In] in Hin. lia. }
  destruct (c <? 0x10000)%N eqn:H3.
  { destruct (is_surrogate c); [discriminate|].
    apply N.ltb_lt in H3. apply N.ltb_ge in H2. intros [= <-]. split; [|split].
    - apply Forall_forall; intros b Hin; cbn [In] in Hin; intuition (subst; lia).
    - intros ->. lia.
    - intros _ Hin. cbn [In] in Hin. lia. }
  destruct (c <? 0x110000)%N eqn:H4; [|discriminate].
  apply N.ltb_lt in H4. apply N.ltb_ge in H3. intros [= <-]. split; [|split].
  - apply Forall_forall; intros b Hin; cbn [In] in Hin; intuition (subst; lia).
  - intros ->. lia.
  - intros _ Hin. cbn [In] in Hin. lia.
Qed.

Local Transparent N.add N.div N.modulo.

Lemma encode_utf8_total : forall s,
  forallb is_scalar s = true -> exists bs, encode_utf8 s = Ok bs.
Proof.
  induction s as [|c s IH]; intro H; simpl in *.
  - eauto.
  - apply andb_prop in H. destruct H as [Hc Hs].
    apply utf8_scalar in Hc. destruct Hc as [bs Hbs]. rewrite Hbs.
    destruct (IH Hs) as [rest ->]. simpl. eauto.
Qed.

Lemma encode_utf8_app : forall s1 s2 b1 b2,
  encode_utf8 s1 = Ok b1 -> encode_utf8 s2 = Ok b2 ->
  encode_utf8 (s1 ++ s2) = Ok (b1 ++ b2).
Proof.
  induction s1 as [|c s1 IH]; intros s2 b1 b2 H1 H2; simpl in *.
  - injection H1 as <-. exact H2.
  - destruct (utf8 c) as [bs|]; [|discriminate].
    destruct (encode_utf8 s1) as [r1|] eqn:E; [|discriminate].
    simpl in H1. injection H1 as <-.
    rewrite (IH s2 r1 b2 eq_refl H2). simpl. rewrite app_assoc. reflexivity.
Qed.

(** The bytes of a text: all below 256, with as many bytes 32 as the text
    has spaces. *)
Lemma encode_utf8_bytes : forall s bs, encode_utf8 s = Ok bs ->
  Forall (fun b => (b < 256)%N) bs /\ count (ch " ") bs = count (ch " ") s.
Proof.
  induction s as [|c s IH]; intros bs H; simpl in H.
  - injection H as <-. split; [constructor | reflexivity].
  - destruct (utf8 c) as [b|] eqn:Hc; [|discriminate].
    destruct (encode_utf8 s) as [rest|] eqn:E; [|discriminate].
    simpl in H. injection H as <-.
    destruct (IH rest eq_refl) as [Hlt Hcnt].
    destruct (utf8_bytes c b Hc) as (Hb & Hsp & Hnsp).
    split; [apply Forall_app; auto|].
    unfold count, byte, char in *. rewrite count_occ_app, Hcnt.
    destruct (N.eq_dec c (ch " ")) as [e|n].
    + rewrite (Hsp e). subst c. reflexivity.
    + rewrite (proj1 (count_occ_not_In N.eq_dec b (ch " ")) (Hnsp n)).
      rewrite count_occ_cons_neq by exact n. reflexivity.
Qed.

Lemma always_safe_cases : forall c, always_safe c = true <->
  (is_alnum_ascii c = true \/ c = 0x5F \/ c = 0x2E \/ c = 0x2D \/ c = 0x7E)%N.
Proof.
  intro c. unfold always_safe. rewrite !orb_true_iff, !N.eqb_eq. tauto.
Qed.

Lemma hex_digit_safe : forall n, (n < 16)%N -> always_safe (hex_digit n) = true.
Proof.
  intros n Hn. apply always_safe_cases. left. apply alnum_cases. unfold hex_digit.
  destruct (n <? 10)%N eqn:E; [apply N.ltb_lt in E | apply N.ltb_ge in E]; lia.
Qed.

(** What the quoter of a byte writes: unreserved characters and the
    percent sign, or the byte itself when it was declared safe. *)
Lemma quote_byte_chars : forall safe b, (b < 256)%N ->
  Forall (fun c => always_safe c || (c =? ch "%")%N = true \/ (c = b /\ safe b = true))
         (quote_byte safe b).
Proof.
  intros safe b Hb. unfold quote_byte.
  destruct (always_safe b) eqn:Ha; simpl.
  - constructor; [|constructor]. left. rewrite Ha. reflexivity.
  - destruct (safe b) eqn:Hs.
    + constructor; [|constructor]. right. auto.
    + constructor; [|constructor; [|constructor; [|constructor]]]; left.
      * reflexivity.
      * rewrite hex_digit_safe; [reflexivity | lia].
      * rewrite hex_digit_safe; [reflexivity | lia].
Qed.

Lemma plus_byte_chars : forall b, (b < 256)%N ->
  Forall (fun c => quoted_char (ch "+") c = true) (plus_byte b).
Proof.
  intros b Hb. unfold plus_byte. destruct (b =? ch " ")%N.
  - constructor; [reflexivity | constructor].
  - eapply Forall_impl; [|apply (quote_byte_chars no_safe b Hb)].
    intros c [H | [_ H]]; [|discriminate]. unfold quoted_char. rewrite H. reflexivity.
Qed.

(** A character that is neither unreserved nor the percent sign does not
    come out of the quoter unless it was declared safe. *)
Lemma quote_byte_lacks : forall safe b c, (b < 256)%N ->
  always_safe c || (c =? ch "%")%N = false -> safe c = false ->
  count c (quote_byte safe b) = 0.
Proof.
  intros safe b c Hb Hc Hs. unfold count. apply count_occ_not_In. intro Hin.
  pose proof (quote_byte_chars safe b Hb) as H. rewrite Forall_forall in H.
  destruct (H c Hin) as [H1 | [-> H1]]; congruence.
Qed.

Lemma plus_byte_count : forall b, (b < 256)%N ->
  count (ch "+") (plus_byte b) = count (ch " ") [b].
Proof.
  intros b Hb. unfold plus_byte. destruct (b =? ch " ")%N eqn:E.
  - apply N.eqb_eq in E. subst b. reflexivity.
  - apply N.eqb_neq in E. rewrite quote_byte_lacks by (assumption || reflexivity).
    unfold count. rewrite count_occ_cons_neq by exact E. reflexivity.
Qed.

Lemma no_space_to_replace : forall l : str,
  Forall (fun c => c <> ch " ") l ->
  List.map (fun c => if (c =? ch " ")%N then ch "+" else c) l = l.
Proof.
  intros l H. induction H as [|c l Hc _ IH]; cbn [List.map]; [reflexivity|].
  rewrite IH. apply N.eqb_neq in Hc. rewrite Hc. reflexivity.
Qed.

(** Replacing the kept spaces by [+] is the per-byte quoter of
    [quote_plus]. *)
Lemma space_to_plus : forall b, (b < 256)%N ->
  List.map (fun c => if (c =? ch " ")%N then ch "+" else c) (quote_byte (is_char (ch " ")) b)
  = plus_byte b.
Proof.
  intros b Hb. unfold plus_byte. destruct (b =? ch " ")%N eqn:E.
  - apply N.eqb_eq in E. subst b. reflexivity.
  - assert (Hq : quote_byte (is_char (ch " ")) b = quote_byte no_safe b).
    { unfold quote_byte, is_char, no_safe. rewrite N.eqb_sym, E. reflexivity. }
    rewrite Hq. apply no_space_to_replace.
    eapply Forall_impl; [|apply (quote_byte_chars no_safe b Hb)].
    intros c [Hc | [_ Hc]]; [|discriminate]. intros ->. discriminate.
Qed.

Lemma map_flat_map : forall (A B C : Type) (f : B -> C) (g : A -> list B) l,
  List.map f (flat_map g l) = flat_map (fun x => List.map f (g x)) l.
Proof.
  intros A B C f g l. induction l as [|x l IH]; simpl; [reflexivity|].
  rewrite map_app, IH. reflexivity.
Qed.

Lemma flat_map_ext_Forall : forall (A B : Type) (P : A -> Prop) (f g : A -> list B) l,
  Forall P l -> (forall x, P x -> f x = g x) -> flat_map f l = flat_map g l.
Proof.
  intros A B P f g l Hl Hfg. induction Hl as [|x l Hx _ IH]; simpl; [reflexivity|].
  rewrite (Hfg x Hx), IH. reflexivity.
Qed.

Lemma count_zero_Forall : forall c (l : list N), count c l = 0 -> Forall (fun b => b <> c) l.
Proof.
  intros c l H. apply Forall_forall. intros b Hb ->.
  unfold count in H. apply count_occ_not_In in H. contradiction.
Qed.

Lemma existsb_space_count : forall s,
  existsb (is_char (ch " ")) s = false -> count (ch " ") s = 0.
Proof.
  intros s H. unfold count. apply count_occ_not_In. intro Hin.
  assert (existsb (is_char (ch " ")) s = true); [|congruence].
  apply existsb_exists. exists (ch " "). split; [assumption | reflexivity].
Qed.

(** [quote_plus], byte by byte. *)
Lemma quote_plus_bytes : forall s bs,
  encode_utf8 s = Ok bs -> quote_plus s = Ok (flat_map plus_byte bs).
Proof.
  intros s bs He. destruct (encode_utf8_bytes s bs He) as [Hlt Hcnt].
  unfold quote_plus. destruct (existsb (is_char (ch " ")) s) eqn:Hsp.
  - unfold quote_with. destruct s as [|c s]; [discriminate|].
    rewrite He. simpl. f_equal. unfold quote_from_bytes. rewrite map_flat_map.
    apply (flat_map_ext_Forall _ _ _ _ _ _ Hlt). exact space_to_plus.
  - apply existsb_space_count in Hsp. rewrite Hsp in Hcnt.
    unfold quote_with. destruct s as [|c s].
    + simpl in He. injection He as <-. reflexivity.
    + rewrite He. simpl. f_equal. unfold quote_from_bytes.
      apply (flat_map_ext_Forall _ _ _ _ _ _ (count_zero_Forall _ _ Hcnt)).
      intros b Hb. unfold plus_byte. apply N.eqb_neq in Hb. rewrite Hb. reflexivity.
Qed.

Lemma quote_bytes : forall s bs,
  encode_utf8 s = Ok bs -> quote s = Ok (flat_map (quote_byte (is_char (ch "/"))) bs).
Proof.
  intros s bs He. unfold quote, quote_with. destruct s as [|c s].
  - simpl in He. injection He as <-. reflexivity.
  - rewrite He. reflexivity.
Qed.

Lemma Forall_flat_map : forall (A B : Type) (P : A -> Prop) (Q : B -> Prop)
                               (f : A -> list B) l,
  Forall P l -> (forall x, P x -> Forall Q (f x)) -> Forall Q (flat_map f l).
Proof.
  intros A B P Q f l Hl Hf. induction Hl as [|x l Hx _ IH]; simpl; [constructor|].
  apply Forall_app. auto.
Qed.

Lemma count_flat_map : forall (P : N -> Prop) (f : N -> list N) c d l,
  Forall P l -> (forall x, P x -> count c (f x) = count d [x]) ->
  count c (flat_map f l) = count d l.
Proof.
  intros P f c d l Hl Hf. induction Hl as [|x l Hx _ IH]; simpl; [reflexivity|].
  unfold count in *. rewrite count_occ_app, IH, (Hf x Hx). simpl.
  destruct (N.eq_dec x d); reflexivity.
Qed.

Lemma quote_plus_total : forall s,
  forallb is_scalar s = true -> exists q, quote_plus s = Ok q.
Proof.
  intros s H. destruct (encode_utf8_total s H) as [bs Hbs].
  rewrite (quote_plus_bytes s bs Hbs). eauto.
Qed.

Lemma quote_total : forall s,
  forallb is_scalar s = true -> exists q, quote s = Ok q.
Proof.
  intros s H. destruct (encode_utf8_total s H) as [bs Hbs].
  rewrite (quote_bytes s bs Hbs). eauto.
Qed.



(* ===================================================================== *)
(** * The title cleaner *)
(* ===================================================================== *)

(** ** Step 1: bracketed stretches *)

Lemma close_at_length : forall s n, close_at s = Some n -> n < List.length s.
Proof.
  induction s as [|c s IH]; intros n H; simpl in *; [discriminate|].
  destruct (is_close_bracket c); [injection H as <-; lia|].
  destruct (is_dot c); [|discriminate].
  destruct (close_at s) as [m|]; [|discriminate].
  injection H as <-. specialize (IH m eq_refl). lia.
Qed.

(** The lazy dot-star followed by a closing bracket stops at the nearest
    closing bracket, and does not pass a line break. *)
Lemma star_lazy_close : forall (R : Type) (g : str -> option str -> R) s prev cap,
  star_lazy is_dot prev s cap
            (fun p s' c => run (Char is_close_bracket) p s' c
                               (fun _ s'' c'' => Some (g s'' c'')))
  = match close_at s with
    | Some n => Some (g (skipn (S n) s) cap)
    | None => None
    end.
Proof.
  intros R g s. induction s as [|c s IH]; intros prev cap; simpl.
  - reflexivity.
  - destruct (is_close_bracket c); [reflexivity|].
    destruct (is_dot c); [|reflexivity].
    rewrite IH. destruct (close_at s); reflexivity.
Qed.

(** One attempt of the bracket pattern. *)
Lemma exec_noise : forall prev s,
  exec YT_TITLE_NOISE prev s
  = match s with
    | [] => None
    | c :: s' =>
        if is_open_bracket c then
          match close_at s' with
          | Some n => Some {| whole := firstn (S (S n)) s; group1 := None |}
          | None => None
          end
        else None
    end.
Proof.
  intros prev s. unfold exec, YT_TITLE_NOISE. cbn [Cats]. rewrite run_Cat.
  destruct s as [|c s']; [reflexivity|]. cbn [run].
  destruct (is_open_bracket c); [|reflexivity].
  rewrite (star_lazy_close _
             (fun s'' c'' =>
                {| whole := firstn (List.length (c :: s') - List.length s'') (c :: s');
                   group1 := c'' |})).
  destruct (close_at s') as [n|] eqn:E; [|reflexivity].
  apply close_at_length in E. do 2 f_equal.
  rewrite length_skipn. cbn [List.length]. f_equal. lia.
Qed.

(** The substitution of the bracket pattern is step 1: both pass the
    stretch up to the closing bracket, then go on. *)
Lemma noise_scan : forall s,
  (forall prev, replace [] (scan YT_TITLE_NOISE 0 prev s) = remove_bracketed false s)
  /\ (forall prev n, close_at s = Some n ->
        replace [] (scan YT_TITLE_NOISE (S n) prev s) = remove_bracketed true s).
Proof.
  induction s as [|c s [IH0 IH1]]; split.
  - intro prev. reflexivity.
  - intros prev n H. discriminate.
  - intro prev. cbn [scan]. rewrite exec_noise. cbn [remove_bracketed].
    unfold closes. destruct (is_open_bracket c); cbn [andb].
    + destruct (close_at s) as [n|] eqn:E.
      * cbn [whole replace app]. rewrite length_firstn.
        pose proof (close_at_length _ _ E) as Hn. cbn [List.length].
        replace (Nat.min (S (S n)) (S (List.length s))) with (S (S n)) by lia.
        now apply IH1.
      * cbn [replace]. rewrite IH0. reflexivity.
    + cbn [replace]. rewrite IH0. reflexivity.
  - intros prev n H. cbn [scan remove_bracketed]. simpl in H.
    destruct (is_close_bracket c).
    + injection H as <-. apply IH0.
    + destruct (is_dot c); [|discriminate].
      destruct (close_at s) as [m|] eqn:E; [|discriminate].
      injection H as <-. now apply IH1.
Qed.

Lemma sub_noise : forall s, sub YT_TITLE_NOISE [] s = remove_bracketed false s.
Proof. intro s. unfold sub. apply noise_scan. Qed.

(** ** Step 4: runs of whitespace *)

(** One attempt of the whitespace pattern: two whitespace characters and
    all that follow. *)
Lemma exec_whitespace_run : forall prev s,
  exec WHITESPACE_RUN prev s
  = match s with
    | c1 :: c2 :: t =>
        if is_space c1 && is_space c2 then
          Some {| whole := c1 :: c2 :: take_while is_space t; group1 := None |}
        else None
    | _ => None
    end.
Proof.
  intros prev s. unfold exec, WHITESPACE_RUN, AtLeast. cbn [Rep]. rewrite !run_Cat.
  destruct s as [|c1 [|c2 t]]; cbn [run].
  - reflexivity.
  - destruct (is_space c1); reflexivity.
  - destruct (is_space c1); [|reflexivity]. destruct (is_space c2); [|reflexivity].
    cbn [andb]. apply star_greedy_run. do 2 f_equal.
    rewrite <- (take_skip_while is_space t) at 1 3.
    apply (firstn_consumed (c1 :: c2 :: take_while is_space t)).
Qed.

(** The substitution of the whitespace pattern is step 4. *)
Lemma whitespace_scan : forall s,
  (forall prev, replace (txt " ") (scan WHITESPACE_RUN 0 prev s)
                = collapse_whitespace false s)
  /\ (forall prev,
        replace (txt " ")
                (scan WHITESPACE_RUN (List.length (take_while is_space s)) prev s)
        = collapse_whitespace true s).
Proof.
  induction s as [|c s [IH0 IH1]]; split; intro prev.
  - reflexivity.
  - reflexivity.
  - cbn [scan]. rewrite exec_whitespace_run. cbn [collapse_whitespace].
    destruct s as [|d t].
    + destruct (is_space c); reflexivity.
    + destruct (is_space c); cbn [andb].
      * destruct (is_space d) eqn:Ed.
        -- cbn [whole replace List.length]. change (txt " ") with [ch " "].
           cbn [app]. f_equal.
           specialize (IH1 (Some c)). cbn [take_while] in IH1. rewrite Ed in IH1.
           exact IH1.
        -- cbn [replace]. rewrite IH0. reflexivity.
      * cbn [replace]. rewrite IH0. reflexivity.
  - cbn [take_while collapse_whitespace]. destruct (is_space c) eqn:Ec.
    + cbn [List.length scan]. apply IH1.
    + cbn [List.length scan]. rewrite exec_whitespace_run.
      replace (match s with
               | [] => None
               | c2 :: t =>
                   if is_space c && is_space c2
                   then Some {| whole := c :: c2 :: take_while is_space t; group1 := None |}
                   else None
               end) with (@None match_obj) by (destruct s; rewrite ?Ec; reflexivity).
      cbn [replace]. rewrite IH0. reflexivity.
Qed.

Lemma sub_whitespace_run : forall s,
  sub WHITESPACE_RUN (txt " ") s = collapse_whitespace false s.
Proof. intro s. unfold sub. apply whitespace_scan. Qed.

(** ** Step 3: separators at the edges *)

Lemma separator_not_space : forall c, is_separator c = true -> is_space c = false.
Proof.
  intros c H. apply space_cases. unfold is_separator in H.
  rewrite !orb_true_iff, !N.eqb_eq in H. lia.
Qed.

Lemma space_not_separator : forall c, is_space c = true -> is_separator c = false.
Proof.
  intros c H. destruct (is_separator c) eqn:E; [|reflexivity].
  apply separator_not_space in E. congruence.
Qed.

(** Whitespace up to the end of the text, the line break before the end
    included: the greedy class and the end anchor. *)
Lemma star_space_eol : forall (R : Type) (g : str -> option str -> R) v prev cap,
  star_greedy is_space prev v cap
              (fun p s c => run Eol p s c (fun _ s' c' => Some (g s' c')))
  = if forallb is_space v then Some (g [] cap) else None.
Proof.
  intros R g v. induction v as [|c v IH]; intros prev cap; cbn [star_greedy forallb].
  - reflexivity.
  - destruct (is_space c) eqn:Ec; cbn [andb].
    + rewrite IH. destruct (forallb is_space v) eqn:Ev; [reflexivity|].
      destruct v as [|d v]; [discriminate | reflexivity].
    + cbn [run]. destruct v as [|d v]; [|reflexivity].
      destruct (c =? newline)%N eqn:En; [|reflexivity].
      apply N.eqb_eq in En. subst c. discriminate.
Qed.

(** One attempt of the trailing pattern: it takes the rest of the text,
    when that is a separator tail. *)
Lemma exec_trailing : forall prev s,
  exec TRAILING_SEPARATORS prev s
  = if separator_tail s then Some {| whole := s; group1 := None |} else None.
Proof.
  intros prev s. unfold exec, TRAILING_SEPARATORS, Plus. cbn [Cats].
  rewrite run_Cat, run_Star_greedy, star_greedy_commit.
  2:{ intros prev' c s' Hc. rewrite !run_Cat, run_Char_cons.
      rewrite (space_not_separator c Hc). reflexivity. }
  unfold separator_tail. destruct (skip_while is_space s) as [|c t].
  { rewrite !run_Cat. apply run_Char_nil. }
  rewrite !run_Cat, run_Char_cons. destruct (is_separator c); [|reflexivity].
  cbn [andb]. rewrite run_Star_greedy, star_greedy_commit.
  2:{ intros prev' d s' Hd. rewrite run_Cat, run_Star_greedy.
      cbn [star_greedy]. rewrite (separator_not_space d Hd). cbn [run].
      destruct s' as [|e s']; [|reflexivity].
      destruct (d =? newline)%N eqn:En; [|reflexivity].
      apply N.eqb_eq in En. subst d. discriminate. }
  rewrite run_Cat, run_Star_greedy.
  rewrite (star_space_eol _
             (fun s' c' => {| whole := firstn (List.length s - List.length s') s;
                              group1 := c' |})).
  destruct (forallb is_space (skip_while is_separator t)); [|reflexivity].
  cbn [List.length]. rewrite Nat.sub_0_r, firstn_all. reflexivity.
Qed.

(** The substitution of the trailing pattern is the cut of step 3. *)
Lemma sub_trailing : forall s,
  sub TRAILING_SEPARATORS [] s = strip_trailing_separators s.
Proof.
  intro s. unfold sub. generalize (@None char).
  induction s as [|c s IH]; intro prev.
  - reflexivity.
  - cbn [scan strip_trailing_separators]. rewrite exec_trailing.
    destruct (separator_tail (c :: s)).
    + cbn [whole List.length replace app].
      rewrite <- (app_nil_r s) at 2. rewrite scan_skip. reflexivity.
    + cbn [replace]. rewrite IH. reflexivity.
Qed.

(** One attempt of the leading pattern: only at the start of the text. *)
Lemma exec_leading : forall prev s,
  exec LEADING_SEPARATORS prev s
  = match prev with
    | Some _ => None
    | None =>
        match skip_while is_space s with
        | c :: t =>
            if is_separator c then
              Some {| whole := take_while is_space s ++ c :: take_while is_separator t
                               ++ take_while is_space (skip_while is_separator t);
                      group1 := None |}
            else None
        | [] => None
        end
    end.
Proof.
  intros prev s. unfold exec, LEADING_SEPARATORS, Plus. cbn [Cats].
  rewrite run_Cat, run_Bol. destruct prev as [x|]; [reflexivity|].
  rewrite run_Cat, run_Star_greedy, star_greedy_commit.
  2:{ intros prev' c s' Hc. rewrite !run_Cat, run_Char_cons.
      rewrite (space_not_separator c Hc). reflexivity. }
  destruct (skip_while is_space s) as [|c t] eqn:Es.
  { rewrite !run_Cat. apply run_Char_nil. }
  rewrite !run_Cat, run_Char_cons. destruct (is_separator c); [|reflexivity].
  rewrite run_Star_greedy. apply star_greedy_run.
  rewrite run_Star_greedy. apply star_greedy_run. do 2 f_equal.
  apply firstn_split.
  rewrite <- !app_assoc. cbn [app]. rewrite <- !app_assoc.
  rewrite !take_skip_while, <- Es. symmetry. apply take_skip_while.
Qed.

(** Past the start of the text the leading pattern finds nothing. *)
Lemma scan_leading_inside : forall s x,
  replace [] (scan LEADING_SEPARATORS 0 (Some x) s) = s.
Proof.
  induction s as [|c s IH]; intro x.
  - reflexivity.
  - cbn [scan]. rewrite exec_leading. cbn [replace]. rewrite IH. reflexivity.
Qed.

Lemma advance_last : forall m c prev, exists x, advance prev (m ++ [c]) = Some x.
Proof. intros m c prev. rewrite advance_app. simpl. eauto. Qed.

(** The substitution of the leading pattern is the other half of step
    3. *)
Lemma sub_leading : forall s,
  sub LEADING_SEPARATORS [] s = strip_leading_separators s.
Proof.
  intro s. unfold sub, strip_leading_separators.
  pose proof (exec_leading None s) as He.
  destruct (skip_while is_space s) as [|c t] eqn:Es.
  - destruct s as [|d s]; [reflexivity|].
    cbn [scan]. rewrite He. cbn [replace]. rewrite scan_leading_inside. reflexivity.
  - destruct (is_separator c) eqn:Ec.
    + set (m := take_while is_space s ++ c :: take_while is_separator t
                ++ take_while is_space (skip_while is_separator t)) in *.
      set (rest := skip_while is_space (skip_while is_separator t)).
      assert (Hs : s = m ++ rest).
      { unfold m, rest. rewrite <- !app_assoc. cbn [app]. rewrite <- !app_assoc.
        rewrite !take_skip_while, <- Es. symmetry. apply take_skip_while. }
      assert (Hm : m <> []).
      { unfold m. destruct (take_while is_space s); discriminate. }
      rewrite Hs in He |- * at 1.
      rewrite (scan_hit _ _ _ _ _ He eq_refl Hm). cbn [replace app].
      destruct (exists_last Hm) as (m' & y & Hy). rewrite Hy.
      destruct (advance_last m' y None) as [x ->]. apply scan_leading_inside.
    + destruct s as [|d s]; [discriminate|].
      cbn [scan]. rewrite He. cbn [replace]. rewrite scan_leading_inside. reflexivity.
Qed.

(** ** Step 2: the keywords *)

Lemma denotes_LitI : forall l before m after,
  denotes (LitI l) before m after -> Forall2 (fun l c => ci_char l c = true) l m.
Proof.
  induction l as [|c l IH]; intros before m after H; simpl in H.
  - subst. constructor.
  - destruct H as (m1 & m2 & -> & (d & -> & Hd) & H2). constructor; eauto.
Qed.

Lemma denotes_word : forall w before m after,
  denotes (LitI (txt w)) before m after -> spells [w] m.
Proof. intros w before m after H. simpl. now apply denotes_LitI in H. Qed.

Lemma denotes_two_words : forall w1 w2 before m after,
  denotes (Cat (LitI (txt w1)) (Cat ws (LitI (txt w2)))) before m after ->
  spells [w1; w2] m.
Proof.
  intros w1 w2 before m after (v1 & r1 & -> & H1 & blank & v2 & -> & Hb & H2).
  apply denotes_LitI in H1, H2. exists v1, blank, v2. auto.
Qed.

Lemma in_forms : forall words m, In words keyword_forms -> spells words m -> is_keyword m.
Proof. intros words m Hin Hsp. exists words. auto. Qed.

(** What the keyword pattern denotes: a keyword between two word
    boundaries. *)
Lemma keyword_denotes : forall ua before m after,
  denotes (YT_TITLE_KEYWORDS ua) before m after ->
  word_boundary (is_word ua) before (m ++ after)
  /\ is_keyword m
  /\ word_boundary (is_word ua) (advance before m) after.
Proof.
  intros ua before m after H. unfold YT_TITLE_KEYWORDS in H. cbn [Cats Alts] in H.
  destruct H as (m1 & m2 & -> & [-> Hb1] & m3 & m4 & -> & Halt & [-> Hb2]).
  cbn [app advance fold_left] in *. rewrite app_nil_r in *.
  split; [exact Hb1|]. split; [|exact Hb2]. clear Hb1 Hb2.
  destruct Halt as [H|[H|[H|[H|[H|[H|[H|[H|[H|[H|[H|H]]]]]]]]]]].
  - destruct H as (v1 & r1 & -> & H1 & blank & r2 & -> & Hb & o & v3 & -> & [Ho | ->] & H3).
    + destruct Ho as (v2 & blank2 & -> & H2 & Hb2).
      apply denotes_LitI in H1, H2, H3.
      apply (in_forms ["official"; "music"; "video"]%string); [simpl; tauto|].
      exists v1, blank, ((v2 ++ blank2) ++ v3). repeat split; auto.
      exists v2, blank2, v3. rewrite <- app_assoc. auto.
    + apply denotes_LitI in H1, H3.
      apply (in_forms ["official"; "video"]%string); [simpl; tauto|].
      exists v1, blank, v3. auto.
  - apply denotes_two_words in H. refine (in_forms _ _ _ H); simpl; tauto.
  - apply denotes_two_words in H. refine (in_forms _ _ _ H); simpl; tauto.
  - apply denotes_word in H. refine (in_forms _ _ _ H); simpl; tauto.
  - apply denotes_word in H. refine (in_forms _ _ _ H); simpl; tauto.
  - apply denotes_two_words in H. refine (in_forms _ _ _ H); simpl; tauto.
  - apply denotes_two_words in H. refine (in_forms _ _ _ H); simpl; tauto.
  - destruct H as (v1 & o & -> & H1 & [H2 | ->]).
    + apply denotes_LitI in H1, H2.
      apply (in_forms ["remastered"]%string); [simpl; tauto|].
      simpl. unfold same_letters.
      change (txt "remastered") with (txt "remaster" ++ txt "ed").
      now apply Forall2_app.
    + apply denotes_LitI in H1. rewrite app_nil_r.
      apply (in_forms ["remaster"]%string); [simpl; tauto | exact H1].
  - apply denotes_word in H. refine (in_forms _ _ _ H); simpl; tauto.
  - apply denotes_word in H. refine (in_forms _ _ _ H); simpl; tauto.
  - apply denotes_word in H. refine (in_forms _ _ _ H); simpl; tauto.
  - apply denotes_word in H. refine (in_forms _ _ _ H); simpl; tauto.
Qed.

(** Every stretch that step 2 removes is a keyword between two word
    boundaries of the text. *)
Lemma keyword_hits : forall ua s mo,
  In (Hit mo) (scan (YT_TITLE_KEYWORDS ua) 0 None s) ->
  exists pre after,
    s = pre ++ whole mo ++ after
    /\ is_keyword (whole mo)
    /\ word_boundary (is_word ua) (advance None pre) (whole mo ++ after)
    /\ word_boundary (is_word ua) (advance None (pre ++ whole mo)) after.
Proof.
  intros ua s mo Hhit.
  destruct (scan_hits_exec _ _ _ _ _ Hhit) as (pre & post & -> & Hex).
  destruct (exec_denotes _ _ _ _ Hex) as (after & -> & Hden).
  apply keyword_denotes in Hden. destruct Hden as (Hb1 & Hk & Hb2).
  exists pre, after. rewrite advance_app. auto.
Qed.

Section Cleaner.
Variable ua : char -> bool.

(** The cleaner writes characters of the title, and spaces. *)
Lemma cleaned_title_Forall : forall (P : char -> Prop) title,
  Forall P title -> P (ch " ") -> Forall P (cleaned_title ua title).
Proof.
  intros P title Ht Hsp. unfold cleaned_title.
  apply strip_Forall. apply sub_Forall; [|repeat constructor; exact Hsp].
  repeat (apply sub_Forall; [|constructor]). exact Ht.
Qed.

Lemma clean_Forall : forall (P : char -> Prop) title,
  Forall P title -> P (ch " ") -> Forall P (_clean_yt_title ua title).
Proof.
  intros P title Ht Hsp. unfold _clean_yt_title.
  pose proof (cleaned_title_Forall P title Ht Hsp) as H.
  destruct (cleaned_title ua title); [now apply strip_Forall | exact H].
Qed.

Lemma clean_scalar : forall title,
  forallb is_scalar title = true -> forallb is_scalar (_clean_yt_title ua title) = true.
Proof.
  intros title H. apply forallb_forall. rewrite forallb_forall in H.
  pose proof (clean_Forall (fun c => is_scalar c = true) title) as HF.
  rewrite !Forall_forall in HF. apply HF; [exact H | reflexivity].
Qed.

(** A title of whitespace is cleaned to nothing. *)
Lemma cleaned_title_blank : forall title,
  forallb is_space title = true -> cleaned_title ua title = [].
Proof.
  intros title H.
  pose proof (cleaned_title_Forall (fun c => is_space c = true) title) as HF.
  unfold cleaned_title in *. apply strip_nil_iff.
  assert (Hall : Forall (fun c => is_space c = true) title).
  { apply Forall_forall. now apply forallb_forall. }
  specialize (HF Hall eq_refl). unfold strip, rstrip in HF.
  apply forallb_forall. rewrite Forall_forall in HF.
  intros c Hc.
  set (t := sub WHITESPACE_RUN (txt " ")
              (sub LEADING_SEPARATORS []
                 (sub TRAILING_SEPARATORS []
                    (sub (YT_TITLE_KEYWORDS ua) [] (sub YT_TITLE_NOISE [] title))))) in *.
  assert (Ht : Forall (fun c => is_space c = true) t).
  { unfold t. apply sub_Forall; [|repeat constructor].
    repeat (apply sub_Forall; [|constructor]). exact Hall. }
  rewrite Forall_forall in Ht. now apply Ht.
Qed.

End Cleaner.
(* ===================================================================== *)
(** * Reading keywords without the pattern *)
(* ===================================================================== *)

(** ** The letters *)

Lemma ci_cases : forall l c,
  ci_char l c = true ->
  (c = l \/ (is_lower_az l = true /\ c = l - 32)
   \/ (l = 0x69 /\ (c = 0x130 \/ c = 0x131))
   \/ (l = 0x73 /\ c = 0x17F) \/ (l = 0x6B /\ c = 0x212A))%N.
Proof.
  intros l c H. unfold ci_char in H.
  rewrite !orb_true_iff, !andb_true_iff, !orb_true_iff, !N.eqb_eq in H. tauto.
Qed.

Lemma keyword_letter_cases : forall l,
  is_keyword_letter l = true -> ((0x61 <= l <= 0x7A) \/ (0x30 <= l <= 0x39))%N.
Proof.
  intros l H. unfold is_keyword_letter, is_lower_az, is_digit_09, in_range in H.
  rewrite !orb_true_iff, !andb_true_iff, !N.leb_le in H. exact H.
Qed.

Lemma lower_cases : forall l, is_lower_az l = true -> (0x61 <= l <= 0x7A)%N.
Proof.
  intros l H. unfold is_lower_az, in_range in H.
  rewrite !andb_true_iff, !N.leb_le in H. exact H.
Qed.

(** A character is a form of one letter only. *)
Lemma ci_differs : forall l0 l c,
  ci_char l0 c = true -> is_keyword_letter l0 = true -> is_keyword_letter l = true ->
  (l =? l0)%N = false -> ci_char l c = false.
Proof.
  intros l0 l c H0 Hl0 Hl Hne. apply N.eqb_neq in Hne.
  destruct (ci_char l c) eqn:H; [exfalso|reflexivity].
  apply ci_cases in H0, H. apply keyword_letter_cases in Hl0, Hl.
  destruct H0 as [H0|[[L0 H0]|[[H0 H0']|[[H0 H0']|[H0 H0']]]]];
    destruct H as [H|[[L H]|[[H H']|[[H H']|[H H']]]]];
    try apply lower_cases in L0; try apply lower_cases in L; lia.
Qed.

(** No form of a letter is whitespace. *)
Lemma ci_not_space : forall l c,
  ci_char l c = true -> is_keyword_letter l = true -> is_space c = false.
Proof.
  intros l c H Hl. apply space_cases. apply ci_cases in H.
  apply keyword_letter_cases in Hl.
  destruct H as [H|[[L H]|[[H H']|[[H H']|[H H']]]]];
    try apply lower_cases in L; lia.
Qed.

Lemma space_not_ci : forall l c,
  is_space c = true -> is_keyword_letter l = true -> ci_char l c = false.
Proof.
  intros l c Hc Hl. destruct (ci_char l c) eqn:H; [|reflexivity].
  rewrite (ci_not_space l c H Hl) in Hc. discriminate.
Qed.

(** The forms of a letter other than i, s and k are ASCII letters and
    digits: word characters. *)
Lemma ci_word : forall ua l c,
  ci_char l c = true -> is_keyword_letter l = true -> has_wide_form l = false ->
  is_word ua c = true.
Proof.
  intros ua l c H Hl Hw. unfold has_wide_form in Hw.
  rewrite !orb_false_iff, !N.eqb_neq in Hw. destruct Hw as [[Hi Hs] Hk].
  apply ci_cases in H. apply keyword_letter_cases in Hl.
  assert (Hc : ((0x61 <= c <= 0x7A) \/ (0x41 <= c <= 0x5A) \/ (0x30 <= c <= 0x39))%N).
  { destruct H as [H|[[L H]|[[H H']|[[H H']|[H H']]]]];
      try apply lower_cases in L; lia. }
  unfold is_word. replace (c <? 128)%N with true by (symmetry; apply N.ltb_lt; lia).
  apply alnum_cases in Hc. rewrite Hc. reflexivity.
Qed.

(** ** Reading a word *)

Lemma read_word_sound : forall w s m r,
  read_word w s = Some (m, r) ->
  s = m ++ r /\ Forall2 (fun l c => ci_char l c = true) w m.
Proof.
  induction w as [|l w IH]; intros s m r H; simpl in H.
  - injection H as <- <-. split; [reflexivity|constructor].
  - destruct s as [|c s]; [discriminate|].
    destruct (ci_char l c) eqn:Hc; [|discriminate].
    destruct (read_word w s) as [[m' r']|] eqn:Hw; [|discriminate].
    injection H as <- <-. destruct (IH _ _ _ Hw) as [-> HF].
    split; [reflexivity|]. constructor; assumption.
Qed.

Lemma read_word_complete : forall w m r,
  Forall2 (fun l c => ci_char l c = true) w m -> read_word w (m ++ r) = Some (m, r).
Proof.
  intros w m r H. induction H as [|l c w m Hc H IH]; simpl.
  - reflexivity.
  - rewrite Hc, IH. reflexivity.
Qed.

Lemma read_word_app : forall w1 w2 s,
  read_word (w1 ++ w2) s
  = match read_word w1 s with
    | Some (m1, r1) =>
        match read_word w2 r1 with
        | Some (m2, r2) => Some (m1 ++ m2, r2)
        | None => None
        end
    | None => None
    end.
Proof.
  induction w1 as [|l w1 IH]; intros w2 s; simpl.
  - destruct (read_word w2 s) as [[m2 r2]|]; reflexivity.
  - destruct s as [|c s]; [reflexivity|].
    destruct (ci_char l c); [|reflexivity].
    rewrite IH. destruct (read_word w1 s) as [[m1 r1]|]; [|reflexivity].
    destruct (read_word w2 r1) as [[m2 r2]|]; reflexivity.
Qed.

(** A word does not begin with whitespace. *)
Lemma read_word_space : forall l w c s,
  is_keyword_letter l = true -> is_space c = true -> read_word (l :: w) (c :: s) = None.
Proof. intros l w c s Hl Hc. simpl. rewrite (space_not_ci l c Hc Hl). reflexivity. Qed.

(** ** Reading the words of a keyword *)

Lemma read_words_sound : forall words s m r,
  read_words (List.map txt words) s = Some (m, r) -> s = m ++ r /\ spells words m.
Proof.
  induction words as [|w words IH]; intros s m r H; cbn [read_words List.map] in H.
  - injection H as <- <-. split; reflexivity.
  - destruct (read_word (txt w) s) as [[v r1]|] eqn:Hw; [|discriminate].
    apply read_word_sound in Hw. destruct Hw as [-> Hv].
    destruct words as [|w2 words].
    + injection H as <- <-. split; [reflexivity | exact Hv].
    + cbn [List.map] in H, IH.
      destruct (read_words (txt w2 :: List.map txt words) (skip_while is_space r1))
        as [[m' r']|] eqn:Hr; [|discriminate].
      injection H as <- <-. destruct (IH _ _ _ Hr) as [Hs Hsp]. split.
      * rewrite <- !app_assoc, <- Hs, take_skip_while. reflexivity.
      * exists v, (take_while is_space r1), m'. repeat split; try assumption.
        apply take_while_all.
Qed.

Lemma take_while_blank : forall (p : char -> bool) b s,
  forallb p b = true -> match s with [] => True | c :: _ => p c = false end ->
  take_while p (b ++ s) = b /\ skip_while p (b ++ s) = s.
Proof.
  intros p b s Hb Hs. induction b as [|c b IH]; simpl.
  - destruct s as [|c s]; [split; reflexivity|]. simpl. rewrite Hs. split; reflexivity.
  - simpl in Hb. apply andb_prop in Hb. destruct Hb as [Hc Hb]. rewrite Hc.
    destruct (IH Hb) as [-> ->]. split; reflexivity.
Qed.

Lemma spells_head : forall words m,
  lettered words = true -> words <> [] -> spells words m ->
  exists c m', m = c :: m' /\ is_space c = false.
Proof.
  intros [|w words] m Hl Hne Hsp; [congruence|].
  cbn [lettered forallb] in Hl. apply andb_prop in Hl. destruct Hl as [Hw _].
  assert (Hv : forall v, same_letters w v -> exists c v', v = c :: v' /\ is_space c = false).
  { intros v Hv. unfold same_letters in Hv. destruct (txt w) as [|l t]; [discriminate|].
    inversion Hv as [|? c ? v' Hc ?]; subst. exists c, v'. split; [reflexivity|].
    exact (ci_not_space l c Hc Hw). }
  destruct words as [|w2 words].
  - exact (Hv m Hsp).
  - destruct Hsp as (v & blank & rest & -> & Hsv & _).
    destruct (Hv v Hsv) as (c & v' & -> & Hc). exists c, (v' ++ blank ++ rest). auto.
Qed.

Lemma read_words_complete : forall words m after,
  lettered words = true -> spells words m ->
  read_words (List.map txt words) (m ++ after) = Some (m, after).
Proof.
  induction words as [|w words IH]; intros m after Hl Hsp.
  - simpl in Hsp. subst m. reflexivity.
  - cbn [read_words List.map]. destruct words as [|w2 words].
    + simpl in Hsp. rewrite (read_word_complete _ _ _ Hsp). reflexivity.
    + destruct Hsp as (v & blank & rest & -> & Hv & Hb & Hrest).
      rewrite <- app_assoc. rewrite (read_word_complete _ _ _ Hv).
      cbn [List.map]. cbn [lettered forallb] in Hl. apply andb_prop in Hl.
      destruct Hl as [_ Hl].
      destruct (spells_head (w2 :: words) rest Hl) as (c & rest' & Hc & Hsp);
        [discriminate | exact Hrest |].
      destruct (take_while_blank is_space blank ((rest ++ after)) Hb) as [Ht Hs].
      { rewrite Hc. simpl. exact Hsp. }
      rewrite <- app_assoc. rewrite Ht, Hs.
      change (txt w2 :: List.map txt words) with (List.map txt (w2 :: words)).
      rewrite (IH rest after Hl Hrest). reflexivity.
Qed.

(** ** The pattern and the reader *)

Section ReaderFacts.
Variable R : Type.
Implicit Types (k : cont R) (s : str).

Lemma run_WordB : forall w prev s cap k,
  run (WordB w) prev s cap k
  = if xorb (at_word w prev) (at_word w (hd_error s)) then k prev s cap else None.
Proof. reflexivity. Qed.

Lemma run_Alt : forall r1 r2 prev s cap k,
  run (Alt r1 r2) prev s cap k
  = match run r1 prev s cap k with
    | Some x => Some x
    | None => run r2 prev s cap k
    end.
Proof. reflexivity. Qed.

Lemma run_LitI_read : forall w prev s cap k,
  run (LitI w) prev s cap k
  = match read_word w s with
    | Some (m, r) => k (advance prev m) r cap
    | None => None
    end.
Proof.
  induction w as [|l w IH]; intros prev s cap k.
  - reflexivity.
  - cbn [LitI read_word]. rewrite run_Cat. destruct s as [|c s]; [reflexivity|].
    rewrite run_Char_cons. destruct (ci_char l c); [|reflexivity].
    rewrite IH. destruct (read_word w s) as [[m r]|]; reflexivity.
Qed.

(** Between two words the pattern has no choice: the word after the
    whitespace does not begin with whitespace. *)
Lemma run_ws : forall r prev s cap k,
  (forall prev' c s', is_space c = true -> run r prev' (c :: s') cap k = None) ->
  run (Cat ws r) prev s cap k
  = run r (advance prev (take_while is_space s)) (skip_while is_space s) cap k.
Proof.
  intros r prev s cap k H. rewrite run_Cat. unfold ws. rewrite run_Star_greedy.
  apply star_greedy_commit. exact H.
Qed.

Lemma run_LitI_space : forall l w prev c s cap k,
  is_keyword_letter l = true -> is_space c = true ->
  run (LitI (l :: w)) prev (c :: s) cap k = None.
Proof.
  intros l w prev c s cap k Hl Hc. rewrite run_LitI_read, read_word_space by assumption.
  reflexivity.
Qed.

Lemma run_one_word : forall w prev s cap k,
  run (LitI w) prev s cap k = after_reading [w] prev s cap k.
Proof.
  intros. rewrite run_LitI_read. unfold after_reading. cbn [read_words].
  destruct (read_word w s) as [[m r]|]; reflexivity.
Qed.

Lemma run_ws_word : forall w prev s cap k,
  match w with l :: _ => is_keyword_letter l | [] => false end = true ->
  run (Cat ws (LitI w)) prev s cap k
  = match read_word w (skip_while is_space s) with
    | Some (m, r) => k (advance prev (take_while is_space s ++ m)) r cap
    | None => None
    end.
Proof.
  intros [|l w] prev s cap k Hl; [discriminate|]. rewrite run_ws.
  - rewrite run_LitI_read.
    destruct (read_word (l :: w) (skip_while is_space s)) as [[m r]|]; [|reflexivity].
    rewrite advance_app. reflexivity.
  - intros prev' c s' Hc. now apply run_LitI_space.
Qed.

Lemma run_two_words : forall w1 w2 prev s cap k,
  match w2 with l :: _ => is_keyword_letter l | [] => false end = true ->
  run (Cat (LitI w1) (Cat ws (LitI w2))) prev s cap k
  = after_reading [w1; w2] prev s cap k.
Proof.
  intros w1 w2 prev s cap k Hl. rewrite run_Cat, run_LitI_read.
  unfold after_reading. cbn [read_words].
  destruct (read_word w1 s) as [[m1 r1]|]; [|reflexivity].
  rewrite run_ws_word by exact Hl.
  destruct (read_word w2 (skip_while is_space r1)) as [[m2 r2]|]; [|reflexivity].
  rewrite !advance_app. reflexivity.
Qed.

(** The first alternative: with the optional word, then without it. *)
Lemma run_optional_word : forall w1 w2 w3 prev s cap k,
  match w2 with l :: _ => is_keyword_letter l | [] => false end = true ->
  match w3 with l :: _ => is_keyword_letter l | [] => false end = true ->
  run (Cat (LitI w1) (Cat ws (Cat (Opt (Cat (LitI w2) ws)) (LitI w3))))
      prev s cap k
  = match after_reading [w1; w2; w3] prev s cap k with
    | Some x => Some x
    | None => after_reading [w1; w3] prev s cap k
    end.
Proof.
  intros w1 w2 w3 prev s cap k H2 H3. rewrite run_Cat, run_LitI_read.
  unfold after_reading. cbn [read_words].
  destruct (read_word w1 s) as [[m1 r1]|]; [|reflexivity].
  rewrite run_ws.
  - rewrite run_Cat. unfold Opt. rewrite run_Alt.
    rewrite (run_Cat _ (LitI w2) ws). rewrite run_LitI_read.
    change (run Empty (advance (advance prev m1) (take_while is_space r1))
              (skip_while is_space r1) cap
              (fun prev' s' cap' => run (LitI w3) prev' s' cap' k))
      with (run (LitI w3) (advance (advance prev m1) (take_while is_space r1))
              (skip_while is_space r1) cap k).
    rewrite (run_LitI_read w3).
    destruct (read_word w2 (skip_while is_space r1)) as [[m2 r2]|].
    + change (run ws (advance (advance (advance prev m1) (take_while is_space r1)) m2) r2 cap
                (fun prev' s' cap' => run (LitI w3) prev' s' cap' k))
        with (run (Cat ws (LitI w3))
                  (advance (advance (advance prev m1) (take_while is_space r1)) m2) r2 cap k).
      rewrite run_ws_word by exact H3.
      destruct (read_word w3 (skip_while is_space r2)) as [[m3 r3]|].
      * rewrite !advance_app.
        destruct (k _ r3 cap); [reflexivity|].
        destruct (read_word w3 (skip_while is_space r1)) as [[m3' r3']|];
          [|reflexivity].
        rewrite !advance_app. reflexivity.
      * destruct (read_word w3 (skip_while is_space r1)) as [[m3' r3']|];
          [|reflexivity].
        rewrite !advance_app. reflexivity.
    + destruct (read_word w3 (skip_while is_space r1)) as [[m3' r3']|];
        [|reflexivity].
      rewrite !advance_app. reflexivity.
  - intros prev' c s' Hc. rewrite run_Cat. unfold Opt. rewrite run_Alt.
    rewrite (run_Cat _ (LitI w2) ws). rewrite run_LitI_read.
    destruct w2 as [|l2 w2]; [discriminate|]. destruct w3 as [|l3 w3]; [discriminate|].
    rewrite read_word_space by assumption.
    change (run Empty prev' (c :: s') cap
              (fun prev'0 s'0 cap' => run (LitI (l3 :: w3)) prev'0 s'0 cap' k))
      with (run (LitI (l3 :: w3)) prev' (c :: s') cap k).
    now apply run_LitI_space.
Qed.

(** The optional ending. *)
Lemma run_optional_ending : forall w1 w2 prev s cap k,
  run (Cat (LitI w1) (Opt (LitI w2))) prev s cap k
  = match after_reading [w1 ++ w2] prev s cap k with
    | Some x => Some x
    | None => after_reading [w1] prev s cap k
    end.
Proof.
  intros w1 w2 prev s cap k. rewrite run_Cat, run_LitI_read.
  unfold after_reading. cbn [read_words]. rewrite read_word_app.
  destruct (read_word w1 s) as [[m1 r1]|]; [|reflexivity].
  unfold Opt. rewrite run_Alt, run_LitI_read.
  destruct (read_word w2 r1) as [[m2 r2]|]; [|reflexivity].
  rewrite advance_app. reflexivity.
Qed.

End ReaderFacts.

(** ** One attempt of the keyword pattern *)

Lemma orelse_none : forall (A : Type) (a : option A),
  match a with Some x => Some x | None => None end = a.
Proof. intros A [x|]; reflexivity. Qed.

Section KeywordAttempt.
Variable ua : char -> bool.
Variable prev : option char.
Variable s : str.

(** The end of the pattern, after the alternatives: the second word
    boundary, and the match that [exec] builds. *)
Let closing : cont match_obj :=
  fun prev' s' cap' =>
    run (WordB (is_word ua)) prev' s' cap'
        (fun _ s'' cap'' =>
           Some {| whole := firstn (List.length s - List.length s'') s; group1 := cap'' |}).

Lemma first_keyword_cons : forall words forms,
  match first_keyword (is_word ua) prev (words :: forms) s with
  | Some m => Some {| whole := m; group1 := None |}
  | None => None
  end
  = match after_reading (List.map txt words) prev s None closing with
    | Some x => Some x
    | None =>
        match first_keyword (is_word ua) prev forms s with
        | Some m => Some {| whole := m; group1 := None |}
        | None => None
        end
    end.
Proof.
  intros words forms. cbn [first_keyword]. unfold after_reading.
  destruct (read_words (List.map txt words) s) as [[m r]|] eqn:Hr; [|reflexivity].
  apply read_words_sound in Hr. destruct Hr as [Hs _].
  unfold closing. cbn [run].
  destruct (xorb (at_word (is_word ua) (advance prev m)) (at_word (is_word ua) (hd_error r)));
    [|reflexivity].
  rewrite (firstn_split s m r Hs). reflexivity.
Qed.

(** The pattern at a place of the text finds what the reader finds
    there. *)
Lemma exec_keywords :
  exec (YT_TITLE_KEYWORDS ua) prev s
  = match keyword_at (is_word ua) prev s with
    | Some m => Some {| whole := m; group1 := None |}
    | None => None
    end.
Proof.
  unfold exec, YT_TITLE_KEYWORDS, keyword_at. cbn [Cats Alts].
  rewrite run_Cat, run_WordB.
  destruct (xorb (at_word (is_word ua) prev) (at_word (is_word ua) (hd_error s)));
    [|reflexivity].
  rewrite run_Cat. fold closing. rewrite !run_Alt.
  rewrite (run_optional_word match_obj) by reflexivity.
  rewrite !(run_two_words match_obj) by reflexivity.
  rewrite (run_optional_ending match_obj).
  rewrite !(run_one_word match_obj).
  unfold keyword_tries. rewrite !first_keyword_cons. cbn [first_keyword].
  rewrite orelse_none. cbn [List.map].
  change (txt "remaster" ++ txt "ed") with (txt "remastered").
  cbv delta [str char].
  repeat (match goal with
          | |- context [@after_reading ?A ?f ?p ?t ?c ?k] =>
              generalize (@after_reading A f p t c k); intros [x|]
          end; try reflexivity).
Qed.

End KeywordAttempt.

(** ** Keywords that stand in a text *)

Lemma forms_lettered : forall f, In f keyword_forms -> lettered f = true.
Proof.
  assert (H : forallb lettered keyword_forms = true) by reflexivity.
  intros f Hf. rewrite forallb_forall in H. exact (H f Hf).
Qed.

Lemma tries_are_forms : forall f, In f keyword_tries <-> In f keyword_forms.
Proof. intro f. unfold keyword_tries, keyword_forms. cbn [In]. tauto. Qed.

(** A keyword at the start of a text is read there by its form. *)
Lemma keyword_reads : forall m after,
  is_keyword m ->
  exists f, In f keyword_forms /\ read_words (List.map txt f) (m ++ after) = Some (m, after).
Proof.
  intros m after (f & Hin & Hsp). exists f. split; [exact Hin|].
  apply read_words_complete; [now apply forms_lettered | exact Hsp].
Qed.

Lemma keyword_head : forall m,
  is_keyword m -> exists c m', m = c :: m' /\ is_space c = false.
Proof.
  intros m (f & Hin & Hsp). apply (spells_head f m); [now apply forms_lettered | | exact Hsp].
  intros ->. revert Hin. unfold keyword_forms. cbn [In].
  intuition discriminate.
Qed.

(** What the reader finds is a keyword between two word boundaries. *)
Lemma first_keyword_sound : forall w prev forms s m,
  first_keyword w prev forms s = Some m ->
  exists f r, In f forms /\ read_words (List.map txt f) s = Some (m, r)
              /\ xorb (at_word w (advance prev m)) (at_word w (hd_error r)) = true.
Proof.
  intros w prev forms s m. induction forms as [|f forms IH]; cbn [first_keyword]; intro H.
  - discriminate.
  - destruct (read_words (List.map txt f) s) as [[m' r]|] eqn:Hr.
    + destruct (xorb (at_word w (advance prev m')) (at_word w (hd_error r))) eqn:Hb.
      * injection H as <-. exists f, r. repeat split; [left; reflexivity | exact Hr | exact Hb].
      * destruct (IH H) as (f' & r' & Hin & H').
        exists f', r'. split; [right; exact Hin | exact H'].
    + destruct (IH H) as (f' & r' & Hin & H').
      exists f', r'. split; [right; exact Hin | exact H'].
Qed.

(** Where a form can be read up to a word boundary the reader finds
    something. *)
Lemma first_keyword_finds : forall w prev forms s f m r,
  In f forms -> read_words (List.map txt f) s = Some (m, r) ->
  xorb (at_word w (advance prev m)) (at_word w (hd_error r)) = true ->
  exists m', first_keyword w prev forms s = Some m'.
Proof.
  intros w prev forms s f m r. induction forms as [|f' forms IH]; intros Hin Hr Hb.
  - contradiction.
  - cbn [first_keyword].
    destruct (read_words (List.map txt f') s) as [[m' r']|] eqn:Hr'.
    + destruct (xorb (at_word w (advance prev m')) (at_word w (hd_error r'))) eqn:Hb';
        [eauto|].
      destruct Hin as [->|Hin]; [|now apply IH].
      rewrite Hr in Hr'. injection Hr' as <- <-. congruence.
    + destruct Hin as [->|Hin]; [congruence | now apply IH].
Qed.

Lemma keyword_at_sound : forall ua prev s m,
  keyword_at (is_word ua) prev s = Some m ->
  exists after,
    s = m ++ after /\ is_keyword m
    /\ word_boundary (is_word ua) prev s
    /\ word_boundary (is_word ua) (advance prev m) after.
Proof.
  intros ua prev s m H. unfold keyword_at in H.
  destruct (xorb (at_word (is_word ua) prev) (at_word (is_word ua) (hd_error s))) eqn:Hb;
    [|discriminate].
  destruct (first_keyword_sound _ _ _ _ _ H) as (f & r & Hin & Hr & Hb').
  apply read_words_sound in Hr. destruct Hr as [Hs Hsp].
  exists r. repeat split; try assumption.
  exists f. split; [now apply tries_are_forms | exact Hsp].
Qed.

Lemma keyword_at_finds : forall ua prev m after,
  is_keyword m ->
  word_boundary (is_word ua) prev (m ++ after) ->
  word_boundary (is_word ua) (advance prev m) after ->
  exists m', keyword_at (is_word ua) prev (m ++ after) = Some m'.
Proof.
  intros ua prev m after Hk Hb1 Hb2. unfold keyword_at.
  unfold word_boundary in Hb1. rewrite Hb1.
  destruct (keyword_reads m after Hk) as (f & Hin & Hr).
  apply (first_keyword_finds _ _ _ _ f m after); [now apply tries_are_forms | exact Hr |].
  exact Hb2.
Qed.

(** ** Keywords inside keywords *)

Lemma short_by_reading : forall ua prev s n,
  (forall f m after,
      In f keyword_forms -> read_words (List.map txt f) s = Some (m, after) ->
      word_boundary (is_word ua) prev s -> List.length m <= n) ->
  short_keywords ua prev s n.
Proof.
  intros ua prev s n H m after Hs Hk Hb.
  destruct (keyword_reads m after Hk) as (f & Hin & Hr).
  rewrite <- Hs in Hr. exact (H f m after Hin Hr Hb).
Qed.

Lemma short_at_space : forall ua prev c s n,
  is_space c = true -> short_keywords ua prev (c :: s) n.
Proof.
  intros ua prev c s n Hc m after Hs Hk _.
  destruct (keyword_head m Hk) as (d & m' & -> & Hd).
  injection Hs as -> _. congruence.
Qed.

Lemma covers_blank : forall ua b prev rest extra,
  forallb is_space b = true -> covers ua prev b rest extra.
Proof.
  intros ua b. induction b as [|c b IH]; intros prev rest extra Hb; cbn [covers].
  - exact I.
  - cbn [forallb] in Hb. apply andb_prop in Hb. destruct Hb as [Hc Hb].
    split; [now apply short_at_space | now apply IH].
Qed.

Lemma covers_app : forall ua u v prev rest extra,
  covers ua prev u (v ++ rest) (List.length v + extra) ->
  covers ua (advance prev u) v rest extra ->
  covers ua prev (u ++ v) rest extra.
Proof.
  intros ua u. induction u as [|c u IH]; intros v prev rest extra Hu Hv.
  - exact Hv.
  - cbn [covers app] in *. destruct Hu as [Hs Hu]. split.
    + rewrite <- app_assoc. cbn [List.length] in *. rewrite length_app.
      replace (S (List.length u + List.length v) + extra)
        with (S (List.length u) + (List.length v + extra)) by lia.
      exact Hs.
    + apply IH; assumption.
Qed.
(* ===================================================================== *)
(** * Keywords do not run over one another *)
(* ===================================================================== *)

Lemma spell_cons : forall (P : char -> char -> Prop) l L v,
  Forall2 P (l :: L) v -> exists c v', v = c :: v' /\ P l c /\ Forall2 P L v'.
Proof. intros P l L v H. inversion H; subst. eauto. Qed.

Lemma spell_nil : forall (P : char -> char -> Prop) v, Forall2 P [] v -> v = [].
Proof. intros P v H. now inversion H. Qed.

(** The letters of a word, one hypothesis for each. *)
Ltac spell H :=
  unfold same_letters in H;
  match type of H with
  | Forall2 _ ?w _ => let t := eval vm_compute in w in change w with t in H
  end;
  repeat match type of H with
         | Forall2 _ (_ :: _) _ =>
             let c := fresh "c" in
             let v := fresh "v" in
             let Hc := fresh "Hc" in
             apply spell_cons in H; destruct H as (c & v & -> & Hc & H)
         end;
  apply spell_nil in H; subst.

(** Two word characters side by side are no word boundary. *)
Ltac no_boundary H :=
  unfold word_boundary in H; cbn [at_word hd_error app] in H;
  match type of H with
  | xorb (is_word ?ua ?a) (is_word ?ua ?b) = true =>
      match goal with
      | Ha : ci_char ?la a = true, Hb : ci_char ?lb b = true |- _ =>
          rewrite (ci_word ua la a Ha eq_refl eq_refl),
                  (ci_word ua lb b Hb eq_refl eq_refl) in H;
          discriminate H
      end
  end.

(** One step of reading a form on a text whose letters are known. *)
Ltac read_step Hg Htrail :=
  first
    [ progress (cbn [read_words read_word app] in Hg)
    | match type of Hg with
      | context [ci_char ?l ?c] =>
          match goal with
          | H : ci_char l c = true |- _ => rewrite H in Hg
          | H : ci_char ?l0 c = true |- _ =>
              rewrite (ci_differs l0 l c H eq_refl eq_refl eq_refl) in Hg
          | H : is_space c = true |- _ => rewrite (space_not_ci l c H eq_refl) in Hg
          end
      end
    | match type of Hg with
      | context [skip_while is_space (?b ++ ?d :: ?r)] =>
          match goal with
          | Hb : forallb is_space b = true, Hd : ci_char ?l d = true |- _ =>
              let Ht := fresh "Ht" in
              let Hs := fresh "Hs" in
              destruct (take_while_blank is_space b (d :: r) Hb
                          (ci_not_space l d Hd eq_refl)) as [Ht Hs];
              rewrite ?Ht, ?Hs in Hg; clear Ht Hs
          end
      | context [skip_while is_space (?d :: ?r)] =>
          match goal with
          | Hd : ci_char ?l d = true |- _ =>
              cbn [skip_while take_while] in Hg;
              rewrite (ci_not_space l d Hd eq_refl) in Hg
          end
      end
    | match type of Hg with
      | context [match ?b ++ _ with [] => _ | _ :: _ => _ end] =>
          match goal with
          | Hb : forallb is_space b = true |- _ =>
              let b0 := fresh "b" in
              let Hb0 := fresh "Hb" in
              destruct b as [|b0 b];
              [ | cbn [forallb] in Hb; apply andb_prop in Hb; destruct Hb as [Hb0 Hb] ]
          end
      | context [match ?x with [] => _ | _ :: _ => _ end] =>
          is_var x;
          let a := fresh "a" in destruct x as [|a x]
      end
    | match type of Hg with
      | context [ci_char ?l ?c] =>
          let E := fresh "E" in
          destruct (ci_char l c) eqn:E; [try (exfalso; no_boundary Htrail)|]
      end ].

Ltac read_form Hg Htrail :=
  match type of Hg with
  | read_words ?ws _ = _ => let t := eval vm_compute in ws in change ws with t in Hg
  end;
  repeat read_step Hg Htrail;
  first
    [ discriminate Hg
    | injection Hg as <- <-; cbn [List.length app]; rewrite ?length_app;
      cbn [List.length]; lia
    | idtac ].

(** One place of a keyword: a word boundary before it, and any of the
    forms read from it. *)
Ltac place Htrail :=
  rewrite <- ?app_assoc; cbn [app];
  apply short_by_reading;
  let g := fresh "g" in
  let m := fresh "m" in
  let after := fresh "after" in
  let Hin := fresh "Hin" in
  let Hg := fresh "Hg" in
  let Hlead := fresh "Hlead" in
  intros g m after Hin Hg Hlead;
  first
    [ exfalso; no_boundary Hlead
    | clear Hlead; unfold keyword_forms in Hin; cbn [In] in Hin;
      repeat (destruct Hin as [<-|Hin]; [read_form Hg Htrail|]);
      try contradiction ].

Ltac cover_word Htrail := cbn [covers]; repeat split; place Htrail.

Ltac cover_form Hsp Htrail :=
  cbn [spells] in Hsp;
  lazymatch type of Hsp with
  | same_letters _ _ =>
      spell Hsp; cbn [advance fold_left] in Htrail; cover_word Htrail
  | exists v b r, _ = v ++ b ++ r /\ same_letters _ v /\ _ /\ same_letters _ r =>
      let v1 := fresh "v" in
      let b1 := fresh "blank" in
      let v2 := fresh "v" in
      let H1 := fresh "H" in
      let Hb1 := fresh "Hblank" in
      let H2 := fresh "H" in
      destruct Hsp as (v1 & b1 & v2 & -> & H1 & Hb1 & H2);
      spell H1; spell H2;
      rewrite !advance_app in Htrail; cbn [advance fold_left] in Htrail;
      apply covers_app; [|apply covers_app; [now apply covers_blank|]];
      cover_word Htrail
  | _ =>
      let v1 := fresh "v" in
      let b1 := fresh "blank" in
      let r1 := fresh "r" in
      let H1 := fresh "H" in
      let Hb1 := fresh "Hblank" in
      let v2 := fresh "v" in
      let b2 := fresh "blank" in
      let v3 := fresh "v" in
      let H2 := fresh "H" in
      let Hb2 := fresh "Hblank" in
      let H3 := fresh "H" in
      destruct Hsp as (v1 & b1 & r1 & -> & H1 & Hb1 & v2 & b2 & v3 & -> & H2 & Hb2 & H3);
      spell H1; spell H2; spell H3;
      rewrite !advance_app in Htrail; cbn [advance fold_left] in Htrail;
      apply covers_app;
      [|apply covers_app;
        [now apply covers_blank
        |apply covers_app; [|apply covers_app; [now apply covers_blank|]]]];
      cover_word Htrail
  end.

(** From every place of a keyword that stands in the text as a whole
    word, the keywords that stand there as whole words end within it. *)
Lemma keyword_covers : forall ua f prev m0 after0,
  In f keyword_forms -> spells f m0 ->
  word_boundary (is_word ua) (advance prev m0) after0 ->
  covers ua prev m0 after0 0.
Proof.
  intros ua f prev m0 after0 Hin Hsp Htrail.
  unfold keyword_forms in Hin. cbn [In] in Hin.
  repeat (destruct Hin as [<-|Hin]; [cover_form Hsp Htrail|]); try contradiction.
Qed.
(* ===================================================================== *)
(** * What step 2 of the cleaner keeps *)
(* ===================================================================== *)

(** ** The flags of a substitution *)

Lemma kept_mask_length : forall r s skip prev,
  List.length (kept_mask r skip prev s) = List.length s.
Proof.
  intros r s. induction s as [|c s IH]; intros skip prev; cbn [kept_mask].
  - reflexivity.
  - destruct skip as [|n]; [|cbn [List.length]; now rewrite IH].
    destruct (exec r prev (c :: s)) as [mo|];
      [destruct (List.length (whole mo))|]; cbn [List.length]; now rewrite IH.
Qed.

(** The substitution by the empty string writes the characters that are
    flagged. *)
Lemma select_kept_mask : forall r s skip prev,
  select (kept_mask r skip prev s) s = replace [] (scan r skip prev s).
Proof.
  intros r s. induction s as [|c s IH]; intros skip prev.
  - destruct skip; cbn [kept_mask scan select]; [|reflexivity].
    destruct (exec r prev []); reflexivity.
  - destruct skip as [|n]; cbn [kept_mask scan select]; [|apply IH].
    destruct (exec r prev (c :: s)) as [mo|].
    + destruct (List.length (whole mo)); cbn [select replace app]; now rewrite IH.
    + cbn [select replace]. now rewrite IH.
Qed.

(** The characters of a match are not kept. *)
Lemma kept_mask_skipped : forall r s skip prev i,
  i < skip -> i < List.length s -> nth i (kept_mask r skip prev s) true = false.
Proof.
  intros r s. induction s as [|c s IH]; intros skip prev i Hi Hl; cbn [List.length] in Hl.
  - lia.
  - destruct skip as [|n]; [lia|]. cbn [kept_mask].
    destruct i as [|i]; [reflexivity|]. cbn [nth]. apply IH; lia.
Qed.

Lemma kept_mask_hit : forall r s prev mo i,
  exec r prev s = Some mo -> i < List.length (whole mo) -> i < List.length s ->
  nth i (kept_mask r 0 prev s) true = false.
Proof.
  intros r [|c s] prev mo i He Hi Hl; cbn [List.length] in Hl; [lia|].
  cbn [kept_mask]. rewrite He. destruct (List.length (whole mo)) as [|n]; [lia|].
  destruct i as [|i]; [reflexivity|]. cbn [nth]. apply kept_mask_skipped; lia.
Qed.

(** A character that is not kept lies in a match, or in what was left of
    a match when the scan began. *)
Lemma kept_mask_false : forall r s skip prev i,
  nth i (kept_mask r skip prev s) true = false ->
  i < skip
  \/ exists pre post mo,
       s = pre ++ post /\ exec r (advance prev pre) post = Some mo
       /\ List.length pre <= i < List.length pre + List.length (whole mo).
Proof.
  intros r s. induction s as [|c s IH]; intros skip prev i H.
  - destruct i; discriminate H.
  - assert (Hshift : forall n i',
              nth i' (kept_mask r n (Some c) s) true = false ->
              i' < n
              \/ exists pre post mo,
                   c :: s = pre ++ post /\ exec r (advance prev pre) post = Some mo
                   /\ List.length pre <= S i' < List.length pre + List.length (whole mo)).
    { intros n i' H'. destruct (IH n (Some c) i' H') as [Hlt|(pre & post & mo & -> & He & Hp)];
        [left; exact Hlt|].
      right. exists (c :: pre), post, mo. repeat split; try assumption;
        cbn [List.length]; lia. }
    cbn [kept_mask] in H. destruct skip as [|n].
    + destruct (exec r prev (c :: s)) as [mo|] eqn:He.
      * destruct (List.length (whole mo)) as [|n] eqn:Hlen.
        -- destruct i as [|i]; [discriminate H|]. cbn [nth] in H.
           destruct (Hshift 0 i H) as [Hlt|Hex]; [lia | right; exact Hex].
        -- right. destruct i as [|i].
           ++ exists [], (c :: s), mo. repeat split; try assumption; cbn [List.length]; lia.
           ++ cbn [nth] in H. destruct (Hshift n i H) as [Hlt|Hex]; [|exact Hex].
              exists [], (c :: s), mo. repeat split; try assumption;
                cbn [List.length]; lia.
      * destruct i as [|i]; [discriminate H|]. cbn [nth] in H.
        destruct (Hshift 0 i H) as [Hlt|Hex]; [lia | right; exact Hex].
    + destruct i as [|i]; [left; lia|]. cbn [nth] in H.
      destruct (Hshift n i H) as [Hlt|Hex]; [left; lia | right; exact Hex].
Qed.

(** ** The keyword pattern *)

Section KeywordMask.
Variable ua : char -> bool.

Lemma exec_keyword_sound : forall prev s mo,
  exec (YT_TITLE_KEYWORDS ua) prev s = Some mo ->
  exists after,
    s = whole mo ++ after /\ is_keyword (whole mo)
    /\ word_boundary (is_word ua) prev s
    /\ word_boundary (is_word ua) (advance prev (whole mo)) after.
Proof.
  intros prev s mo H. rewrite exec_keywords in H.
  destruct (keyword_at (is_word ua) prev s) as [m|] eqn:Hk; [|discriminate].
  injection H as <-. cbn [whole]. now apply keyword_at_sound.
Qed.

(** A keyword that stands at a place as a whole word is found by the
    pattern there, or one that is no shorter. *)
Lemma exec_keyword_finds : forall prev m after,
  is_keyword m ->
  word_boundary (is_word ua) prev (m ++ after) ->
  word_boundary (is_word ua) (advance prev m) after ->
  exists mo, exec (YT_TITLE_KEYWORDS ua) prev (m ++ after) = Some mo
             /\ List.length m <= List.length (whole mo).
Proof.
  intros prev m after Hk Hb1 Hb2.
  destruct (keyword_at_finds ua prev m after Hk Hb1 Hb2) as (m' & Hm').
  exists {| whole := m'; group1 := None |}. split.
  - rewrite exec_keywords, Hm'. reflexivity.
  - cbn [whole]. destruct (keyword_at_sound _ _ _ _ Hm') as (after' & Hs & (f & Hin & Hsp) & _ & Hb').
    pose proof (keyword_covers ua f prev m' after' Hin Hsp Hb') as Hc.
    destruct m' as [|c m']; [|].
    + destruct (keyword_head [] (ex_intro _ f (conj Hin Hsp))) as (? & ? & ? & _).
      discriminate.
    + cbn [covers] in Hc. destruct Hc as [Hs' _].
      rewrite Nat.add_0_r in Hs'. apply (Hs' m after); [symmetry; exact Hs | exact Hk |].
      rewrite <- Hs. exact Hb1.
Qed.

Lemma passing_rest : forall prev s, passing ua 0 prev s.
Proof. intros prev s. exists [], s. repeat split. Qed.

Lemma passing_next : forall n prev c s,
  passing ua (S n) prev (c :: s) -> passing ua n (Some c) s.
Proof.
  intros n prev c s (y & rest & Hs & Hl & Hc).
  destruct y as [|d y]; [discriminate Hl|]. injection Hs as <- ->.
  cbn [covers] in Hc. exists y, rest. repeat split; [now injection Hl | apply Hc].
Qed.

Lemma passing_hit : forall prev c s mo n,
  exec (YT_TITLE_KEYWORDS ua) prev (c :: s) = Some mo ->
  List.length (whole mo) = S n -> passing ua n (Some c) s.
Proof.
  intros prev c s mo n He Hl.
  destruct (exec_keyword_sound _ _ _ He) as (after & Hs & (f & Hin & Hsp) & _ & Hb).
  pose proof (keyword_covers ua f prev (whole mo) after Hin Hsp Hb) as Hc.
  destruct (whole mo) as [|d y]; [discriminate Hl|].
  injection Hs as <- ->. cbn [covers] in Hc.
  exists y, after. repeat split; [now injection Hl | apply Hc].
Qed.

(** Every character of a keyword that stands in the text as a whole
    word is dropped. *)
Lemma keyword_dropped : forall pre skip prev m after i,
  passing ua skip prev (pre ++ m ++ after) ->
  is_keyword m ->
  word_boundary (is_word ua) (advance prev pre) (m ++ after) ->
  word_boundary (is_word ua) (advance prev (pre ++ m)) after ->
  List.length pre <= i < List.length pre + List.length m ->
  nth i (kept_mask (YT_TITLE_KEYWORDS ua) skip prev (pre ++ m ++ after)) true = false.
Proof.
  induction pre as [|c pre IH]; intros skip prev m after i Hp Hk Hb1 Hb2 Hi.
  - cbn [app List.length advance fold_left] in *.
    assert (Hlen : List.length (m ++ after) = List.length m + List.length after)
      by apply length_app.
    destruct skip as [|n].
    + destruct (exec_keyword_finds prev m after Hk Hb1 Hb2) as (mo & He & Hl).
      apply (kept_mask_hit _ _ _ mo); [exact He | lia | lia].
    + destruct Hp as (y & rest & Hs & Hl & Hc).
      destruct y as [|d y]; [discriminate Hl|]. cbn [covers] in Hc.
      destruct Hc as [Hshort _]. rewrite Nat.add_0_r in Hshort.
      assert (Hm : List.length m <= List.length (d :: y)).
      { apply (Hshort m after); [symmetry; exact Hs | exact Hk |].
        rewrite <- Hs. exact Hb1. }
      apply kept_mask_skipped; lia.
  - cbn [app List.length] in *. destruct i as [|i]; [lia|].
    assert (Hn : forall n, passing ua n (Some c) (pre ++ m ++ after) ->
                 nth i (kept_mask (YT_TITLE_KEYWORDS ua) n (Some c) (pre ++ m ++ after)) true
                 = false).
    { intros n Hp'. apply IH; try assumption. lia. }
    cbn [kept_mask]. destruct skip as [|n].
    + destruct (exec (YT_TITLE_KEYWORDS ua) prev (c :: pre ++ m ++ after)) as [mo|] eqn:He.
      * destruct (List.length (whole mo)) as [|n] eqn:Hl; cbn [nth].
        -- apply Hn, passing_rest.
        -- apply Hn. exact (passing_hit _ _ _ _ _ He Hl).
      * cbn [nth]. apply Hn, passing_rest.
    + cbn [nth]. apply Hn. exact (passing_next _ _ _ _ Hp).
Qed.

(** Step 2 drops the characters that lie in a keyword standing in the
    text as a whole word, and no others. *)
Lemma keywords_removed : forall s,
  let kept := kept_mask (YT_TITLE_KEYWORDS ua) 0 None s in
  List.length kept = List.length s
  /\ sub (YT_TITLE_KEYWORDS ua) [] s = select kept s
  /\ forall i, i < List.length s -> (nth i kept true = false <-> in_keyword ua s i).
Proof.
  intros s kept. split; [apply kept_mask_length|]. split.
  - unfold sub, kept. symmetry. apply select_kept_mask.
  - intros i Hi. split.
    + intro H. destruct (kept_mask_false _ _ _ _ _ H) as [Hlt|(pre & post & mo & -> & He & Hp)];
        [lia|].
      destruct (exec_keyword_sound _ _ _ He) as (after & -> & Hk & Hb1 & Hb2).
      exists pre, (whole mo), after. rewrite advance_app. repeat split; try assumption; lia.
    + intros (pre & m & after & -> & Hk & Hb1 & Hb2 & Hp).
      apply keyword_dropped; try assumption. apply passing_rest.
Qed.

End KeywordMask.

(* ===================================================================== *)
(** * What a match of the two link patterns looks like *)
(* ===================================================================== *)

Lemma hits_In : forall mo ps, In mo (hits ps) <-> In (Hit mo) ps.
Proof.
  intros mo ps. induction ps as [|[c|m] ps IH]; simpl.
  - tauto.
  - rewrite IH. split; [auto|]. intros [H|H]; [discriminate|exact H].
  - rewrite IH. split; intros [H|H]; auto; [left; now f_equal | left; now injection H].
Qed.

Lemma denotes_Lit : forall w before m after, denotes (Lit w) before m after -> m = w.
Proof.
  intros w. induction w as [|a w IH]; simpl; intros before m after H.
  - exact H.
  - destruct H as (m1 & m2 & -> & (c & -> & Hc) & H2).
    apply is_char_iff in Hc. subst c. simpl. f_equal. exact (IH _ _ _ H2).
Qed.

Lemma denotes_Rep : forall n p before m after,
  denotes (Rep n p) before m after -> List.length m = n /\ forallb p m = true.
Proof.
  intros n p. induction n as [|n IH]; simpl; intros before m after H.
  - subst m. split; reflexivity.
  - destruct H as (m1 & m2 & -> & (c & -> & Hc) & H2).
    destruct (IH _ _ _ H2) as [Hl Hp]. simpl. rewrite Hc, Hp, Hl. split; reflexivity.
Qed.

Lemma denotes_Opt : forall r before m after,
  denotes (Opt r) before m after -> denotes r before m after \/ m = [].
Proof. intros r before m after [H|H]; [left|right]; exact H. Qed.

Section Peeling.
Variable R : Type.
Implicit Types (k : cont R) (s : str).

(** The first part of a concatenation took a prefix it denotes, and the
    rest of the pattern ran on what follows. *)
Lemma run_Cat_denotes : forall r1 r2 prev s cap k x,
  run (Cat r1 r2) prev s cap k = Some x ->
  exists m s' cap', s = m ++ s' /\ denotes r1 prev m s'
                    /\ run r2 (advance prev m) s' cap' k = Some x.
Proof.
  intros r1 r2 prev s cap k x H. rewrite run_Cat in H.
  exact (run_denotes _ _ _ _ _ _ _ H).
Qed.

(** The group hands on the text it took. *)
Lemma run_Group_denotes : forall r prev s cap k x,
  run (Group r) prev s cap k = Some x ->
  exists m s', s = m ++ s' /\ denotes r prev m s'
               /\ k (advance prev m) s' (Some m) = Some x.
Proof.
  intros r prev s cap k x H. cbn [run] in H.
  apply run_denotes in H. destruct H as (m & s' & cap' & Hs & Hd & Hk).
  exists m, s'. split; [exact Hs|]. split; [exact Hd|].
  rewrite (firstn_split s m s' Hs) in Hk. exact Hk.
Qed.

Lemma run_Cat_Group_denotes : forall r r2 prev s cap k x,
  run (Cat (Group r) r2) prev s cap k = Some x ->
  exists m s', s = m ++ s' /\ denotes r prev m s'
               /\ run r2 (advance prev m) s' (Some m) k = Some x.
Proof.
  intros r r2 prev s cap k x H. rewrite run_Cat in H.
  exact (run_Group_denotes _ _ _ _ _ _ H).
Qed.

(** A greedy star before a continuation that accepts everywhere takes the
    whole run of its class. *)
Lemma star_greedy_last : forall p s prev cap k x (f : option char -> str -> option str -> R),
  (forall prev' s' cap', k prev' s' cap' = Some (f prev' s' cap')) ->
  star_greedy p prev s cap k = Some x ->
  x = f (advance prev (take_while p s)) (skip_while p s) cap.
Proof.
  intros p s prev cap k x f Hk H.
  rewrite (star_greedy_run _ p s prev cap k _ (Hk _ _ _)) in H.
  now injection H.
Qed.

End Peeling.

(** The tail [\S*] of both link patterns, at the end of an attempt: the
    match runs up to the next whitespace. *)
Lemma exec_tail : forall s head rest prev cap mo,
  s = head ++ rest ->
  run (Star true non_space) prev rest cap
      (fun _ s' cap' =>
         Some {| whole := firstn (List.length s - List.length s') s; group1 := cap' |})
  = Some mo ->
  exists trail post,
    rest = trail ++ post /\ whole mo = head ++ trail /\ group1 mo = cap
    /\ forallb non_space trail = true /\ before_blank post.
Proof.
  intros s head rest prev cap mo Hs H. rewrite run_Star_greedy in H.
  apply (star_greedy_last _ non_space rest prev cap _ mo
           (fun _ s' cap' =>
              {| whole := firstn (List.length s - List.length s') s; group1 := cap' |}))
    in H; [|reflexivity].
  exists (take_while non_space rest), (skip_while non_space rest).
  split; [symmetry; apply take_skip_while|].
  subst mo. cbn [whole group1]. split; [|split; [reflexivity|split]].
  - apply firstn_split. rewrite Hs, <- app_assoc, take_skip_while. reflexivity.
  - apply take_while_all.
  - pose proof (skip_while_head non_space rest) as Hh. unfold before_blank.
    destruct (skip_while non_space rest) as [|c t]; [exact I|].
    unfold non_space in Hh. now apply negb_false_iff in Hh.
Qed.

(** An attempt of [SPOTIFY_RE] that succeeds took a track link and the
    characters up to the next whitespace. *)
Lemma exec_spotify_sound : forall prev s mo,
  exec SPOTIFY_RE prev s = Some mo ->
  exists https intl id trail post,
    s = whole mo ++ post
    /\ whole mo = spotify_track_url https intl id ++ trail
    /\ group1 mo = Some id
    /\ List.length id = 22 /\ forallb is_alnum_ascii id = true
    /\ match intl with
       | Some (a, b) => is_lower_az a = true /\ is_lower_az b = true
       | None => True
       end
    /\ forallb non_space trail = true /\ before_blank post.
Proof.
  intros prev s mo H. unfold exec, SPOTIFY_RE in H. cbn [Cats] in H.
  apply run_Cat_denotes in H. destruct H as (m1 & s1 & c1 & Hs1 & D1 & H).
  apply run_Cat_denotes in H. destruct H as (m2 & s2 & c2 & Hs2 & D2 & H).
  apply run_Cat_denotes in H. destruct H as (m3 & s3 & c3 & Hs3 & D3 & H).
  apply run_Cat_denotes in H. destruct H as (m4 & s4 & c4 & Hs4 & D4 & H).
  apply run_Cat_denotes in H. destruct H as (m5 & s5 & c5 & Hs5 & D5 & H).
  apply run_Cat_Group_denotes in H. destruct H as (id & s6 & Hs6 & D6 & H).
  apply denotes_Lit in D1, D3, D5. apply denotes_Rep in D6. destruct D6 as [Hlen Hid].
  assert (Hs : s = (m1 ++ m2 ++ m3 ++ m4 ++ m5 ++ id) ++ s6).
  { rewrite Hs1, Hs2, Hs3, Hs4, Hs5, Hs6, <- !app_assoc. reflexivity. }
  destruct (exec_tail s _ s6 _ _ mo Hs H) as (trail & post & Hrest & Hw & Hg & Ht & Hp).
  assert (Hhttps : exists https, m1 ++ m2 = scheme https).
  { apply denotes_Opt in D2. destruct D2 as [(c & -> & Hc)| ->].
    - apply is_char_iff in Hc. subst c. exists true. now rewrite D1.
    - exists false. now rewrite D1. }
  destruct Hhttps as [https Hhttps].
  assert (Hintl : exists intl,
             m4 = match intl with
                  | Some (a, b) => txt "intl-" ++ [a; b] ++ txt "/"
                  | None => []
                  end
             /\ match intl with
                | Some (a, b) => is_lower_az a = true /\ is_lower_az b = true
                | None => True
                end).
  { apply denotes_Opt in D4. destruct D4 as [D4| ->]; [|exists None; split; [reflexivity|exact I]].
    cbn [Cats] in D4. destruct D4 as (u1 & u23 & -> & U1 & (u2 & u3 & -> & U2 & U3)).
    apply denotes_Lit in U1, U3. apply denotes_Rep in U2. destruct U2 as [Hl2 Hp2].
    destruct u2 as [|a [|b [|? ?]]]; try discriminate Hl2.
    simpl in Hp2. apply andb_prop in Hp2. destruct Hp2 as [Ha Hb].
    apply andb_prop in Hb. destruct Hb as [Hb _].
    exists (Some (a, b)). subst u1 u3. split; [reflexivity|split; assumption]. }
  destruct Hintl as (intl & Hm4 & Hletters).
  exists https, intl, id, trail, post.
  split; [rewrite Hw, Hs, Hrest, <- !app_assoc; reflexivity|].
  split; [|split; [exact Hg|split; [exact Hlen|split; [exact Hid|split;
            [exact Hletters|split; [exact Ht|exact Hp]]]]]].
  rewrite Hw. unfold spotify_track_url. rewrite <- Hhttps, <- Hm4, D3, D5, <- !app_assoc.
  reflexivity.
Qed.

(** The same for [YOUTUBE_RE], in each of its three forms. *)
Lemma exec_youtube_sound : forall prev s mo,
  exec YOUTUBE_RE prev s = Some mo ->
  exists https form id trail post,
    s = whole mo ++ post
    /\ whole mo = youtube_url https form id ++ trail
    /\ group1 mo = Some id
    /\ List.length id = 11 /\ forallb is_video_id_char id = true
    /\ form_ok form
    /\ forallb non_space trail = true /\ before_blank post.
Proof.
  intros prev s mo H. unfold exec, YOUTUBE_RE in H. cbn [Cats] in H.
  apply run_Cat_denotes in H. destruct H as (m1 & s1 & c1 & Hs1 & D1 & H).
  apply run_Cat_denotes in H. destruct H as (m2 & s2 & c2 & Hs2 & D2 & H).
  apply run_Cat_denotes in H. destruct H as (m3 & s3 & c3 & Hs3 & D3 & H).
  apply run_Cat_denotes in H. destruct H as (m4 & s4 & c4 & Hs4 & D4 & H).
  apply run_Cat_Group_denotes in H. destruct H as (id & s6 & Hs6 & D6 & H).
  apply denotes_Lit in D1, D3. apply denotes_Rep in D6. destruct D6 as [Hlen Hid].
  assert (Hs : s = (m1 ++ m2 ++ m3 ++ m4 ++ id) ++ s6).
  { rewrite Hs1, Hs2, Hs3, Hs4, Hs6, <- !app_assoc. reflexivity. }
  destruct (exec_tail s _ s6 _ _ mo Hs H) as (trail & post & Hrest & Hw & Hg & Ht & Hp).
  assert (Hhttps : exists https, m1 ++ m2 = scheme https).
  { apply denotes_Opt in D2. destruct D2 as [(c & -> & Hc)| ->].
    - apply is_char_iff in Hc. subst c. exists true. now rewrite D1.
    - exists false. now rewrite D1. }
  destruct Hhttps as [https Hhttps].
  assert (Hform : exists form,
             form_ok form
             /\ m4 = match form with
                     | Watch www params =>
                         (if www then txt "www." else []) ++ txt "youtube.com/watch?"
                         ++ params ++ txt "v="
                     | Short => txt "youtu.be/"
                     | Music params => txt "music.youtube.com/watch?" ++ params ++ txt "v="
                     end).
  { cbn [Alts Cats] in D4. destruct D4 as [D4|[D4|D4]].
    - destruct D4 as (u1 & u' & -> & U1 & (u2 & u'' & -> & U2 & (u3 & u4 & -> & U3 & U4))).
      apply denotes_Lit in U2, U4. cbn [denotes] in U3. subst u2 u4.
      apply denotes_Opt in U1. destruct U1 as [U1| ->].
      + apply denotes_Lit in U1. subst u1. exists (Watch true u3). split; [exact U3|reflexivity].
      + exists (Watch false u3). split; [exact U3|reflexivity].
    - apply denotes_Lit in D4. exists Short. split; [exact I|exact D4].
    - destruct D4 as (u2 & u'' & -> & U2 & (u3 & u4 & -> & U3 & U4)).
      apply denotes_Lit in U2, U4. cbn [denotes] in U3. subst u2 u4.
      exists (Music u3). split; [exact U3|reflexivity]. }
  destruct Hform as (form & Hok & Hm4).
  exists https, form, id, trail, post.
  split; [rewrite Hw, Hs, Hrest, <- !app_assoc; reflexivity|].
  split; [|split; [exact Hg|split; [exact Hlen|split; [exact Hid|split;
            [exact Hok|split; [exact Ht|exact Hp]]]]]].
  rewrite Hw. unfold youtube_url. rewrite <- Hhttps, <- Hm4, D3, <- !app_assoc.
  reflexivity.
Qed.

(** Every match that [finditer] yields comes from an attempt somewhere in
    the text. *)
Lemma finditer_exec : forall r s mo,
  In mo (finditer r s) ->
  exists pre rest, s = pre ++ rest /\ exec r (advance None pre) rest = Some mo.
Proof.
  intros r s mo H. unfold finditer in H. apply hits_In in H.
  exact (scan_hits_exec _ _ _ _ _ H).
Qed.

(** ** Prefixes of the matches *)

Lemma In_firstn : forall (A : Type) n (l : list A) x, In x (firstn n l) -> In x l.
Proof.
  intros A n. induction n as [|n IH]; intros [|a l] x H; simpl in *; try tauto.
  destruct H as [H|H]; [left; exact H | right; exact (IH _ _ H)].
Qed.

Lemma lookups_of_prefix : forall (rq_of : match_obj -> request) n ms,
  (forall m, In m ms -> oembed_lookup (rq_of m)) ->
  Forall oembed_lookup (List.map rq_of (firstn n ms)).
Proof.
  intros rq_of n ms H. apply Forall_forall. intros rq Hin.
  apply in_map_iff in Hin. destruct Hin as (m & <- & Hm).
  apply H. exact (In_firstn _ _ _ _ Hm).
Qed.

(* ===================================================================== *)
(** * Links inside a stretch of text *)
(* ===================================================================== *)

(** A text splits into a part that is empty or ends in whitespace, and
    the stretch without whitespace after it. *)
Lemma last_stretch : forall pre : str,
  exists p b, pre = p ++ b /\ forallb non_space b = true /\ after_blank p.
Proof.
  intro pre. induction pre as [|c q IH] using rev_ind.
  - exists [], []. repeat split. left. reflexivity.
  - destruct (is_space c) eqn:Hc.
    + exists (q ++ [c]), []. rewrite app_nil_r. repeat split.
      right. exists q, c. split; [reflexivity|exact Hc].
    + destruct IH as (p & b & -> & Hb & Hp).
      exists p, (b ++ [c]). rewrite <- app_assoc. repeat split; [|exact Hp].
      rewrite forallb_app, Hb. simpl. unfold non_space. rewrite Hc. reflexivity.
Qed.

(** A stretch without whitespace at the end of a text lies within the
    last such stretch. *)
Lemma stretch_suffix : forall p s a b : str,
  p ++ s = a ++ b -> after_blank p -> forallb non_space b = true ->
  exists a', s = a' ++ b /\ a = p ++ a'.
Proof.
  intros p s a b Heq Hp Hb.
  apply app_eq_app in Heq. destruct Heq as (l & [[Hp' Hb'] | [Ha Hs]]).
  - destruct l as [|d l].
    + rewrite app_nil_r in Hp'. simpl in Hb'. subst. exists []. rewrite app_nil_r.
      split; reflexivity.
    + exfalso. destruct Hp as [-> | (q & c & -> & Hc)].
      * destruct a; discriminate Hp'.
      * assert (Hin : In c (d :: l)).
        { destruct (exists_last (l := d :: l)) as (l' & c' & Hl); [discriminate|].
          rewrite Hl in Hp'. rewrite app_assoc in Hp'. apply app_inj_tail in Hp'.
          destruct Hp' as [_ ->]. rewrite Hl. apply in_or_app. right. left. reflexivity. }
        subst b. rewrite forallb_app in Hb. apply andb_prop in Hb. destruct Hb as [Hb _].
        rewrite forallb_forall in Hb. specialize (Hb c Hin). unfold non_space in Hb.
        rewrite Hc in Hb. discriminate.
  - exists l. split; assumption.
Qed.

(** Where no attempt succeeds the scan passes character by character. *)
Lemma scan_misses : forall r b rest prev,
  (forall a b', b = a ++ b' -> b' <> [] -> exec r (advance prev a) (b' ++ rest) = None) ->
  scan r 0 prev (b ++ rest) = List.map Plain b ++ scan r 0 (advance prev b) rest.
Proof.
  intros r b rest. induction b as [|c b IH]; intros prev H.
  - reflexivity.
  - cbn [app List.map]. rewrite scan_miss.
    + f_equal. apply IH. intros a b' -> Hb'. exact (H (c :: a) b' eq_refl Hb').
    + apply (H [] (c :: b) eq_refl). discriminate.
Qed.

(** Where an attempt succeeds, the scan finds the first such place and
    takes the match there. *)
Lemma scan_first_hit : forall r b rest prev,
  (exists a b', b = a ++ b' /\ b' <> [] /\ exec r (advance prev a) (b' ++ rest) <> None) ->
  exists a b' mo qs,
    b = a ++ b' /\ b' <> [] /\ exec r (advance prev a) (b' ++ rest) = Some mo
    /\ scan r 0 prev (b ++ rest) = List.map Plain a ++ Hit mo :: qs.
Proof.
  intros r b rest. induction b as [|c b IH]; intros prev (a & b' & Hb & Hne & He).
  - destruct a; [|discriminate Hb]. simpl in Hb. congruence.
  - destruct (exec r prev (c :: b ++ rest)) as [mo|] eqn:Hc.
    + exists [], (c :: b), mo. eexists. repeat split; [discriminate|exact Hc|].
      cbn [app scan List.map]. rewrite Hc. reflexivity.
    + destruct a as [|d a].
      * simpl in Hb. subst b'. now elim He.
      * injection Hb as <- ->.
        destruct (IH (Some c)) as (a1 & b1 & mo & qs & Hb1 & Hne1 & He1 & Hs).
        { exists a, b'. repeat split; assumption. }
        exists (c :: a1), b1, mo, qs. repeat split.
        -- rewrite Hb1. reflexivity.
        -- exact Hne1.
        -- exact He1.
        -- cbn [app List.map]. rewrite (scan_miss _ _ _ _ Hc), Hs. reflexivity.
Qed.

(** The scan of a text is at rest where its last stretch without
    whitespace begins. *)
Lemma scan_to_stretch : forall r p s,
  classes_in (fun c => is_space c = false) r -> 0 < min_len r ->
  after_blank p ->
  exists ps, scan r 0 None (p ++ s) = ps ++ scan r 0 (advance None p) s.
Proof.
  intros r p s HQ Hmin [-> | (q & c & -> & Hc)].
  - exists []. reflexivity.
  - rewrite <- app_assoc. simpl ([c] ++ _).
    destruct (scan_across_space _ HQ Hmin q c s 0 None Hc) as (ps & Hps); [constructor|].
    exists ps. rewrite Hps, advance_app. reflexivity.
Qed.

(** An attempt that succeeds after the text [pre] is one of the matches
    of the scan, when no attempt succeeds in the stretch without
    whitespace that ends [pre]. *)
Lemma finditer_clear : forall r pre m rest mo,
  classes_in (fun c => is_space c = false) r -> 0 < min_len r ->
  (forall a b prev, pre = a ++ b -> b <> [] -> forallb non_space b = true ->
                    exec r prev (b ++ m ++ rest) = None) ->
  (forall prev, exec r prev (m ++ rest) = Some mo) -> whole mo = m -> m <> [] ->
  In mo (finditer r (pre ++ m ++ rest)).
Proof.
  intros r pre m rest mo HQ Hmin Hclear He Hw Hm. unfold finditer.
  destruct (last_stretch pre) as (p & b & -> & Hb & Hp).
  rewrite <- app_assoc.
  destruct (scan_to_stretch r p (b ++ m ++ rest) HQ Hmin Hp) as (ps & ->).
  rewrite scan_misses.
  - rewrite (scan_hit _ _ _ _ _ (He _) Hw Hm), !hits_app.
    apply in_or_app. right. apply in_or_app. right. left. reflexivity.
  - intros a b' -> Hb'. apply (Hclear (p ++ a) b').
    + now rewrite app_assoc.
    + exact Hb'.
    + rewrite forallb_app in Hb. apply andb_prop in Hb. apply Hb.
Qed.

(** ** Track links *)

Lemma exec_spotify_begins : forall prev s mo,
  exec SPOTIFY_RE prev s = Some mo ->
  begins_track_link s
  /\ exists post, s = whole mo ++ post /\ forallb non_space (whole mo) = true
                  /\ before_blank post.
Proof.
  intros prev s mo H.
  destruct (exec_spotify_sound _ _ _ H)
    as (https & intl & id & trail & post & Hs & Hw & Hg & Hlen & Hid & Hintl & Ht & Hp).
  split.
  - exists https, intl, id, (trail ++ post). repeat split; try assumption.
    rewrite Hs, Hw, <- app_assoc. reflexivity.
  - exists post. repeat split; try assumption.
    destruct (exec_sound _ _ _ _ _ spotify_classes H) as (s' & Hs' & Hall & _).
    apply forallb_forall. intros c Hc. apply non_space_iff.
    rewrite Forall_forall in Hall. now apply Hall.
Qed.

Lemma begins_exec_spotify : forall prev s,
  begins_track_link s -> exists mo, exec SPOTIFY_RE prev s = Some mo.
Proof.
  intros prev s (https & intl & id & rest & -> & [Hlen Hid] & Hintl).
  rewrite <- (take_skip_while non_space rest).
  eexists. apply exec_spotify; try assumption.
  - apply take_while_all.
  - pose proof (skip_while_head non_space rest) as H.
    destruct (skip_while non_space rest) as [|c q]; [exact I|].
    simpl. unfold non_space in H. now apply negb_false_iff in H.
Qed.

(** After whitespace, and at the start of the text, nothing can reach
    over. *)
Lemma after_blank_clear : forall pre rest, after_blank pre -> clear_of_links pre rest.
Proof.
  intros pre rest Hp a b Heq Hne Hb _.
  rewrite <- (app_nil_r pre) in Heq.
  destruct (stretch_suffix pre [] a b Heq Hp Hb) as (a' & Hs & _).
  destruct a'; [|discriminate Hs]. simpl in Hs. congruence.
Qed.

(** Every track link begins with the letter h. *)
Lemma clear_without_h : forall pre rest,
  Forall (fun c => c <> ch "h") pre -> clear_of_links pre rest.
Proof.
  intros pre rest Hall a b -> Hne _ (https & intl & id & t & Heq & _).
  destruct b as [|c b]; [congruence|].
  apply Forall_app in Hall. destruct Hall as [_ Hall]. apply Forall_inv in Hall.
  unfold spotify_track_url, scheme in Heq. rewrite <- !app_assoc in Heq.
  injection Heq as Hc _. contradiction.
Qed.

(** A link that begins earlier in the stretch takes everything up to the
    next whitespace: its match runs over the position after [pre]. *)
Lemma link_before_covers : forall pre rest,
  rest <> [] -> (forall c q, rest = c :: q -> is_space c = false) ->
  link_before pre rest ->
  exists mo a post,
    In mo (finditer SPOTIFY_RE (pre ++ rest))
    /\ pre ++ rest = a ++ whole mo ++ post
    /\ List.length a < List.length pre
    /\ List.length pre < List.length a + List.length (whole mo).
Proof.
  intros pre rest Hrest Hhead (a & b & Hpre & Hne & Hb & Hlink).
  destruct (last_stretch pre) as (p & s & Hps & Hs & Hp).
  assert (Heq : p ++ s = a ++ b) by congruence.
  destruct (stretch_suffix p s a b Heq Hp Hb) as (a' & Hs' & Ha).
  destruct (scan_first_hit SPOTIFY_RE s rest (advance None p))
    as (a1 & b1 & mo & qs & Hs1 & Hne1 & He & Hscan).
  { exists a', b. repeat split; [exact Hs'|exact Hne|].
    destruct (begins_exec_spotify (advance (advance None p) a') _ Hlink) as (mo & ->).
    discriminate. }
  destruct (exec_spotify_begins _ _ _ He) as (_ & post & Htext & Hwhole & Hpost).
  exists mo, (p ++ a1), post. repeat split.
  - unfold finditer. rewrite Hps, <- app_assoc.
    destruct (scan_to_stretch SPOTIFY_RE p (s ++ rest) spotify_classes) as (ps & ->);
      [cbn; lia | exact Hp |].
    rewrite Hscan, !hits_app. apply in_or_app. right. apply in_or_app. right.
    left. reflexivity.
  - rewrite Hps, Hs1, <- !app_assoc. rewrite Htext. reflexivity.
  - rewrite Hps, Hs1, !length_app. destruct b1; [congruence|]. simpl. lia.
  - rewrite Hps, Hs1, !length_app.
    assert (Hlen : List.length b1 < List.length (whole mo)); [|lia].
    destruct (Nat.lt_ge_cases (List.length b1) (List.length (whole mo))) as [|Hge];
      [assumption|exfalso].
    (* the match would end inside the stretch, before a character that is
       no whitespace *)
    assert (Hsplit : exists t, b1 = whole mo ++ t /\ post = t ++ rest).
    { apply app_eq_app in Htext. destruct Htext as (l & [[H1 H2] | [H1 H2]]).
      - exists l. split; assumption.
      - destruct l as [|d l].
        + exists []. rewrite app_nil_r in H1. simpl in H2. split; [now rewrite app_nil_r|].
          symmetry. exact H2.
        + rewrite H1, length_app in Hge. simpl in Hge. lia. }
    destruct Hsplit as (t & Hb1 & Hpost').
    destruct t as [|d t].
    + simpl in Hpost'. subst post. destruct rest as [|c q]; [congruence|].
      simpl in Hpost. rewrite (Hhead c q eq_refl) in Hpost. discriminate.
    + subst post. simpl in Hpost.
      assert (Hd : non_space d = true).
      { rewrite Hs1 in Hs. rewrite forallb_app in Hs. apply andb_prop in Hs.
        destruct Hs as [_ Hs]. rewrite Hb1, forallb_app in Hs. apply andb_prop in Hs.
        destruct Hs as [_ Hs]. simpl in Hs. now apply andb_prop in Hs. }
      unfold non_space in Hd. rewrite Hpost in Hd. discriminate.
Qed.

(** Along a text, a test fails at every place or holds at some place. *)
Lemma somewhere_or_nowhere : forall (Q : str -> bool) (s : str),
  (forall a b, s = a ++ b -> b <> [] -> Q b = false)
  \/ (exists a b, s = a ++ b /\ b <> [] /\ Q b = true).
Proof.
  intros Q s. induction s as [|c s IH].
  - left. intros a b H Hb. symmetry in H. apply app_eq_nil in H. tauto.
  - destruct (Q (c :: s)) eqn:Hq.
    + right. exists [], (c :: s). repeat split; [discriminate | exact Hq].
    + destruct IH as [IH | (a & b & -> & Hb & Hq')].
      * left. intros [|d a] b H Hb.
        -- simpl in H. subst b. exact Hq.
        -- injection H as _ H. exact (IH a b H Hb).
      * right. exists (c :: a), b. repeat split; assumption.
Qed.

(** The two cases of a link in a text: nothing reaches over it, or a
    link begins before it in the same stretch. *)
Lemma clear_or_link_before : forall pre rest,
  clear_of_links pre rest \/ link_before pre rest.
Proof.
  intros pre rest. destruct (last_stretch pre) as (p & s & -> & Hs & Hp).
  destruct (somewhere_or_nowhere
              (fun b => match exec SPOTIFY_RE None (b ++ rest) with
                        | Some _ => true
                        | None => false
                        end) s) as [Hno | (a & b & -> & Hb & Hq)].
  - left. intros a b Heq Hb Hns Hlink.
    destruct (stretch_suffix p s a b Heq Hp Hns) as (a' & Hs' & _).
    specialize (Hno a' b Hs' Hb). cbv beta in Hno.
    destruct (begins_exec_spotify None _ Hlink) as (mo & He). rewrite He in Hno.
    discriminate.
  - right. exists (p ++ a), b. cbv beta in Hq.
    destruct (exec SPOTIFY_RE None (b ++ rest)) as [mo|] eqn:He; [|discriminate].
    repeat split.
    + now rewrite app_assoc.
    + exact Hb.
    + rewrite forallb_app in Hs. apply andb_prop in Hs. apply Hs.
    + apply (exec_spotify_begins _ _ _ He).
Qed.

(* ===================================================================== *)
(** * The requests of the listener *)
(* ===================================================================== *)

Section Requests.
Variable ua : char -> bool.
Variable net : nat -> request -> outcome.

Lemma bind_fetch_spotify : forall (A : Type) m (f : value -> M A) st,
  bind (_fetch_spotify_oembed net (group_1 m)) f st
  = f (metadata_of (net (List.length (requests st)) (spotify_request m)))
      (asked st (spotify_request m)).
Proof. intros A m f st. unfold bind. rewrite fetch_spotify_run. reflexivity. Qed.

Lemma bind_fetch_youtube : forall (A : Type) m (f : value -> M A) st,
  bind (_fetch_youtube_oembed net (group_1 m)) f st
  = f (metadata_of (net (List.length (requests st)) (youtube_request m)))
      (asked st (youtube_request m)).
Proof. intros A m f st. unfold bind. rewrite fetch_youtube_run. reflexivity. Qed.

(** The first loop asks for a prefix of its matches, one request each and
    in order; whatever it returns is the embeds it was given followed by
    at most one new embed per request. *)
Lemma spotify_loop_requests : forall show max ms embeds st,
  exists j,
    j <= List.length ms
    /\ requests (snd (spotify_loop net show max ms embeds st))
       = requests st ++ List.map spotify_request (firstn j ms)
    /\ session (snd (spotify_loop net show max ms embeds st)) = session_after j st
    /\ config (snd (spotify_loop net show max ms embeds st)) = config st
    /\ forall out, fst (spotify_loop net show max ms embeds st) = Ok out ->
         exists new, out = embeds ++ new /\ List.length new <= j.
Proof.
  intros show max ms. induction ms as [|m ms IH]; intros embeds st; cbn [spotify_loop].
  - exists 0. cbn. rewrite app_nil_r. repeat split; [lia|].
    intros out [= <-]. exists []. rewrite app_nil_r. split; [reflexivity|simpl; lia].
  - destruct (cap_reached embeds max) eqn:Hcap.
    + exists 0. cbn. rewrite app_nil_r. repeat split; [lia|].
      intros out [= <-]. exists []. rewrite app_nil_r. split; [reflexivity|simpl; lia].
    + rewrite bind_fetch_spotify. set (rq := spotify_request m).
      assert (Hstop : forall (x : exn),
                 exists j, j <= List.length (m :: ms)
                   /\ requests (snd (@Raise (list embed) x, asked st rq))
                      = requests st ++ List.map spotify_request (firstn j (m :: ms))
                   /\ session (snd (@Raise (list embed) x, asked st rq)) = session_after j st
                   /\ config (snd (@Raise (list embed) x, asked st rq)) = config st
                   /\ forall out, fst (@Raise (list embed) x, asked st rq) = Ok out ->
                        exists new, out = embeds ++ new /\ List.length new <= j).
      { intro x. exists 1. cbn. repeat split; [lia|]. intros out Hout. discriminate. }
      assert (Hgo : forall embeds',
                 (exists new, embeds' = embeds ++ new /\ List.length new <= 1) ->
                 exists j, j <= List.length (m :: ms)
                   /\ requests (snd (spotify_loop net show max ms embeds' (asked st rq)))
                      = requests st ++ List.map spotify_request (firstn j (m :: ms))
                   /\ session (snd (spotify_loop net show max ms embeds' (asked st rq)))
                      = session_after j st
                   /\ config (snd (spotify_loop net show max ms embeds' (asked st rq)))
                      = config st
                   /\ forall out,
                        fst (spotify_loop net show max ms embeds' (asked st rq)) = Ok out ->
                        exists new, out = embeds ++ new /\ List.length new <= j).
      { intros embeds' (new0 & -> & Hn0).
        destruct (IH (embeds ++ new0) (asked st rq)) as (j & Hj & Hr & Hse & Hc & Hout).
        exists (S j). split; [simpl; lia|]. split; [|split; [|split]].
        - rewrite Hr. cbn. rewrite <- app_assoc. reflexivity.
        - rewrite Hse. destruct j; reflexivity.
        - rewrite Hc. reflexivity.
        - intros out Ho. destruct (Hout out Ho) as (new & -> & Hn).
          exists (new0 ++ new). rewrite app_assoc. split; [reflexivity|].
          rewrite length_app. lia. }
      destruct (truthy (metadata_of (net (List.length (requests st)) rq))).
      * rewrite bind_lift.
        destruct (get _ (txt "title") _) as [title|x]; [|apply Hstop].
        rewrite bind_lift.
        destruct (get _ (txt "thumbnail_url") _) as [thumb|x]; [|apply Hstop].
        rewrite bind_lift.
        destruct (_build_spotify_embed title thumb show) as [e|x]; [|apply Hstop].
        apply Hgo. exists [e]. split; [reflexivity|simpl; lia].
      * apply Hgo. exists []. rewrite app_nil_r. split; [reflexivity|simpl; lia].
Qed.

Lemma youtube_loop_requests : forall show max ms embeds st,
  exists j,
    j <= List.length ms
    /\ requests (snd (youtube_loop ua net show max ms embeds st))
       = requests st ++ List.map youtube_request (firstn j ms)
    /\ session (snd (youtube_loop ua net show max ms embeds st)) = session_after j st
    /\ config (snd (youtube_loop ua net show max ms embeds st)) = config st
    /\ forall out, fst (youtube_loop ua net show max ms embeds st) = Ok out ->
         exists new, out = embeds ++ new /\ List.length new <= j.
Proof.
  intros show max ms. induction ms as [|m ms IH]; intros embeds st; cbn [youtube_loop].
  - exists 0. cbn. rewrite app_nil_r. repeat split; [lia|].
    intros out [= <-]. exists []. rewrite app_nil_r. split; [reflexivity|simpl; lia].
  - destruct (cap_reached embeds max) eqn:Hcap.
    + exists 0. cbn. rewrite app_nil_r. repeat split; [lia|].
      intros out [= <-]. exists []. rewrite app_nil_r. split; [reflexivity|simpl; lia].
    + rewrite bind_fetch_youtube. set (rq := youtube_request m).
      assert (Hstop : forall (x : exn),
                 exists j, j <= List.length (m :: ms)
                   /\ requests (snd (@Raise (list embed) x, asked st rq))
                      = requests st ++ List.map youtube_request (firstn j (m :: ms))
                   /\ session (snd (@Raise (list embed) x, asked st rq)) = session_after j st
                   /\ config (snd (@Raise (list embed) x, asked st rq)) = config st
                   /\ forall out, fst (@Raise (list embed) x, asked st rq) = Ok out ->
                        exists new, out = embeds ++ new /\ List.length new <= j).
      { intro x. exists 1. cbn. repeat split; [lia|]. intros out Hout. discriminate. }
      assert (Hgo : forall embeds',
                 (exists new, embeds' = embeds ++ new /\ List.length new <= 1) ->
                 exists j, j <= List.length (m :: ms)
                   /\ requests (snd (youtube_loop ua net show max ms embeds' (asked st rq)))
                      = requests st ++ List.map youtube_request (firstn j (m :: ms))
                   /\ session (snd (youtube_loop ua net show max ms embeds' (asked st rq)))
                      = session_after j st
                   /\ config (snd (youtube_loop ua net show max ms embeds' (asked st rq)))
                      = config st
                   /\ forall out,
                        fst (youtube_loop ua net show max ms embeds' (asked st rq)) = Ok out ->
                        exists new, out = embeds ++ new /\ List.length new <= j).
      { intros embeds' (new0 & -> & Hn0).
        destruct (IH (embeds ++ new0) (asked st rq)) as (j & Hj & Hr & Hse & Hc & Hout).
        exists (S j). split; [simpl; lia|]. split; [|split; [|split]].
        - rewrite Hr. cbn. rewrite <- app_assoc. reflexivity.
        - rewrite Hse. destruct j; reflexivity.
        - rewrite Hc. reflexivity.
        - intros out Ho. destruct (Hout out Ho) as (new & -> & Hn).
          exists (new0 ++ new). rewrite app_assoc. split; [reflexivity|].
          rewrite length_app. lia. }
      destruct (truthy (metadata_of (net (List.length (requests st)) rq))).
      * rewrite bind_lift.
        destruct (get _ (txt "title") _) as [title|x]; [|apply Hstop].
        rewrite bind_lift.
        destruct (get _ (txt "author_name") _) as [author|x]; [|apply Hstop].
        rewrite bind_lift.
        destruct (get _ (txt "thumbnail_url") _) as [thumb|x]; [|apply Hstop].
        rewrite bind_lift.
        destruct (_build_youtube_embed ua title author thumb show) as [e|x]; [|apply Hstop].
        apply Hgo. exists [e]. split; [reflexivity|simpl; lia].
      * apply Hgo. exists []. rewrite app_nil_r. split; [reflexivity|simpl; lia].
Qed.

(** The listener as a whole: a prefix of the Spotify matches, then a
    prefix of the YouTube matches. *)
Lemma on_message_requests : forall msg st,
  exists j k,
    j <= List.length (finditer SPOTIFY_RE (content msg))
    /\ k <= List.length (finditer YOUTUBE_RE (content msg))
    /\ requests (snd (on_message ua net msg st))
       = requests st
         ++ List.map spotify_request (firstn j (finditer SPOTIFY_RE (content msg)))
         ++ List.map youtube_request (firstn k (finditer YOUTUBE_RE (content msg)))
    /\ session (snd (on_message ua net msg st)) = session_after (j + k) st
    /\ config (snd (on_message ua net msg st)) = config st
    /\ forall out, fst (on_message ua net msg st) = Ok out -> List.length out <= j + k.
Proof.
  intros msg st.
  assert (Hquiet : forall r : result (list embed) * cog,
             r = (Ok [], st) ->
             exists j k,
               j <= List.length (finditer SPOTIFY_RE (content msg))
               /\ k <= List.length (finditer YOUTUBE_RE (content msg))
               /\ requests (snd r)
                  = requests st
                    ++ List.map spotify_request (firstn j (finditer SPOTIFY_RE (content msg)))
                    ++ List.map youtube_request (firstn k (finditer YOUTUBE_RE (content msg)))
               /\ session (snd r) = session_after (j + k) st
               /\ config (snd r) = config st
               /\ forall out, fst r = Ok out -> List.length out <= j + k).
  { intros r ->. exists 0, 0. cbn. rewrite app_nil_r. repeat split; try lia.
    intros out [= <-]. simpl. lia. }
  unfold on_message. destruct (guild msg) as [g|]; [|now apply Hquiet].
  destruct (author_bot msg); [now apply Hquiet|].
  destruct (negb (enabled (config st g))); [now apply Hquiet|].
  destruct (ctx_valid msg); [now apply Hquiet|].
  clear Hquiet. unfold bind.
  set (show := show_thumbnail (config st g)). set (max := max_links_per_message (config st g)).
  destruct (spotify_loop_requests show max (finditer SPOTIFY_RE (content msg)) [] st)
    as (j & Hj & Hr & Hse & Hc & Hout).
  destruct (spotify_loop net show max (finditer SPOTIFY_RE (content msg)) [] st)
    as [[embeds|x] st1]; cbn [fst snd] in *.
  - destruct (youtube_loop_requests show max (finditer YOUTUBE_RE (content msg)) embeds st1)
      as (k & Hk & Hr2 & Hse2 & Hc2 & Hout2).
    exists j, k. split; [exact Hj|]. split; [exact Hk|]. split; [|split; [|split]].
    + rewrite Hr2, Hr, <- app_assoc. reflexivity.
    + rewrite Hse2. destruct k; [rewrite Nat.add_0_r; exact Hse|].
      rewrite Nat.add_succ_r. reflexivity.
    + rewrite Hc2. exact Hc.
    + intros out Ho. destruct (Hout2 out Ho) as (new2 & -> & Hn2).
      destruct (Hout embeds eq_refl) as (new1 & -> & Hn1). simpl.
      rewrite length_app. lia.
  - exists j, 0. split; [exact Hj|]. split; [lia|]. split; [|split; [|split]].
    + cbn. rewrite app_nil_r. exact Hr.
    + rewrite Nat.add_0_r. exact Hse.
    + exact Hc.
    + intros out Ho. discriminate.
Qed.

(** The ids in the requests are the ids the patterns captured. *)
Lemma spotify_request_lookup : forall text m,
  In m (finditer SPOTIFY_RE text) -> oembed_lookup (spotify_request m).
Proof.
  intros text m H. apply finditer_exec in H. destruct H as (pre & rest & _ & H).
  apply exec_spotify_sound in H.
  destruct H as (https & intl & id & trail & post & _ & _ & Hg & Hl & Hid & _).
  split; [reflexivity|]. left. exists id. split; [split; assumption|].
  unfold spotify_request, group_1. rewrite Hg. reflexivity.
Qed.

Lemma youtube_request_lookup : forall text m,
  In m (finditer YOUTUBE_RE text) -> oembed_lookup (youtube_request m).
Proof.
  intros text m H. apply finditer_exec in H. destruct H as (pre & rest & _ & H).
  apply exec_youtube_sound in H.
  destruct H as (https & form & id & trail & post & _ & _ & Hg & Hl & Hid & _).
  split; [reflexivity|]. right. exists id. split; [split; assumption|].
  unfold youtube_request, group_1. rewrite Hg. reflexivity.
Qed.

(** Runs of events keep whatever every step keeps. *)
Lemma run_events_keeps : forall (I : cog -> Prop),
  (forall e st, I st -> I (step ua net e st)) ->
  forall es st, I st -> I (run_events ua net es st).
Proof.
  intros I Hstep es. unfold run_events.
  induction es as [|e es IH]; intros st H; simpl; [exact H|].
  apply IH. now apply Hstep.
Qed.

Lemma command_keeps_requests : forall g c st,
  requests (run_command g c st) = requests st
  /\ session (run_command g c st) = session st.
Proof. intros g [| | |limit] st; split; reflexivity. Qed.

Lemma unload_keeps_requests : forall st,
  requests (snd (cog_unload st)) = requests st
  /\ config (snd (cog_unload st)) = config st
  /\ (session (snd (cog_unload st)) = NoSession <-> session st = NoSession).
Proof.
  intro st. unfold cog_unload. destruct (session st) eqn:Hs; cbn; rewrite ?Hs;
    repeat split; intros; congruence.
Qed.

Lemma reachable_clamped : forall es, limits_clamped (run_events ua net es initial).
Proof.
  intro es. apply run_events_keeps.
  - intros e st. apply step_keeps_clamped.
  - intro g. cbn. lia.
Qed.

End Requests.

(* ===================================================================== *)
(** * The builders and the units of a message *)
(* ===================================================================== *)

(** ** When the quoters raise *)

Lemma utf8_refuses : forall c, is_scalar c = false -> utf8 c = None.
Proof.
  intros c H. destruct (utf8 c) as [bs|] eqn:E; [|reflexivity].
  assert (Hs : is_scalar c = true) by (apply utf8_scalar; eauto). congruence.
Qed.

Lemma encode_utf8_raises : forall s,
  forallb is_scalar s = false -> encode_utf8 s = Raise UnicodeEncodeError.
Proof.
  intros s. induction s as [|c s IH]; simpl; intro H; [discriminate|].
  destruct (is_scalar c) eqn:Hc; simpl in H.
  - apply utf8_scalar in Hc. destruct Hc as [bs ->]. rewrite (IH H). reflexivity.
  - rewrite (utf8_refuses c Hc). reflexivity.
Qed.

Lemma quote_with_raises : forall safe s,
  forallb is_scalar s = false -> quote_with safe s = Raise UnicodeEncodeError.
Proof.
  intros safe s H. unfold quote_with. destruct s as [|c s]; [discriminate|].
  rewrite (encode_utf8_raises _ H). reflexivity.
Qed.

Lemma quote_plus_raises : forall s,
  forallb is_scalar s = false -> quote_plus s = Raise UnicodeEncodeError.
Proof.
  intros s H. unfold quote_plus.
  destruct (existsb _ s); rewrite (quote_with_raises _ _ H); reflexivity.
Qed.

Lemma quote_raises : forall s,
  forallb is_scalar s = false -> quote s = Raise UnicodeEncodeError.
Proof. intros s H. unfold quote. apply quote_with_raises. exact H. Qed.

Lemma lyrics_suffix_scalar : forall s,
  forallb is_scalar (s ++ txt " lyrics") = forallb is_scalar s.
Proof. intro s. rewrite forallb_app. apply andb_true_r. Qed.

(** ** What the builders return *)

(** The Spotify builder returns an embed exactly for a title that is a
    [str] UTF-8 can encode. *)
Lemma spotify_embed_cases : forall v thumb show,
  match _build_spotify_embed v thumb show with
  | Ok e =>
      exists t, v = VStr t /\ forallb is_scalar t = true
                /\ title e = note_prefix ++ t
                /\ thumbnail e = thumb_of show thumb
  | Raise x =>
      (x = TypeError /\ forall t, v <> VStr t)
      \/ (x = UnicodeEncodeError /\ exists t, v = VStr t /\ forallb is_scalar t = false)
  end.
Proof.
  intros v thumb show.
  destruct v as [ |b|z|f|t|l|d];
    try (simpl; left; split; [reflexivity|intros t; discriminate]).
  unfold _build_spotify_embed, _yt_music_search, _yt_search, _brave_lyrics.
  destruct (forallb is_scalar t) eqn:Hs.
  - destruct (quote_plus_total t Hs) as [q ->].
    destruct (quote_plus_total (t ++ txt " lyrics")) as [q' ->];
      [now rewrite lyrics_suffix_scalar|].
    cbn [rbind]. exists t. repeat split; assumption.
  - rewrite (quote_plus_raises t Hs). cbn [rbind]. right. split; [reflexivity|].
    exists t. split; [reflexivity|exact Hs].
Qed.

(** The YouTube builder quotes the cleaned title: it returns an embed
    exactly for a raw title that is a [str] whose cleaned form UTF-8 can
    encode. *)
Lemma youtube_embed_cases : forall ua v author thumb show,
  match _build_youtube_embed ua v author thumb show with
  | Ok e =>
      exists t, v = VStr t /\ forallb is_scalar (_clean_yt_title ua t) = true
                /\ title e = note_prefix ++ t
                /\ thumbnail e = thumb_of show thumb
  | Raise x =>
      (x = TypeError /\ forall t, v <> VStr t)
      \/ (x = UnicodeEncodeError
          /\ exists t, v = VStr t /\ forallb is_scalar (_clean_yt_title ua t) = false)
  end.
Proof.
  intros ua v author thumb show.
  destruct v as [ |b|z|f|t|l|d];
    try (simpl; left; split; [reflexivity|intros t; discriminate]).
  unfold _build_youtube_embed, _spotify_search, _brave_lyrics.
  destruct (forallb is_scalar (_clean_yt_title ua t)) eqn:Hs.
  - destruct (quote_total _ Hs) as [q ->].
    destruct (quote_plus_total (_clean_yt_title ua t ++ txt " lyrics")) as [q' ->];
      [now rewrite lyrics_suffix_scalar|].
    cbn [rbind]. exists t. repeat split; assumption.
  - rewrite (quote_raises _ Hs). cbn [rbind]. right. split; [reflexivity|].
    exists t. split; [reflexivity|exact Hs].
Qed.

(** ** The units of a message *)

Lemma In_resolved : forall e us, In e (resolved us) -> In (Some (Ok e)) us.
Proof.
  intros e us. induction us as [|[[e'|x]|] us IH]; simpl; intro H.
  - exact H.
  - destruct H as [<-|H]; [left; reflexivity | right; exact (IH H)].
  - right. exact (IH H).
  - right. exact (IH H).
Qed.

Lemma units_In : forall net unit_of oembed_url ms n u,
  In u (units net unit_of oembed_url n ms) ->
  exists k m, In m ms
    /\ u = unit_of (metadata_of (net k {| url := oembed_url (group_1 m);
                                          timeout_total := 10 |})).
Proof.
  intros net unit_of oembed_url ms. induction ms as [|m ms IH]; simpl; intros n u H.
  - contradiction.
  - destruct H as [<-|H].
    + exists n, m. split; [left; reflexivity|reflexivity].
    + destruct (IH _ _ H) as (k & m' & Hm & ->). exists k, m'. split; [right; exact Hm|reflexivity].
Qed.

(** A unit of well-formed metadata is an embed or nothing. *)
Lemma get_well_formed_title : forall d default,
  well_formed (VDict d) = true -> forallb is_scalar default = true ->
  exists t, get (VDict d) (txt "title") (VStr default) = Ok (VStr t)
            /\ forallb is_scalar t = true.
Proof.
  intros d default Hw Hd. unfold get. unfold well_formed in Hw.
  destruct (lookup d (txt "title")) as [[ | | | |t| | ]|]; try discriminate Hw.
  - exists t. split; [reflexivity|exact Hw].
  - exists default. split; [reflexivity|exact Hd].
Qed.

Lemma get_dict_ok : forall d key default, exists v, get (VDict d) key default = Ok v.
Proof. intros d key default. unfold get. destruct (lookup d key); eauto. Qed.

Lemma spotify_unit_well_formed : forall show data,
  well_formed data = true ->
  spotify_unit show data = None \/ exists e, spotify_unit show data = Some (Ok e).
Proof.
  intros show data Hw. unfold spotify_unit.
  destruct (truthy data) eqn:Ht; [right|left; reflexivity].
  destruct data as [ |b|z|f|s|l|d];
    try (unfold well_formed in Hw; rewrite Ht in Hw; discriminate Hw).
  destruct (get_well_formed_title d (txt "Unknown Track") Hw eq_refl) as (t & -> & Hs).
  destruct (get_dict_ok d (txt "thumbnail_url") VNone) as [thumb ->]. cbn [rbind].
  pose proof (spotify_embed_cases (VStr t) thumb show) as Hc.
  destruct (_build_spotify_embed (VStr t) thumb show) as [e|x]; [eauto|].
  destruct Hc as [[_ Hc]|[_ (t' & [= <-] & Hc)]]; [now elim (Hc t)|congruence].
Qed.

Lemma youtube_unit_well_formed : forall ua show data,
  well_formed data = true ->
  youtube_unit ua show data = None
  \/ exists e, youtube_unit ua show data = Some (Ok e).
Proof.
  intros ua show data Hw. unfold youtube_unit.
  destruct (truthy data) eqn:Ht; [right|left; reflexivity].
  destruct data as [ |b|z|f|s|l|d];
    try (unfold well_formed in Hw; rewrite Ht in Hw; discriminate Hw).
  destruct (get_well_formed_title d (txt "Unknown") Hw eq_refl) as (t & -> & Hs).
  destruct (get_dict_ok d (txt "author_name") (VStr [])) as [author ->].
  destruct (get_dict_ok d (txt "thumbnail_url") VNone) as [thumb ->]. cbn [rbind].
  pose proof (youtube_embed_cases ua (VStr t) author thumb show) as Hc.
  destruct (_build_youtube_embed ua (VStr t) author thumb show) as [e|x]; [eauto|].
  destruct Hc as [[_ Hc]|[_ (t' & [= <-] & Hc)]]; [now elim (Hc t)|].
  rewrite (clean_scalar ua t Hs) in Hc. discriminate.
Qed.

(** Units that are embeds or nothing are gathered without an
    exception. *)
Lemma gather_no_raise : forall max us embeds,
  Forall (fun u => u = None \/ exists e, u = Some (Ok e)) us ->
  exists out, gather max us embeds = Ok out.
Proof.
  intros max us. induction us as [|u us IH]; intros embeds H; simpl.
  - eauto.
  - destruct (cap_reached embeds max); [eauto|].
    apply Forall_inv in H as Hu. apply Forall_inv_tail in H.
    destruct Hu as [->|[e ->]]; apply IH; exact H.
Qed.

(** The thumbnail of a unit's embed. *)
Lemma spotify_unit_thumbnail : forall show data e,
  spotify_unit show data = Some (Ok e) -> exists thumb, thumbnail e = thumb_of show thumb.
Proof.
  intros show data e H. unfold spotify_unit in H.
  destruct (truthy data); [|discriminate].
  destruct (get data (txt "title") _) as [v|x]; cbn [rbind] in H; [|discriminate].
  destruct (get data (txt "thumbnail_url") _) as [thumb|x]; cbn [rbind] in H; [|discriminate].
  pose proof (spotify_embed_cases v thumb show) as Hc.
  destruct (_build_spotify_embed v thumb show) as [e'|x]; [|discriminate].
  injection H as <-. destruct Hc as (t & _ & _ & _ & Hth). eauto.
Qed.

Lemma youtube_unit_thumbnail : forall ua show data e,
  youtube_unit ua show data = Some (Ok e) -> exists thumb, thumbnail e = thumb_of show thumb.
Proof.
  intros ua show data e H. unfold youtube_unit in H.
  destruct (truthy data); [|discriminate].
  destruct (get data (txt "title") _) as [v|x]; cbn [rbind] in H; [|discriminate].
  destruct (get data (txt "author_name") _) as [author|x]; cbn [rbind] in H; [|discriminate].
  destruct (get data (txt "thumbnail_url") _) as [thumb|x]; cbn [rbind] in H; [|discriminate].
  pose proof (youtube_embed_cases ua v author thumb show) as Hc.
  destruct (_build_youtube_embed ua v author thumb show) as [e'|x]; [|discriminate].
  injection H as <-. destruct Hc as (t & _ & _ & _ & Hth). eauto.
Qed.

(** ** The lyrics query *)

Lemma quote_plus_inv : forall s q,
  quote_plus s = Ok q ->
  forallb is_scalar s = true
  /\ exists bs, encode_utf8 s = Ok bs /\ q = flat_map plus_byte bs.
Proof.
  intros s q H. destruct (forallb is_scalar s) eqn:Hs.
  - split; [reflexivity|]. destruct (encode_utf8_total s Hs) as [bs Hbs].
    exists bs. split; [exact Hbs|]. rewrite (quote_plus_bytes s bs Hbs) in H.
    now injection H.
  - rewrite (quote_plus_raises s Hs) in H. discriminate.
Qed.


(** ** Rounds on a network where every lookup resolves *)

Lemma resolves_object : forall o,
  resolves o = true ->
  exists d, metadata_of o = VDict d /\ d <> [] /\ well_formed (VDict d) = true.
Proof.
  intros o H. unfold resolves in H. apply andb_prop in H. destruct H as [Ht Hw].
  destruct (metadata_of o) as [ |b|z|f|s|l|d];
    try (unfold well_formed in Hw; rewrite Ht in Hw; discriminate Hw).
  exists d. split; [reflexivity|]. split; [|exact Hw]. intros ->. discriminate Ht.
Qed.

Lemma well_formed_title : forall d default,
  well_formed (VDict d) = true -> forallb is_scalar default = true ->
  exists t, field_or d "title" (VStr default) = VStr t /\ forallb is_scalar t = true.
Proof.
  intros d default Hw Hd. unfold field_or. unfold well_formed in Hw.
  destruct (lookup d (txt "title")) as [[ | | | |t| | ]|]; try discriminate Hw.
  - exists t. split; [reflexivity|exact Hw].
  - exists default. split; [reflexivity|exact Hd].
Qed.

Section Resolving.
Variable ua : char -> bool.
Variable net : nat -> request -> outcome.
Hypothesis all_resolve : forall n rq, resolves (net n rq) = true.

Lemma resolving_spotify_loop : forall show max ms embeds st,
  exists new st',
    spotify_loop net show max ms embeds st = (Ok (embeds ++ new), st')
    /\ List.length new = Nat.min (Z.to_nat max - List.length embeds) (List.length ms)
    /\ List.length (requests st') = List.length (requests st) + List.length new.
Proof.
  intros show max ms. induction ms as [|m ms IH]; intros embeds st.
  - exists [], st. cbn. rewrite app_nil_r, Nat.min_0_r. repeat split. lia.
  - destruct (cap_reached embeds max) eqn:Hcap.
    + exists [], st. cbn [spotify_loop]. rewrite Hcap. cbn. rewrite app_nil_r.
      apply cap_reached_iff in Hcap. repeat split; lia.
    + assert (Hlt : List.length embeds < Z.to_nat max).
      { destruct (Nat.le_gt_cases (Z.to_nat max) (List.length embeds)) as [Hle|Hgt];
          [|exact Hgt]. apply cap_reached_iff in Hle. congruence. }
      destruct (resolves_object _ (all_resolve (List.length (requests st))
                                               (spotify_request m)))
        as (d & Hd & Hne & Hw).
      rewrite (spotify_round net show max m ms embeds st d Hcap Hne Hd).
      destruct (well_formed_title d (txt "Unknown Track") Hw eq_refl) as (t & -> & Hs).
      pose proof (spotify_embed_cases (VStr t) (field_or d "thumbnail_url" VNone) show) as Hc.
      destruct (_build_spotify_embed (VStr t) _ show) as [e|x].
      * destruct (IH (embeds ++ [e]) (asked st (spotify_request m)))
          as (new & st' & Hrun & Hlen & Hreq).
        exists (e :: new), st'. fold (spotify_request m).
        split; [rewrite Hrun, <- app_assoc; reflexivity|].
        rewrite length_app in Hlen. rewrite requests_asked in Hreq. simpl in *.
        split; lia.
      * destruct Hc as [[_ Hc]|[_ (t' & [= <-] & Hc)]]; [now elim (Hc t)|congruence].
Qed.

Lemma resolving_youtube_loop : forall show max ms embeds st,
  exists new st',
    youtube_loop ua net show max ms embeds st = (Ok (embeds ++ new), st')
    /\ List.length new = Nat.min (Z.to_nat max - List.length embeds) (List.length ms)
    /\ List.length (requests st') = List.length (requests st) + List.length new.
Proof.
  intros show max ms. induction ms as [|m ms IH]; intros embeds st.
  - exists [], st. cbn. rewrite app_nil_r, Nat.min_0_r. repeat split. lia.
  - destruct (cap_reached embeds max) eqn:Hcap.
    + exists [], st. cbn [youtube_loop]. rewrite Hcap. cbn. rewrite app_nil_r.
      apply cap_reached_iff in Hcap. repeat split; lia.
    + assert (Hlt : List.length embeds < Z.to_nat max).
      { destruct (Nat.le_gt_cases (Z.to_nat max) (List.length embeds)) as [Hle|Hgt];
          [|exact Hgt]. apply cap_reached_iff in Hle. congruence. }
      destruct (resolves_object _ (all_resolve (List.length (requests st))
                                               (youtube_request m)))
        as (d & Hd & Hne & Hw).
      rewrite (youtube_round ua net show max m ms embeds st d Hcap Hne Hd).
      destruct (well_formed_title d (txt "Unknown") Hw eq_refl) as (t & -> & Hs).
      pose proof (youtube_embed_cases ua (VStr t) (field_or d "author_name" (VStr []))
                                      (field_or d "thumbnail_url" VNone) show) as Hc.
      destruct (_build_youtube_embed ua (VStr t) _ _ show) as [e|x].
      * destruct (IH (embeds ++ [e]) (asked st (youtube_request m)))
          as (new & st' & Hrun & Hlen & Hreq).
        exists (e :: new), st'. fold (youtube_request m).
        split; [rewrite Hrun, <- app_assoc; reflexivity|].
        rewrite length_app in Hlen. rewrite requests_asked in Hreq. simpl in *.
        split; lia.
      * destruct Hc as [[_ Hc]|[_ (t' & [= <-] & Hc)]]; [now elim (Hc t)|].
        rewrite (clean_scalar ua t Hs) in Hc. discriminate.
Qed.

End Resolving.

(* ===================================================================== *)
(** * Sending the embeds *)
(* ===================================================================== *)

Lemma select_all : forall (A : Type) (l : list A), select (repeat true (List.length l)) l = l.
Proof. intros A l. induction l as [|x l IH]; simpl; [|rewrite IH]; reflexivity. Qed.

Lemma select_none : forall (A : Type) (l : list A), select [] l = [].
Proof. intros A l. destruct l; reflexivity. Qed.

Lemma select_length : forall (A : Type) mask (l : list A),
  List.length (select mask l) <= List.length l.
Proof.
  intros A mask. induction mask as [|b mask IH]; intros [|x l]; simpl; try lia.
  specialize (IH l). destruct b; simpl; lia.
Qed.

Lemma delivered_embeds_app : forall l1 l2,
  delivered_embeds (l1 ++ l2) = delivered_embeds l1 ++ delivered_embeds l2.
Proof. intros l1 l2. unfold delivered_embeds. apply flat_map_app. Qed.

Section SendingFacts.
Variable discord : nat -> delivery -> verdict.

(** The fallback attempts a prefix of the embeds, each once and in
    order, up to an exception it does not catch; what is delivered is
    picked from the embeds in their order. *)
Lemma send_each_log : forall embeds log,
  exists new mask j,
    snd (send_each discord embeds log) = log ++ new
    /\ j <= List.length embeds
    /\ List.map fst new = List.map Send (firstn j embeds)
    /\ delivered_embeds new = select mask embeds
    /\ (fst (send_each discord embeds log) = Returned -> j = List.length embeds).
Proof.
  intros embeds. induction embeds as [|e embeds IH]; intro log; cbn [send_each].
  - exists [], [], 0. rewrite app_nil_r. repeat split. simpl. lia.
  - unfold attempt. set (v := discord (List.length log) (Send e)).
    destruct (IH (log ++ [(Send e, v)])) as (new & mask & j & Hlog & Hj & Hatt & Hdel & Hret).
    assert (Hgo : exists new0 mask0 j0,
               snd (send_each discord embeds (log ++ [(Send e, v)])) = log ++ new0
               /\ j0 <= List.length (e :: embeds)
               /\ List.map fst new0 = List.map Send (firstn j0 (e :: embeds))
               /\ delivered_embeds new0
                  = select mask0 (e :: embeds)
               /\ (fst (send_each discord embeds (log ++ [(Send e, v)])) = Returned ->
                   j0 = List.length (e :: embeds))).
    { exists ((Send e, v) :: new),
             ((match v with Delivered => true | _ => false end) :: mask), (S j).
      split; [rewrite Hlog, <- app_assoc; reflexivity|].
      split; [simpl; lia|]. split; [simpl; now rewrite Hatt|].
      split; [|intro H; simpl; now rewrite (Hret H)].
      change ((Send e, v) :: new) with ([(Send e, v)] ++ new).
      rewrite delivered_embeds_app, Hdel. destruct v; reflexivity. }
    destruct v eqn:Hv; [exact Hgo|exact Hgo|].
    exists [(Send e, OtherException)], [], 1. cbn. repeat split; [lia|discriminate].
Qed.

(** The whole block: nothing for no embeds; else the reply, and after a
    refusal the fallback. *)
Lemma send_embeds_log : forall embeds log,
  exists new mask,
    snd (send_embeds discord embeds log) = log ++ new
    /\ delivered_embeds new = select mask embeds
    /\ List.length new <= 1 + List.length embeds
    /\ (embeds = [] -> new = []).
Proof.
  intros embeds log. destruct embeds as [|e embeds]; cbn [send_embeds].
  - exists [], []. rewrite app_nil_r. repeat split. simpl. lia.
  - unfold attempt. set (es := e :: embeds).
    destruct (discord (List.length log) (Reply es false)) eqn:Hv.
    + exists [(Reply es false, Delivered)], (repeat true (List.length es)).
      cbn [snd]. split; [reflexivity|]. split; [|split; [simpl; lia|discriminate]].
      rewrite select_all. cbn. now rewrite app_nil_r.
    + destruct (send_each_log es (log ++ [(Reply es false, HTTPException)]))
        as (new & mask & j & Hlog & Hj & Hatt & Hdel & _).
      exists ((Reply es false, HTTPException) :: new), mask.
      split; [rewrite Hlog, <- app_assoc; reflexivity|].
      split; [exact Hdel|]. split; [|discriminate].
      assert (Hlen : List.length new = j).
      { rewrite <- (length_map fst new), Hatt, length_map, length_firstn. lia. }
      change (List.length ((Reply es false, HTTPException) :: new))
        with (S (List.length new)). lia.
    + exists [(Reply es false, OtherException)], [].
      cbn [snd]. split; [reflexivity|]. split; [reflexivity|].
      split; [simpl; lia|discriminate].
Qed.

(** With nothing but refusals that the block catches, it returns, and the
    fallback goes through all the embeds. *)
Lemma send_each_returns : forall embeds log,
  (forall n d, discord n d <> OtherException) ->
  exists new,
    send_each discord embeds log = (Returned, log ++ new)
    /\ List.map fst new = List.map Send embeds.
Proof.
  intros embeds. induction embeds as [|e embeds IH]; intros log Hno; cbn [send_each].
  - exists []. now rewrite app_nil_r.
  - unfold attempt. set (v := discord (List.length log) (Send e)).
    destruct (IH (log ++ [(Send e, v)]) Hno) as (new & Hrun & Hatt).
    assert (Hv : v <> OtherException) by apply Hno.
    exists ((Send e, v) :: new). rewrite <- app_assoc in Hrun.
    split; [|simpl; now rewrite Hatt].
    destruct v; [exact Hrun|exact Hrun|congruence].
Qed.

(** A channel that takes every single embed gets them all. *)
Lemma send_each_all : forall embeds log,
  (forall n e, discord n (Send e) = Delivered) ->
  exists new,
    send_each discord embeds log = (Returned, log ++ new)
    /\ delivered_embeds new = embeds.
Proof.
  intros embeds. induction embeds as [|e embeds IH]; intros log Hall; cbn [send_each].
  - exists []. now rewrite app_nil_r.
  - unfold attempt. rewrite Hall.
    destruct (IH (log ++ [(Send e, Delivered)]) Hall) as (new & Hrun & Hdel).
    exists ((Send e, Delivered) :: new). rewrite <- app_assoc in Hrun.
    split; [exact Hrun|]. change ((Send e, Delivered) :: new) with ([(Send e, Delivered)] ++ new).
    rewrite delivered_embeds_app, Hdel. reflexivity.
Qed.

End SendingFacts.

(* ===================================================================== *)
(** * More on the title cleaner *)
(* ===================================================================== *)

(** ** Stripping *)

Lemma lstrip_suffix : forall s, exists pre, s = pre ++ lstrip s.
Proof.
  induction s as [|c s [pre IH]]; simpl.
  - exists []. reflexivity.
  - destruct (is_space c).
    + exists (c :: pre). simpl. now rewrite <- IH.
    + exists []. reflexivity.
Qed.

Lemma rstrip_prefix : forall s, exists post, s = rstrip s ++ post.
Proof.
  intro s. unfold rstrip. destruct (lstrip_suffix (rev s)) as [pre H].
  exists (rev pre). rewrite <- rev_app_distr, <- H, rev_involutive. reflexivity.
Qed.

Lemma lstrip_fixed : forall c s, is_space c = false -> lstrip (c :: s) = c :: s.
Proof. intros c s H. simpl. now rewrite H. Qed.

Lemma lstrip_snoc : forall s c, is_space c = false -> lstrip (s ++ [c]) = lstrip s ++ [c].
Proof.
  induction s as [|x s IH]; intros c H; simpl.
  - now rewrite H.
  - destruct (is_space x); [now apply IH|reflexivity].
Qed.

Lemma rstrip_cons : forall c s, is_space c = false -> rstrip (c :: s) = c :: rstrip s.
Proof.
  intros c s H. unfold rstrip. simpl. rewrite (lstrip_snoc _ _ H), rev_app_distr.
  reflexivity.
Qed.

Lemma rstrip_snoc : forall s c, is_space c = false -> rstrip (s ++ [c]) = s ++ [c].
Proof.
  intros s c H. unfold rstrip. rewrite rev_app_distr. simpl. rewrite H.
  simpl. now rewrite rev_involutive.
Qed.

(** What [strip] returns starts and ends with a character that is no
    whitespace. *)
Lemma strip_head : forall s c t, strip s = c :: t -> is_space c = false.
Proof.
  intros s c t H. unfold strip in H.
  destruct (lstrip s) as [|x r] eqn:E; [discriminate|].
  apply lstrip_head in E. rewrite (rstrip_cons _ _ E) in H. now injection H as <- _.
Qed.

Lemma strip_last : forall s init c, strip s = init ++ [c] -> is_space c = false.
Proof.
  intros s init c H. unfold strip, rstrip in H.
  apply (f_equal (@rev char)) in H. rewrite rev_involutive, rev_app_distr in H. simpl in H.
  exact (lstrip_head _ _ _ H).
Qed.

(** A text that starts and ends so is left as it is. *)
Lemma strip_fixed : forall s,
  (forall c t, s = c :: t -> is_space c = false) ->
  (forall init c, s = init ++ [c] -> is_space c = false) ->
  strip s = s.
Proof.
  intros s Hh Hl. destruct s as [|c t]; [reflexivity|].
  unfold strip. rewrite (lstrip_fixed c t (Hh c t eq_refl)).
  destruct (exists_last (l := c :: t)) as (init & d & E); [discriminate|].
  rewrite E. apply rstrip_snoc. exact (Hl init d E).
Qed.

Lemma strip_idempotent : forall s, strip (strip s) = strip s.
Proof.
  intro s. apply strip_fixed.
  - intros c t H. exact (strip_head _ _ _ H).
  - intros init c H. exact (strip_last _ _ _ H).
Qed.

Lemma lstrip_length : forall s, List.length (lstrip s) <= List.length s.
Proof.
  induction s as [|c s IH]; simpl; [lia|]. destruct (is_space c); simpl; lia.
Qed.

Lemma strip_length : forall s, List.length (strip s) <= List.length s.
Proof.
  intro s. unfold strip, rstrip. rewrite length_rev.
  pose proof (lstrip_length (rev (lstrip s))) as H. rewrite length_rev in H.
  pose proof (lstrip_length s). lia.
Qed.

(** ** Single spacing *)

Lemma single_spaced_tail : forall c s, single_spaced (c :: s) = true -> single_spaced s = true.
Proof. intros c s H. cbn [single_spaced] in H. now apply andb_prop in H. Qed.

Lemma single_spaced_app_r : forall a b, single_spaced (a ++ b) = true -> single_spaced b = true.
Proof.
  induction a as [|c a IH]; intros b H; [exact H|].
  apply IH. exact (single_spaced_tail _ _ H).
Qed.

Lemma single_spaced_app_l : forall a b, single_spaced (a ++ b) = true -> single_spaced a = true.
Proof.
  induction a as [|c a IH]; intros b H; [reflexivity|].
  cbn [app single_spaced] in *. apply andb_prop in H. destruct H as [H1 H2].
  rewrite (IH b H2), andb_true_r. destruct a; [reflexivity|exact H1].
Qed.

Lemma strip_single_spaced : forall s, single_spaced s = true -> single_spaced (strip s) = true.
Proof.
  intros s H. unfold strip.
  destruct (lstrip_suffix s) as [pre Hs]. rewrite Hs in H. apply single_spaced_app_r in H.
  destruct (rstrip_prefix (lstrip s)) as [post Hp]. rewrite Hp in H.
  exact (single_spaced_app_l _ _ H).
Qed.

(** Step 4 leaves no two whitespace characters together; after a run it
    goes on with a character that is none. *)
Lemma collapse_single_spaced : forall s,
  single_spaced (collapse_whitespace false s) = true
  /\ single_spaced (collapse_whitespace true s) = true
  /\ match collapse_whitespace true s with
     | c :: _ => is_space c = false
     | [] => True
     end
  /\ match s with
     | c :: _ => is_space c = false ->
                 exists t, collapse_whitespace false s = c :: t
     | [] => True
     end.
Proof.
  induction s as [|c s (IHf & IHt & IHh & IHc)]; [repeat split|].
  assert (Hnon : is_space c = false ->
                 collapse_whitespace false (c :: s) = c :: collapse_whitespace false s
                 /\ collapse_whitespace true (c :: s) = c :: collapse_whitespace false s).
  { intro H. cbn [collapse_whitespace]. rewrite H. split; reflexivity. }
  assert (Hcons : forall x, is_space x = false \/
                            match collapse_whitespace false s with
                            | d :: _ => is_space d = false
                            | [] => True
                            end ->
                            single_spaced (x :: collapse_whitespace false s) = true).
  { intros x Hx. cbn [single_spaced]. rewrite IHf, andb_true_r.
    destruct (collapse_whitespace false s) as [|d r]; [reflexivity|].
    destruct Hx as [Hx|Hx]; rewrite Hx; [reflexivity|apply negb_true_iff, andb_false_r]. }
  destruct (is_space c) eqn:Hc.
  - split; [|split; [|split]].
    + cbn [collapse_whitespace]. rewrite Hc. destruct s as [|d s']; [reflexivity|].
      destruct (is_space d) eqn:Hd.
      * cbn [single_spaced]. rewrite IHt, andb_true_r.
        destruct (collapse_whitespace true (d :: s')) as [|e r]; [reflexivity|].
        rewrite IHh. apply negb_true_iff, andb_false_r.
      * apply Hcons. right. destruct (IHc eq_refl) as [t ->]. exact Hd.
    + cbn [collapse_whitespace]. rewrite Hc. exact IHt.
    + cbn [collapse_whitespace]. rewrite Hc. exact IHh.
    + intro H. discriminate.
  - destruct (Hnon eq_refl) as [-> ->]. split; [|split; [|split]].
    + apply Hcons. left. exact Hc.
    + apply Hcons. left. exact Hc.
    + exact Hc.
    + intros _. eauto.
Qed.

(** ** Lengths *)

(** A substitution that writes no more than a match takes does not
    lengthen the text. *)
Lemma replace_scan_length : forall r repl,
  0 < min_len r -> List.length repl <= min_len r ->
  forall s skip prev,
    List.length (replace repl (scan r skip prev s)) <= List.length s - skip.
Proof.
  intros r repl Hmin Hrepl s. induction s as [|c s IH]; intros skip prev.
  - destruct skip; [rewrite (scan_nil r prev Hmin) | cbn [scan]]; simpl; lia.
  - destruct skip as [|n]; cbn [scan].
    + destruct (exec r prev (c :: s)) as [mo|] eqn:He; cbn [replace].
      * destruct (exec_sound _ _ _ _ _ (classes_in_True r) He) as (s' & Hs & _ & Hlen).
        assert (Hw : List.length (whole mo) <= S (List.length s)).
        { apply (f_equal (@List.length char)) in Hs. rewrite length_app in Hs.
          simpl in Hs. lia. }
        rewrite length_app. destruct (List.length (whole mo)) as [|n] eqn:En; [lia|].
        specialize (IH n (Some c)). simpl. lia.
      * specialize (IH 0 (Some c)). simpl. lia.
    + specialize (IH n (Some c)). simpl. lia.
Qed.

Lemma sub_length : forall r repl s,
  0 < min_len r -> List.length repl <= min_len r ->
  List.length (sub r repl s) <= List.length s.
Proof.
  intros r repl s Hmin Hrepl. unfold sub.
  pose proof (replace_scan_length r repl Hmin Hrepl s 0 None). lia.
Qed.

Lemma cleaned_title_length : forall ua title,
  List.length (cleaned_title ua title) <= List.length title.
Proof.
  intros ua title. unfold cleaned_title.
  destruct (patterns_need_a_character ua) as (_ & _ & H1 & H2 & H3 & H4 & H5).
  eapply Nat.le_trans; [apply strip_length|].
  eapply Nat.le_trans; [apply (sub_length _ _ _ H5); simpl; lia|].
  eapply Nat.le_trans; [apply (sub_length _ _ _ H4); simpl; lia|].
  eapply Nat.le_trans; [apply (sub_length _ _ _ H3); simpl; lia|].
  eapply Nat.le_trans; [apply (sub_length _ _ _ H2); simpl; lia|].
  apply (sub_length _ _ _ H1). simpl. lia.
Qed.

(** ** Titles with nothing to clean *)

Lemma remove_bracketed_none : forall s,
  forallb (fun c => negb (is_open_bracket c)) s = true -> remove_bracketed false s = s.
Proof.
  induction s as [|c s IH]; intro H; simpl in *; [reflexivity|].
  apply andb_prop in H. destruct H as [Hc Hs]. apply negb_true_iff in Hc.
  rewrite Hc. simpl. now rewrite IH.
Qed.

(** Without a match a substitution changes nothing. *)
Lemma replace_no_hits : forall repl ps,
  hits ps = [] -> replace repl ps = flat_map piece_text ps.
Proof.
  intros repl ps. induction ps as [|[c|m] ps IH]; simpl; intro H.
  - reflexivity.
  - now rewrite IH.
  - discriminate.
Qed.

Lemma sub_no_match : forall r repl s,
  0 < min_len r -> finditer r s = [] -> sub r repl s = s.
Proof.
  intros r repl s Hmin H. unfold sub, finditer in *.
  rewrite (replace_no_hits _ _ H). exact (scan_text r Hmin s 0 None).
Qed.

Lemma skip_while_fixed : forall (p : char -> bool) c s,
  p c = false -> skip_while p (c :: s) = c :: s.
Proof. intros p c s H. simpl. now rewrite H. Qed.

(** A separator tail holds whitespace and separators only. *)
Lemma forallb_skip_while : forall (p q : char -> bool) s,
  forallb q (skip_while p s) = true -> forallb (fun c => p c || q c) s = true.
Proof.
  intros p q. induction s as [|c s IH]; simpl; intro H; [reflexivity|].
  destruct (p c) eqn:Hp.
  - simpl. now apply IH.
  - simpl in H. apply andb_prop in H. destruct H as [Hq Hs]. rewrite Hq. simpl.
    clear -Hs. induction s as [|d s IH]; simpl in *; [reflexivity|].
    apply andb_prop in Hs. destruct Hs as [Hd Hs]. rewrite Hd, orb_true_r. now apply IH.
Qed.

Lemma separator_tail_chars : forall s,
  separator_tail s = true -> forallb (fun c => negb (is_edge c)) s = true.
Proof.
  intros s H. unfold separator_tail in H.
  assert (Hall : forallb (fun c => is_space c || (is_separator c || is_space c)) s = true).
  { apply forallb_skip_while.
    destruct (skip_while is_space s) as [|c t]; [discriminate|].
    apply andb_prop in H. destruct H as [Hc Ht]. simpl. rewrite Hc. simpl.
    now apply forallb_skip_while. }
  apply forallb_forall. intros c Hc. rewrite forallb_forall in Hall. specialize (Hall c Hc).
  unfold is_edge. destruct (is_space c), (is_separator c); simpl in *; congruence.
Qed.

Lemma last_in : forall (s : str) c d, In (last (c :: s) d) (c :: s).
Proof.
  induction s as [|x s IH]; intros c d; [left; reflexivity|].
  right. change (last (c :: x :: s) d) with (last (x :: s) d). apply IH.
Qed.

Lemma strip_trailing_fixed : forall s d,
  (s <> [] -> is_edge (last s d) = true) -> strip_trailing_separators s = s.
Proof.
  induction s as [|c s IH]; intros d H; [reflexivity|].
  cbn [strip_trailing_separators].
  destruct (separator_tail (c :: s)) eqn:Ht.
  - apply separator_tail_chars in Ht. rewrite forallb_forall in Ht.
    specialize (Ht _ (last_in s c d)). rewrite H in Ht; [discriminate Ht|discriminate].
  - f_equal. apply (IH d). intro Hne. destruct s as [|x s]; [congruence|].
    apply H. discriminate.
Qed.

Lemma strip_leading_fixed : forall c s,
  is_edge c = true -> strip_leading_separators (c :: s) = c :: s.
Proof.
  intros c s H. unfold is_edge in H. apply andb_prop in H. destruct H as [H1 H2].
  apply negb_true_iff in H1, H2. unfold strip_leading_separators.
  rewrite (skip_while_fixed is_space c s H1), H2. reflexivity.
Qed.

Lemma collapse_fixed : forall s,
  single_spaced s = true -> collapse_whitespace false s = s.
Proof.
  induction s as [|c s IH]; intro H; [reflexivity|].
  cbn [single_spaced] in H. apply andb_prop in H. destruct H as [H1 H2].
  cbn [collapse_whitespace]. rewrite (IH H2).
  destruct (is_space c) eqn:Hc; [|reflexivity].
  destruct s as [|d s]; [reflexivity|].
  simpl in H1. apply negb_true_iff in H1. now rewrite H1.
Qed.

Lemma last_snoc : forall (init : str) c d, last (init ++ [c]) d = c.
Proof.
  induction init as [|x init IH]; intros c d; [reflexivity|].
  simpl. destruct (init ++ [c]) eqn:E; [now destruct init|]. rewrite <- E. apply IH.
Qed.

(** A tidy title without a keyword goes through the cleaner unchanged. *)
Lemma clean_tidy : forall ua s,
  is_tidy s = true -> finditer (YT_TITLE_KEYWORDS ua) s = [] ->
  cleaned_title ua s = s /\ _clean_yt_title ua s = s.
Proof.
  intros ua s Ht Hk. unfold is_tidy in Ht.
  apply andb_prop in Ht. destruct Ht as [Ht Hedge].
  apply andb_prop in Ht. destruct Ht as [Hbr Hsp].
  destruct s as [|c s]; [discriminate|].
  apply andb_prop in Hedge. destruct Hedge as [Hfirst Hlast].
  assert (E : cleaned_title ua (c :: s) = c :: s).
  { unfold cleaned_title.
    rewrite sub_noise, (remove_bracketed_none _ Hbr).
    rewrite (sub_no_match _ _ _ (proj1 (proj2 (proj2 (proj2 (patterns_need_a_character ua)))))
               Hk).
    rewrite sub_trailing, (strip_trailing_fixed (c :: s) c (fun _ => Hlast)).
    rewrite sub_leading, (strip_leading_fixed c s Hfirst).
    rewrite sub_whitespace_run, (collapse_fixed _ Hsp).
    apply strip_fixed.
    - intros x t [= <- _]. unfold is_edge in Hfirst. apply andb_prop in Hfirst.
      now apply negb_true_iff.
    - intros init x Hx. rewrite Hx, last_snoc in Hlast. unfold is_edge in Hlast.
      apply andb_prop in Hlast. now apply negb_true_iff. }
  split; [exact E|]. unfold _clean_yt_title. now rewrite E.
Qed.

(* ===================================================================== *)
(** * The settings commands *)
(* ===================================================================== *)

Lemma set_guild_same : forall g s st, config (set_guild g s st) g = s.
Proof. intros g s st. cbn. now rewrite Z.eqb_refl. Qed.

Lemma set_guild_other : forall g g' s st, g' <> g -> config (set_guild g s st) g' = config st g'.
Proof. intros g g' s st H. cbn. apply Z.eqb_neq in H. now rewrite H. Qed.

(** A command changes the settings of its guild and nothing else. *)
Lemma command_other_guild : forall g g' c st,
  g' <> g -> config (run_command g c st) g' = config st g'.
Proof.
  intros g g' c st H.
  destruct c as [| | |limit]; cbn [run_command snd musiclinker ml_toggle ml_thumbnail
                                   ml_maxlinks];
    try reflexivity; now apply set_guild_other.
Qed.

(** The decimals of the limits that can be stored. *)
Lemma str_of_clamped : forall z, (1 <= z <= 10)%Z ->
  In (str_of_int z)
     [txt "1"; txt "2"; txt "3"; txt "4"; txt "5"; txt "6"; txt "7"; txt "8"; txt "9";
      txt "10"].
Proof.
  intros z H.
  assert (Hz : (z = 1 \/ z = 2 \/ z = 3 \/ z = 4 \/ z = 5 \/ z = 6 \/ z = 7 \/ z = 8
                \/ z = 9 \/ z = 10)%Z) by lia.
  repeat (destruct Hz as [->|Hz]; [vm_compute; tauto|]). subst z. vm_compute. tauto.
Qed.

(** Runs of events leave the settings of a guild alone in which no
    command was given. *)
Lemma events_other_guild : forall ua net g es st,
  (forall c, ~ In (OnCommand g c) es) ->
  config (run_events ua net es st) g = config st g.
Proof.
  intros ua net g es. unfold run_events.
  induction es as [|e es IH]; intros st H; simpl; [reflexivity|].
  rewrite IH; [|intros c Hc; apply (H c); right; exact Hc].
  destruct e as [g' c|msg|]; cbn [step].
  - apply command_other_guild. intros ->. apply (H c). left. reflexivity.
  - now rewrite keeps_on_message.
  - now rewrite (proj1 (proj2 (unload_keeps_requests st))).
Qed.

(* ===================================================================== *)
(** * Reading a quoted query back *)
(* ===================================================================== *)

Local Opaque N.add N.div N.modulo N.mul N.sub.

(** The encoder's bytes are read back as the code point. *)
Lemma utf8_head_encode : forall c bs rest,
  utf8 c = Some bs -> utf8_head (bs ++ rest) = Some (c, rest) /\ bs <> [].
Proof.
  intros c bs rest. unfold utf8.
  destruct (c <? 0x80)%N eqn:H1.
  { apply N.ltb_lt in H1. intros [= <-]. split; [|discriminate].
    cbn [app utf8_head]. apply N.ltb_lt in H1. now rewrite H1. }
  destruct (c <? 0x800)%N eqn:H2.
  { apply N.ltb_lt in H2. apply N.ltb_ge in H1. intros [= <-]. split; [|discriminate].
    cbn [app utf8_head].
    assert (E1 : (0xC0 + c / 0x40 <? 0x80)%N = false) by (apply N.ltb_ge; lia).
    assert (E2 : (0xC0 + c / 0x40 <? 0xE0)%N = true) by (apply N.ltb_lt; lia).
    rewrite E1, E2. do 2 f_equal. lia. }
  destruct (c <? 0x10000)%N eqn:H3.
  { destruct (is_surrogate c); [discriminate|].
    apply N.ltb_lt in H3. apply N.ltb_ge in H2. intros [= <-]. split; [|discriminate].
    cbn [app utf8_head].
    assert (E1 : (0xE0 + c / 0x1000 <? 0x80)%N = false) by (apply N.ltb_ge; lia).
    assert (E2 : (0xE0 + c / 0x1000 <? 0xE0)%N = false) by (apply N.ltb_ge; lia).
    assert (E3 : (0xE0 + c / 0x1000 <? 0xF0)%N = true) by (apply N.ltb_lt; lia).
    rewrite E1, E2, E3. do 2 f_equal. lia. }
  destruct (c <? 0x110000)%N eqn:H4; [|discriminate].
  apply N.ltb_lt in H4. apply N.ltb_ge in H3. intros [= <-]. split; [|discriminate].
  cbn [app utf8_head].
  assert (E1 : (0xF0 + c / 0x40000 <? 0x80)%N = false) by (apply N.ltb_ge; lia).
  assert (E2 : (0xF0 + c / 0x40000 <? 0xE0)%N = false) by (apply N.ltb_ge; lia).
  assert (E3 : (0xF0 + c / 0x40000 <? 0xF0)%N = false) by (apply N.ltb_ge; lia).
  rewrite E1, E2, E3. do 2 f_equal. lia.
Qed.

Local Transparent N.add N.div N.modulo N.mul N.sub.

Lemma encode_utf8_cons : forall c s bs,
  encode_utf8 (c :: s) = Ok bs ->
  exists b r, utf8 c = Some b /\ encode_utf8 s = Ok r /\ bs = b ++ r.
Proof.
  intros c s bs H. simpl in H.
  destruct (utf8 c) as [b|]; [|discriminate].
  destruct (encode_utf8 s) as [r|]; [|discriminate].
  simpl in H. injection H as <-. eauto.
Qed.

(** Two texts with the same bytes are the same text. *)
Lemma encode_utf8_injective : forall s1 s2 bs,
  encode_utf8 s1 = Ok bs -> encode_utf8 s2 = Ok bs -> s1 = s2.
Proof.
  induction s1 as [|c1 s1 IH]; intros [|c2 s2] bs H1 H2.
  - reflexivity.
  - simpl in H1. injection H1 as <-. apply encode_utf8_cons in H2.
    destruct H2 as (b & r & Hb & _ & E). symmetry in E. apply app_eq_nil in E.
    destruct E as [-> _]. now destruct (utf8_head_encode _ _ [] Hb).
  - simpl in H2. injection H2 as <-. apply encode_utf8_cons in H1.
    destruct H1 as (b & r & Hb & _ & E). symmetry in E. apply app_eq_nil in E.
    destruct E as [-> _]. now destruct (utf8_head_encode _ _ [] Hb).
  - apply encode_utf8_cons in H1, H2.
    destruct H1 as (b1 & r1 & Hb1 & Hr1 & ->). destruct H2 as (b2 & r2 & Hb2 & Hr2 & E).
    destruct (utf8_head_encode _ _ r1 Hb1) as [D1 _].
    destruct (utf8_head_encode _ _ r2 Hb2) as [D2 _].
    rewrite E, D2 in D1. injection D1 as -> ->. f_equal. exact (IH _ _ Hr1 Hr2).
Qed.

Lemma unhex_hex_digit : forall n, (n < 16)%N -> unhex (hex_digit n) = n.
Proof.
  intros n H. unfold unhex, hex_digit.
  destruct (n <? 10)%N eqn:E; [apply N.ltb_lt in E | apply N.ltb_ge in E].
  - assert (E1 : (0x30 + n <? 0x3A)%N = true) by (apply N.ltb_lt; lia). rewrite E1. lia.
  - assert (E1 : (0x41 + (n - 10) <? 0x3A)%N = false) by (apply N.ltb_ge; lia).
    rewrite E1. lia.
Qed.

Lemma safe_not_percent : forall b, always_safe b = true -> b <> ch "%" /\ b <> ch "+".
Proof.
  intros b H. apply always_safe_cases in H. rewrite alnum_cases in H.
  change (ch "%") with 37%N. change (ch "+") with 43%N. lia.
Qed.

Lemma unquote_escape : forall plus b rest, (b < 256)%N ->
  unquote_head plus ([ch "%"; hex_digit (b / 16); hex_digit (b mod 16)] ++ rest)
  = Some (b, rest).
Proof.
  intros plus b rest H. cbn [app unquote_head]. rewrite N.eqb_refl.
  rewrite !unhex_hex_digit by lia. do 2 f_equal. lia.
Qed.

(** What [quote_plus] writes for a byte is read back as the byte. *)
Lemma unquote_plus_byte : forall b rest, (b < 256)%N ->
  unquote_head true (plus_byte b ++ rest) = Some (b, rest) /\ plus_byte b <> [].
Proof.
  intros b rest H. unfold plus_byte.
  destruct (b =? ch " ")%N eqn:Hsp.
  - apply N.eqb_eq in Hsp. subst b. split; [reflexivity|discriminate].
  - unfold quote_byte, no_safe. rewrite orb_false_r.
    destruct (always_safe b) eqn:Hs.
    + split; [|discriminate]. destruct (safe_not_percent b Hs) as [H1 H2].
      apply N.eqb_neq in H1, H2. cbn [app unquote_head]. now rewrite H1, H2.
    + split; [|discriminate]. now apply unquote_escape.
Qed.

(** The same for [quote], which keeps the slash. *)
Lemma unquote_byte : forall b rest, (b < 256)%N ->
  unquote_head false (quote_byte (is_char (ch "/")) b ++ rest) = Some (b, rest)
  /\ quote_byte (is_char (ch "/")) b <> [].
Proof.
  intros b rest H. unfold quote_byte.
  destruct (always_safe b || is_char (ch "/") b) eqn:Hs.
  - split; [|discriminate]. cbn [app unquote_head].
    assert (Hp : (b =? ch "%")%N = false).
    { apply N.eqb_neq. apply orb_prop in Hs. destruct Hs as [Hs|Hs].
      - now destruct (safe_not_percent b Hs).
      - apply is_char_iff in Hs. subst b. discriminate. }
    now rewrite Hp.
  - split; [|discriminate]. now apply unquote_escape.
Qed.

(** A byte code that can be read back makes the quoted text determine
    the bytes. *)
Lemma flat_map_injective : forall (f : byte -> str) (dec : str -> option (byte * str)),
  (forall b rest, (b < 256)%N -> dec (f b ++ rest) = Some (b, rest) /\ f b <> []) ->
  forall l1 l2,
    Forall (fun b => (b < 256)%N) l1 -> Forall (fun b => (b < 256)%N) l2 ->
    flat_map f l1 = flat_map f l2 -> l1 = l2.
Proof.
  intros f dec Hdec. induction l1 as [|b1 l1 IH]; intros [|b2 l2] F1 F2 E; simpl in E.
  - reflexivity.
  - apply Forall_inv in F2. symmetry in E. apply app_eq_nil in E.
    destruct E as [E _]. now destruct (Hdec b2 [] F2).
  - apply Forall_inv in F1. apply app_eq_nil in E.
    destruct E as [E _]. now destruct (Hdec b1 [] F1).
  - apply Forall_inv in F1 as B1. apply Forall_inv in F2 as B2.
    apply Forall_inv_tail in F1, F2.
    destruct (Hdec b1 (flat_map f l1) B1) as [D1 _].
    destruct (Hdec b2 (flat_map f l2) B2) as [D2 _].
    rewrite E, D2 in D1. injection D1 as -> E'. f_equal. symmetry in E'.
    exact (IH l2 F1 F2 E').
Qed.

Lemma quote_inv : forall s q,
  quote s = Ok q ->
  exists bs, encode_utf8 s = Ok bs /\ q = flat_map (quote_byte (is_char (ch "/"))) bs.
Proof.
  intros s q H. destruct (forallb is_scalar s) eqn:Hs.
  - destruct (encode_utf8_total s Hs) as [bs Hbs].
    exists bs. split; [exact Hbs|]. rewrite (quote_bytes s bs Hbs) in H. now injection H.
  - rewrite (quote_raises s Hs) in H. discriminate.
Qed.

(** Two queries that [quote_plus] quotes alike are the same query, and so
    for [quote]. *)
Lemma quote_plus_injective : forall s1 s2 q,
  quote_plus s1 = Ok q -> quote_plus s2 = Ok q -> s1 = s2.
Proof.
  intros s1 s2 q H1 H2. apply quote_plus_inv in H1, H2.
  destruct H1 as (_ & b1 & E1 & ->). destruct H2 as (_ & b2 & E2 & Hq).
  assert (b1 = b2).
  { apply (flat_map_injective plus_byte (unquote_head true) unquote_plus_byte).
    - exact (proj1 (encode_utf8_bytes _ _ E1)).
    - exact (proj1 (encode_utf8_bytes _ _ E2)).
    - exact Hq. }
  subst b2. exact (encode_utf8_injective _ _ _ E1 E2).
Qed.

Lemma quote_injective : forall s1 s2 q,
  quote s1 = Ok q -> quote s2 = Ok q -> s1 = s2.
Proof.
  intros s1 s2 q H1 H2. apply quote_inv in H1, H2.
  destruct H1 as (b1 & E1 & ->). destruct H2 as (b2 & E2 & Hq).
  assert (b1 = b2).
  { apply (flat_map_injective (quote_byte (is_char (ch "/"))) (unquote_head false)
             unquote_byte).
    - exact (proj1 (encode_utf8_bytes _ _ E1)).
    - exact (proj1 (encode_utf8_bytes _ _ E2)).
    - exact Hq. }
  subst b2. exact (encode_utf8_injective _ _ _ E1 E2).
Qed.

(** ** Plain queries *)

Lemma plain_ascii : forall c, is_plain c = true -> (c < 128)%N.
Proof.
  intros c H. unfold is_plain in H. apply orb_prop in H. destruct H as [H|H].
  - apply always_safe_cases in H. rewrite alnum_cases in H. lia.
  - apply N.eqb_eq in H. subst c. reflexivity.
Qed.

Lemma encode_utf8_plain : forall s, forallb is_plain s = true -> encode_utf8 s = Ok s.
Proof.
  induction s as [|c s IH]; intro H; simpl in *; [reflexivity|].
  apply andb_prop in H. destruct H as [Hc Hs]. apply plain_ascii in Hc.
  unfold utf8. apply N.ltb_lt in Hc.
  assert (E : (c <? 0x80)%N = true) by exact Hc. rewrite E, (IH Hs). reflexivity.
Qed.

(* ===================================================================== *)
(** * Claims on the link extractor *)
(* ===================================================================== *)

(** C4, as the code has it.  A Spotify track link with or without the
    [intl-xx/] part (two lower-case letters) and a 22-character
    alphanumeric id is found by [SPOTIFY_RE.finditer] wherever it stands
    in a text, after a bracket, a colon or a letter as well as after
    whitespace, unless another track link begins before it with no
    whitespace between the two: group 1 is the id, and the match runs on
    over the characters after the id up to the next whitespace, which are
    no part of the id.  At the start of the text and after whitespace no
    link can begin before it in that way.  In the case left out, a match
    that begins before the link runs over the place where the link
    begins; every text is in one case or the other. *)
Theorem spotify_link_extracted : forall https intl id trail pre post,
  match intl with
  | Some (a, b) => is_lower_az a = true /\ is_lower_az b = true
  | None => True
  end ->
  List.length id = 22 -> forallb is_alnum_ascii id = true ->
  forallb non_space trail = true -> before_blank post ->
  (clear_of_links pre (spotify_track_url https intl id ++ trail ++ post) ->
   In {| whole := spotify_track_url https intl id ++ trail; group1 := Some id |}
      (finditer SPOTIFY_RE (pre ++ spotify_track_url https intl id ++ trail ++ post)))
  /\ (after_blank pre ->
      clear_of_links pre (spotify_track_url https intl id ++ trail ++ post))
  /\ (link_before pre (spotify_track_url https intl id ++ trail ++ post) ->
      exists mo a post',
        In mo (finditer SPOTIFY_RE (pre ++ spotify_track_url https intl id ++ trail ++ post))
        /\ pre ++ spotify_track_url https intl id ++ trail ++ post = a ++ whole mo ++ post'
        /\ List.length a < List.length pre
        /\ List.length pre < List.length a + List.length (whole mo))
  /\ (clear_of_links pre (spotify_track_url https intl id ++ trail ++ post)
      \/ link_before pre (spotify_track_url https intl id ++ trail ++ post)).
Proof.
  intros https intl id trail pre post Hintl Hlen Hid Htrail Hpost.
  split; [|split; [|split; [|apply clear_or_link_before]]].
  - intro Hclear.
    rewrite (app_assoc (spotify_track_url https intl id) trail post).
    apply finditer_clear.
    + exact spotify_classes.
    + cbn. lia.
    + intros a b prev Hpre Hb Hns.
      destruct (exec SPOTIFY_RE prev (b ++ (spotify_track_url https intl id ++ trail) ++ post))
        as [mo|] eqn:He; [exfalso|reflexivity].
      apply exec_spotify_begins in He. destruct He as [He _].
      rewrite <- app_assoc in He. exact (Hclear a b Hpre Hb Hns He).
    + intro prev. rewrite <- app_assoc. now apply exec_spotify.
    + reflexivity.
    + unfold spotify_track_url. rewrite <- !app_assoc. apply scheme_not_nil.
  - apply after_blank_clear.
  - apply link_before_covers.
    + unfold spotify_track_url. rewrite <- !app_assoc. apply scheme_not_nil.
    + intros c q Heq. unfold spotify_track_url, scheme in Heq.
      rewrite <- !app_assoc in Heq. injection Heq as <- _. reflexivity.
Qed.

(** The theorem at the link of the spec's scenario, with a query after the
    id, written in angle brackets after a colon. *)
Lemma spotify_link_extracted_witness :
  In {| whole := spotify_track_url true (Some (ch "d", ch "e")) (txt "abcdefghijklmnopqrstuv")
                 ++ txt "?si=42>";
        group1 := Some (txt "abcdefghijklmnopqrstuv") |}
     (finditer SPOTIFY_RE
        (txt "listen:<" ++ spotify_track_url true (Some (ch "d", ch "e"))
                             (txt "abcdefghijklmnopqrstuv")
         ++ txt "?si=42>" ++ txt " now")).
Proof.
  apply (spotify_link_extracted true (Some (ch "d", ch "e")) (txt "abcdefghijklmnopqrstuv")
           (txt "?si=42>") (txt "listen:<") (txt " now")).
  - split; reflexivity.
  - reflexivity.
  - reflexivity.
  - reflexivity.
  - reflexivity.
  - apply clear_without_h. repeat constructor; discriminate.
Defined.

(** C4 as the spec words it fails: two links written without a blank
    between them.  The text contains the second link, but the tail of the
    first match takes it, and no match carries its id. *)
Lemma spotify_glued_links :
  finditer SPOTIFY_RE
    (spotify_track_url true None (txt "AAAAAAAAAAAAAAAAAAAAAA")
     ++ spotify_track_url true None (txt "BBBBBBBBBBBBBBBBBBBBBB"))
  = [ {| whole := spotify_track_url true None (txt "AAAAAAAAAAAAAAAAAAAAAA")
                  ++ spotify_track_url true None (txt "BBBBBBBBBBBBBBBBBBBBBB");
         group1 := Some (txt "AAAAAAAAAAAAAAAAAAAAAA") |} ]
  /\ txt "AAAAAAAAAAAAAAAAAAAAAA" <> txt "BBBBBBBBBBBBBBBBBBBBBB".
Proof. split; [vm_compute; reflexivity | discriminate]. Qed.

(** C5.  For an 11-character id over [[A-Za-z0-9_-]], each of the three
    forms of a YouTube link ([youtube.com/watch?...v=ID] with or without
    [www.], [youtu.be/ID], [music.youtube.com/watch?...v=ID]), under
    either scheme and with any parameters before [v=], is matched by
    [YOUTUBE_RE] with the id in group 1: the link by itself gives exactly
    that one match, and a link set off by whitespace in a longer text is
    among the matches. *)
Theorem youtube_link_extracted : forall https form id,
  form_ok form ->
  List.length id = 11 -> forallb is_video_id_char id = true ->
  finditer YOUTUBE_RE (youtube_url https form id)
  = [ {| whole := youtube_url https form id; group1 := Some id |} ]
  /\ forall pre post, after_blank pre -> before_blank post ->
       In {| whole := youtube_url https form id; group1 := Some id |}
          (finditer YOUTUBE_RE (pre ++ youtube_url https form id ++ post)).
Proof.
  intros https form id Hform Hlen Hid.
  assert (Hne : youtube_url https form id <> []).
  { unfold youtube_url. apply scheme_not_nil. }
  assert (Hmin : 0 < min_len YOUTUBE_RE) by (cbn; lia).
  split.
  - unfold finditer.
    pose proof (exec_youtube https form id [] None Hform Hlen Hid I) as He.
    rewrite <- (app_nil_r (youtube_url https form id)) at 1.
    rewrite (scan_hit _ _ _ _ _ He eq_refl Hne), scan_nil by exact Hmin.
    reflexivity.
  - intros pre post Hpre Hpost.
    apply finditer_after_blank; try assumption.
    + exact youtube_classes.
    + intro prev. now apply exec_youtube.
    + reflexivity.
Qed.

(** The theorem at a watch link with parameters before [v=]. *)
Lemma youtube_link_extracted_witness :
  finditer YOUTUBE_RE (youtube_url true (Watch true (txt "feature=share&")) (txt "dQw4w9WgXcQ"))
  = [ {| whole := youtube_url true (Watch true (txt "feature=share&")) (txt "dQw4w9WgXcQ");
         group1 := Some (txt "dQw4w9WgXcQ") |} ]
  /\ forall pre post, after_blank pre -> before_blank post ->
       In {| whole := youtube_url true (Watch true (txt "feature=share&")) (txt "dQw4w9WgXcQ");
             group1 := Some (txt "dQw4w9WgXcQ") |}
          (finditer YOUTUBE_RE
             (pre ++ youtube_url true (Watch true (txt "feature=share&")) (txt "dQw4w9WgXcQ")
                  ++ post)).
Proof.
  apply (youtube_link_extracted true (Watch true (txt "feature=share&")) (txt "dQw4w9WgXcQ")).
  - reflexivity.
  - reflexivity.
  - reflexivity.
Defined.

(* ===================================================================== *)
(** * Claims on the search links *)
(* ===================================================================== *)

Lemma Forall_not_In : forall extra d (l : str),
  Forall (fun c => quoted_char extra c = true) l -> quoted_char extra d = false ->
  ~ In d l.
Proof.
  intros extra d l Hl Hd Hin. rewrite Forall_forall in Hl.
  specialize (Hl d Hin). congruence.
Qed.

(** C8, as the code has it.  For every query that UTF-8 can encode (a
    [str] without surrogate code points), the empty one included, each of
    the four builders returns its URL: the fixed prefix followed by the
    quoted query.  The lyrics builder quotes the query with [" lyrics"]
    appended, which comes out as the quoted query followed by [+lyrics].
    The quoted query holds only unreserved characters, the percent sign
    and, under [quote_plus], one [+] for each space of the query, or,
    under [quote], the slashes of the query: no [&], no blank, and no
    [+] that was a [+] in the query. *)
Theorem search_links_total : forall query,
  forallb is_scalar query = true ->
  exists qp qs,
    quote_plus query = Ok qp /\ quote query = Ok qs
    /\ _yt_music_search query = Ok (txt "https://music.youtube.com/search?q=" ++ qp)
    /\ _yt_search query = Ok (txt "https://www.youtube.com/results?search_query=" ++ qp)
    /\ _spotify_search query = Ok (txt "https://open.spotify.com/search/" ++ qs)
    /\ _brave_lyrics query
       = Ok (txt "https://search.brave.com/search?q=" ++ qp ++ txt "+lyrics")
    /\ Forall (fun c => quoted_char (ch "+") c = true) qp
    /\ Forall (fun c => quoted_char (ch "/") c = true) qs
    /\ count (ch "+") qp = count (ch " ") query
    /\ ~ In (ch "&") qp /\ ~ In (ch " ") qp
    /\ ~ In (ch "&") qs /\ ~ In (ch " ") qs /\ ~ In (ch "+") qs.
Proof.
  intros query Hq.
  destruct (encode_utf8_total query Hq) as [bs Hbs].
  destruct (encode_utf8_bytes query bs Hbs) as [Hlt Hcnt].
  pose proof (quote_plus_bytes query bs Hbs) as Hqp.
  pose proof (quote_bytes query bs Hbs) as Hqs.
  assert (Hlyr : quote_plus (query ++ txt " lyrics")
                 = Ok (flat_map plus_byte bs ++ txt "+lyrics")).
  { rewrite (quote_plus_bytes _ (bs ++ txt " lyrics")).
    - rewrite flat_map_app. reflexivity.
    - apply encode_utf8_app; [exact Hbs | reflexivity]. }
  assert (Hplus : Forall (fun c => quoted_char (ch "+") c = true) (flat_map plus_byte bs)).
  { apply (Forall_flat_map _ _ _ _ _ _ Hlt). exact plus_byte_chars. }
  assert (Hslash : Forall (fun c => quoted_char (ch "/") c = true)
                          (flat_map (quote_byte (is_char (ch "/"))) bs)).
  { apply (Forall_flat_map _ _ _ _ _ _ Hlt). intros b Hb.
    eapply Forall_impl; [|apply (quote_byte_chars (is_char (ch "/")) b Hb)].
    intros c [H | [-> H]]; unfold quoted_char.
    - rewrite H. reflexivity.
    - apply is_char_iff in H. subst b. reflexivity. }
  exists (flat_map plus_byte bs), (flat_map (quote_byte (is_char (ch "/"))) bs).
  unfold _yt_music_search, _yt_search, _spotify_search, _brave_lyrics.
  rewrite Hqp, Hqs, Hlyr. simpl rbind.
  repeat match goal with |- _ /\ _ => split end; try reflexivity; try assumption.
  - rewrite <- Hcnt. apply (count_flat_map _ _ _ _ _ Hlt). exact plus_byte_count.
  - now apply (Forall_not_In (ch "+")).
  - now apply (Forall_not_In (ch "+")).
  - now apply (Forall_not_In (ch "/")).
  - now apply (Forall_not_In (ch "/")).
  - now apply (Forall_not_In (ch "/")).
Qed.

(** The theorem at a query with an ampersand, a plus sign and blanks. *)
Lemma search_links_total_witness :
  exists qp qs,
    quote_plus (txt "rock & roll + more") = Ok qp /\ quote (txt "rock & roll + more") = Ok qs
    /\ _yt_music_search (txt "rock & roll + more")
       = Ok (txt "https://music.youtube.com/search?q=" ++ qp)
    /\ _yt_search (txt "rock & roll + more")
       = Ok (txt "https://www.youtube.com/results?search_query=" ++ qp)
    /\ _spotify_search (txt "rock & roll + more")
       = Ok (txt "https://open.spotify.com/search/" ++ qs)
    /\ _brave_lyrics (txt "rock & roll + more")
       = Ok (txt "https://search.brave.com/search?q=" ++ qp ++ txt "+lyrics")
    /\ Forall (fun c => quoted_char (ch "+") c = true) qp
    /\ Forall (fun c => quoted_char (ch "/") c = true) qs
    /\ count (ch "+") qp = count (ch " ") (txt "rock & roll + more")
    /\ ~ In (ch "&") qp /\ ~ In (ch " ") qp
    /\ ~ In (ch "&") qs /\ ~ In (ch " ") qs /\ ~ In (ch "+") qs.
Proof.
  apply (search_links_total (txt "rock & roll + more")). reflexivity.
Defined.

(** The four links of that query, and of the empty one. *)
Example search_links_of_a_query :
  _yt_music_search (txt "rock & roll + more")
  = Ok (txt "https://music.youtube.com/search?q=rock+%26+roll+%2B+more")
  /\ _yt_search (txt "rock & roll + more")
     = Ok (txt "https://www.youtube.com/results?search_query=rock+%26+roll+%2B+more")
  /\ _spotify_search (txt "rock & roll + more")
     = Ok (txt "https://open.spotify.com/search/rock%20%26%20roll%20%2B%20more")
  /\ _brave_lyrics (txt "rock & roll + more")
     = Ok (txt "https://search.brave.com/search?q=rock+%26+roll+%2B+more+lyrics")
  /\ _yt_search [] = Ok (txt "https://www.youtube.com/results?search_query=")
  /\ _spotify_search [] = Ok (txt "https://open.spotify.com/search/")
  /\ _brave_lyrics [] = Ok (txt "https://search.brave.com/search?q=+lyrics").
Proof. repeat split; vm_compute; reflexivity. Qed.

(** C8 as the spec words it fails: a [str] may hold a lone surrogate (the
    JSON escape of one decodes to it), and on such a query the UTF-8
    encoder inside [quote] and [quote_plus] raises, so every builder
    does. *)
Lemma search_links_raise_on_surrogate :
  is_code_point 0xD800%N = true
  /\ _yt_music_search [0xD800%N] = Raise UnicodeEncodeError
  /\ _yt_search [0xD800%N] = Raise UnicodeEncodeError
  /\ _spotify_search [0xD800%N] = Raise UnicodeEncodeError
  /\ _brave_lyrics [0xD800%N] = Raise UnicodeEncodeError.
Proof. repeat split; vm_compute; reflexivity. Qed.

(* ===================================================================== *)
(** * Claims on the reply *)
(* ===================================================================== *)

(** C1, as the code has it.  On a message it answers (a guild member's
    message that is no command, in a guild where the cog is enabled) the
    listener goes through the matches in extraction order, all Spotify
    matches before any YouTube match, against one cap shared by both
    loops; the cap counts the embeds built so far, so a match whose
    metadata is unavailable is skipped without counting.  The reply, when
    no builder raises, is the first [max_links_per_message] resolved
    units in that order, never more; when every match resolves it is the
    units of the first [max_links_per_message] matches. *)
Theorem reply_is_first_resolved_units : forall ua net msg g st,
  guild msg = Some g -> author_bot msg = false ->
  enabled (config st g) = true -> ctx_valid msg = false ->
  let max := max_links_per_message (config st g) in
  let us := message_units ua net (show_thumbnail (config st g))
                          (List.length (requests st)) (content msg) in
  fst (on_message ua net msg st) = gather max us []
  /\ (forall embeds, fst (on_message ua net msg st) = Ok embeds ->
        embeds = firstn (Z.to_nat max) (resolved us)
        /\ List.length embeds <= Z.to_nat max)
  /\ (forall es, us = List.map (fun e => Some (Ok e)) es ->
        fst (on_message ua net msg st) = Ok (firstn (Z.to_nat max) es)).
Proof.
  intros ua net msg g st Hg Hbot Hen Hcmd max us.
  pose proof (on_message_run ua net msg g st Hg Hbot Hen Hcmd) as Hrun.
  fold max us in Hrun. split; [exact Hrun|]. split.
  - intros embeds Hok. rewrite Hrun in Hok.
    apply gather_resolved in Hok. simpl in Hok. rewrite Nat.sub_0_r in Hok.
    split; [exact Hok|]. subst embeds. rewrite length_firstn. lia.
  - intros es Hes. rewrite Hrun, Hes, gather_all_resolved.
    simpl. rewrite Nat.sub_0_r. reflexivity.
Qed.

(** The theorem at the message with five links, all of which resolve,
    under the default settings (a cap of 3). *)
Lemma reply_is_first_resolved_units_witness :
  let max := max_links_per_message (config initial 1%Z) in
  let us := message_units ascii_only all_answer (show_thumbnail (config initial 1%Z))
                          (List.length (requests initial))
                          (content (member_message five_links)) in
  fst (on_message ascii_only all_answer (member_message five_links) initial)
  = gather max us []
  /\ (forall embeds,
        fst (on_message ascii_only all_answer (member_message five_links) initial)
        = Ok embeds ->
        embeds = firstn (Z.to_nat max) (resolved us)
        /\ List.length embeds <= Z.to_nat max)
  /\ (forall es, us = List.map (fun e => Some (Ok e)) es ->
        fst (on_message ascii_only all_answer (member_message five_links) initial)
        = Ok (firstn (Z.to_nat max) es)).
Proof.
  apply (reply_is_first_resolved_units ascii_only all_answer (member_message five_links)
           1%Z initial); reflexivity.
Defined.

(** The scenario of the spec: five links, a cap of 3, every fetch
    answered.  The reply has three units, those of the first three matches
    in extraction order, which are the three Spotify links although two
    YouTube links stand before them in the text. *)
Example five_links_all_resolved :
  List.map group_1 (finditer SPOTIFY_RE five_links ++ finditer YOUTUBE_RE five_links)
  = [ txt "1111111111111111111111"; txt "2222222222222222222222";
      txt "3333333333333333333333"; txt "aaaaaaaaaaa"; txt "bbbbbbbbbbb" ]
  /\ titles (fst (on_message ascii_only all_answer (member_message five_links) initial))
     = [ note_prefix ++ spotify_oembed_url (txt "1111111111111111111111");
         note_prefix ++ spotify_oembed_url (txt "2222222222222222222222");
         note_prefix ++ spotify_oembed_url (txt "3333333333333333333333") ]
  /\ List.length
       (requests (snd (on_message ascii_only all_answer (member_message five_links) initial)))
     = 3.
Proof. repeat split; vm_compute; reflexivity. Qed.

(** C1 as the spec words it fails: with the cap counted on matches, the
    reply to the five links would be made of the first three matches
    only.  When the fetch of the first match times out, the listener goes
    on to a fourth match: it asks the network four times and the unit of
    the first YouTube link is in the reply. *)
Lemma reply_cap_counts_units_not_matches :
  titles (fst (on_message ascii_only first_times_out (member_message five_links) initial))
  = [ note_prefix ++ spotify_oembed_url (txt "2222222222222222222222");
      note_prefix ++ spotify_oembed_url (txt "3333333333333333333333");
      note_prefix ++ youtube_oembed_url (txt "aaaaaaaaaaa") ]
  /\ List.map title
       (reply_as_specified 3
          (message_units ascii_only first_times_out true 0 five_links))
     = [ note_prefix ++ spotify_oembed_url (txt "2222222222222222222222");
         note_prefix ++ spotify_oembed_url (txt "3333333333333333333333") ]
  /\ List.length
       (requests
          (snd (on_message ascii_only first_times_out (member_message five_links) initial)))
     = 4.
Proof. repeat split; vm_compute; reflexivity. Qed.

(* ===================================================================== *)
(** * Claims on the title cleaner and on the embeds *)
(* ===================================================================== *)

(** C2, as the code has it.  For every title the steps before the
    fallback are, in this order and each over the whole text: (1) every
    stretch from an opening bracket to the nearest closing bracket of any
    kind on the same line is removed ([remove_bracketed]); (2) the
    characters that lie in a keyword of the list standing in the text as
    a whole word are dropped, and no others: a keyword in any case, with
    any whitespace between its words, between two word boundaries
    ([in_keyword]); what goes are the matches of the keyword pattern,
    each of them such a keyword; (3) a separator tail is cut off the end,
    then a separator run with the whitespace around it off the start;
    (4) every run of two or more whitespace characters becomes one space,
    and the result is stripped.  The cleaner returns what is left, or the
    stripped title when nothing is left.  On the title of the spec it
    gives [Artist - Song]. *)
Theorem clean_applies_steps_in_order : forall ua title,
  let s1 := remove_bracketed false title in
  let s2 := sub (YT_TITLE_KEYWORDS ua) [] s1 in
  let s3 := strip_leading_separators (strip_trailing_separators s2) in
  cleaned_title ua title = strip (collapse_whitespace false s3)
  /\ _clean_yt_title ua title
     = match cleaned_title ua title with
       | [] => strip title
       | cleaned => cleaned
       end
  /\ (exists kept,
        List.length kept = List.length s1 /\ s2 = select kept s1
        /\ forall i, i < List.length s1 ->
             (nth i kept true = false <-> in_keyword ua s1 i))
  /\ (exists pieces,
        flat_map piece_text pieces = s1 /\ s2 = replace [] pieces
        /\ forall mo, In (Hit mo) pieces ->
             exists pre after,
               s1 = pre ++ whole mo ++ after
               /\ is_keyword (whole mo)
               /\ word_boundary (is_word ua) (advance None pre) (whole mo ++ after)
               /\ word_boundary (is_word ua) (advance None (pre ++ whole mo)) after)
  /\ _clean_yt_title ua (txt "Artist - Song (Official Music Video)") = txt "Artist - Song"
  /\ _clean_yt_title ua (txt "Song (live) [HD] {2020} official   VIDEO Lyric Video 4K mv")
     = txt "Song"
  /\ _clean_yt_title ua (txt "Song Official Audio HQ Visualizer") = txt "Song"
  /\ _clean_yt_title ua
       (txt "Song audio Performance Video clip officiel remaster REMASTERED hd OfficialVideo")
     = txt "Song"
  /\ _clean_yt_title ua (txt "Audiophile HDR remasters") = txt "Audiophile HDR remasters"
  /\ _clean_yt_title ua (txt "| Artist - Song -- ") = txt "Artist - Song".
Proof.
  intros ua title s1 s2 s3. split; [|split; [reflexivity|split; [|split]]].
  - unfold cleaned_title, s3, s2, s1.
    rewrite sub_noise, sub_trailing, sub_leading, sub_whitespace_run. reflexivity.
  - exists (kept_mask (YT_TITLE_KEYWORDS ua) 0 None s1). apply keywords_removed.
  - exists (scan (YT_TITLE_KEYWORDS ua) 0 None s1). split; [|split].
    + apply (scan_text _ (proj1 (proj2 (proj2 (proj2 (patterns_need_a_character ua)))))).
    + reflexivity.
    + intros mo Hin. now apply keyword_hits.
  - repeat split; vm_compute; reflexivity.
Qed.

(** C2 as the spec words it fails in step 1, "every substring enclosed in
    matching (), [], or {}": the pattern ends a stretch at the nearest
    closing bracket of any kind, so of [(b] c)] only [(b]] goes; and it
    does not pass a line break, so a parenthesis that closes on the next
    line stays. *)
Lemma clean_brackets_need_not_match :
  sub YT_TITLE_NOISE [] (txt "A (b] c) d") = txt "A  c) d"
  /\ remove_matching_brackets None (txt "A (b] c) d") = txt "A  d"
  /\ _clean_yt_title ascii_only (txt "A (b] c) d") = txt "A c) d"
  /\ sub YT_TITLE_NOISE [] (txt "a (b" ++ [newline] ++ txt "c) d")
     = txt "a (b" ++ [newline] ++ txt "c) d"
  /\ remove_matching_brackets None (txt "a (b" ++ [newline] ++ txt "c) d") = txt "a  d".
Proof. repeat split; vm_compute; reflexivity. Qed.

(** C3, as the code has it.  When the cleaning steps leave the empty
    string the cleaner returns the original title stripped, otherwise
    what the steps left; so it returns the empty string exactly when the
    title is empty or made of whitespace only, and never for another
    title.  [REMASTERED], which the keyword step removes whole, comes
    back as it was. *)
Theorem clean_falls_back_to_title : forall ua title,
  (cleaned_title ua title = [] -> _clean_yt_title ua title = strip title)
  /\ (cleaned_title ua title <> [] -> _clean_yt_title ua title = cleaned_title ua title)
  /\ (_clean_yt_title ua title = [] <-> strip title = [])
  /\ (strip title <> [] -> _clean_yt_title ua title <> [])
  /\ cleaned_title ua (txt "REMASTERED") = []
  /\ _clean_yt_title ua (txt "REMASTERED") = txt "REMASTERED".
Proof.
  intros ua title.
  assert (H1 : cleaned_title ua title = [] -> _clean_yt_title ua title = strip title).
  { intro H. unfold _clean_yt_title. rewrite H. reflexivity. }
  assert (H2 : cleaned_title ua title <> [] ->
               _clean_yt_title ua title = cleaned_title ua title).
  { intro H. unfold _clean_yt_title. destruct (cleaned_title ua title); congruence. }
  assert (H3 : _clean_yt_title ua title = [] <-> strip title = []).
  { split.
    - intro H. destruct (cleaned_title ua title) as [|c t] eqn:E.
      + rewrite <- H. symmetry. apply H1. reflexivity.
      + rewrite H2 in H; [discriminate | discriminate].
    - intro H. rewrite H1; [exact H|].
      apply cleaned_title_blank. now apply strip_nil_iff. }
  split; [exact H1|]. split; [exact H2|]. split; [exact H3|]. split; [|split].
  - intros Hne Hc. apply Hne. now apply H3.
  - vm_compute. reflexivity.
  - vm_compute. reflexivity.
Qed.

(** The theorem at a title with a bracketed qualifier. *)
Lemma clean_falls_back_to_title_witness :
  (cleaned_title ascii_only (txt "Song [HD]") = [] ->
   _clean_yt_title ascii_only (txt "Song [HD]") = strip (txt "Song [HD]"))
  /\ (cleaned_title ascii_only (txt "Song [HD]") <> [] ->
      _clean_yt_title ascii_only (txt "Song [HD]")
      = cleaned_title ascii_only (txt "Song [HD]"))
  /\ (_clean_yt_title ascii_only (txt "Song [HD]") = [] <-> strip (txt "Song [HD]") = [])
  /\ (strip (txt "Song [HD]") <> [] -> _clean_yt_title ascii_only (txt "Song [HD]") <> [])
  /\ cleaned_title ascii_only (txt "REMASTERED") = []
  /\ _clean_yt_title ascii_only (txt "REMASTERED") = txt "REMASTERED".
Proof. apply (clean_falls_back_to_title ascii_only (txt "Song [HD]")). Defined.

(** C3 as the spec words it fails, "never returns an empty query": for
    the empty title and for a title of blanks the fallback is empty
    too. *)
Lemma clean_returns_empty :
  _clean_yt_title ascii_only [] = []
  /\ _clean_yt_title ascii_only (txt "   ") = [].
Proof. split; vm_compute; reflexivity. Qed.



(** C10.  In a round of either loop on a fetched object, the values
    handed to the builder are those of the keys [title], [author_name]
    and [thumbnail_url] when the object has the key, whatever the value,
    [None] included; the placeholders [Unknown Track], [Unknown] and the
    empty author stand in only when the key is absent.  A title that is
    present and [None] reaches the builder as [None], which raises. *)
Theorem placeholders_only_when_key_absent : forall ua net show max m ms embeds st d,
  cap_reached embeds max = false -> d <> [] ->
  (metadata_of (net (List.length (requests st))
                    {| url := spotify_oembed_url (group_1 m); timeout_total := 10 |})
   = VDict d ->
   spotify_loop net show max (m :: ms) embeds st
   = match _build_spotify_embed (field_or d "title" (VStr (txt "Unknown Track")))
                                (field_or d "thumbnail_url" VNone) show with
     | Ok e => spotify_loop net show max ms (embeds ++ [e])
                 (asked st {| url := spotify_oembed_url (group_1 m); timeout_total := 10 |})
     | Raise x =>
         (Raise x, asked st {| url := spotify_oembed_url (group_1 m); timeout_total := 10 |})
     end)
  /\ (metadata_of (net (List.length (requests st))
                       {| url := youtube_oembed_url (group_1 m); timeout_total := 10 |})
      = VDict d ->
      youtube_loop ua net show max (m :: ms) embeds st
      = match _build_youtube_embed ua (field_or d "title" (VStr (txt "Unknown")))
                                   (field_or d "author_name" (VStr []))
                                   (field_or d "thumbnail_url" VNone) show with
        | Ok e => youtube_loop ua net show max ms (embeds ++ [e])
                    (asked st {| url := youtube_oembed_url (group_1 m); timeout_total := 10 |})
        | Raise x =>
            (Raise x,
             asked st {| url := youtube_oembed_url (group_1 m); timeout_total := 10 |})
        end)
  /\ (forall key default, lookup d (txt key) = None -> field_or d key default = default)
  /\ (forall key default v, lookup d (txt key) = Some v -> field_or d key default = v)
  /\ (forall key default, lookup d (txt key) = Some VNone -> field_or d key default = VNone)
  /\ (forall thumb, _build_spotify_embed VNone thumb show = Raise TypeError)
  /\ (forall author thumb, _build_youtube_embed ua VNone author thumb show = Raise TypeError).
Proof.
  intros ua net show max m ms embeds st d Hcap Hd.
  split; [|split; [|split; [|split; [|split; [|split]]]]].
  - now apply spotify_round.
  - now apply youtube_round.
  - intros key default H. unfold field_or. rewrite H. reflexivity.
  - intros key default v H. unfold field_or. rewrite H. reflexivity.
  - intros key default H. unfold field_or. rewrite H. reflexivity.
  - reflexivity.
  - reflexivity.
Qed.

(** The theorem at an object with a [null] title: the key is present, so
    [Unknown Track] is not used, and the round raises. *)
Lemma placeholders_only_when_key_absent_witness :
  cap_reached [] 3 = false
  /\ null_title_object <> []
  /\ metadata_of (null_title (List.length (requests initial))
                    {| url := spotify_oembed_url (group_1 scenario_match);
                       timeout_total := 10 |})
     = VDict null_title_object
  /\ field_or null_title_object "title" (VStr (txt "Unknown Track")) = VNone
  /\ spotify_loop null_title true 3 [scenario_match] [] initial
     = (Raise TypeError,
        asked initial {| url := spotify_oembed_url (group_1 scenario_match);
                         timeout_total := 10 |}).
Proof.
  assert (Hcap : cap_reached [] 3 = false) by reflexivity.
  assert (Hd : null_title_object <> []) by discriminate.
  destruct (placeholders_only_when_key_absent ascii_only null_title true 3
              scenario_match [] [] initial null_title_object Hcap Hd)
    as (Hsp & _ & _ & _ & Hnull & _).
  split; [exact Hcap|]. split; [exact Hd|]. split; [reflexivity|].
  split; [apply Hnull; reflexivity|].
  rewrite (Hsp eq_refl). reflexivity.
Defined.

(* ===================================================================== *)
(** * Claims on the settings and on the fetches *)
(* ===================================================================== *)

(** C6.  Whatever integer the [maxlinks] command is given, the limit it
    stores for the guild lies in [1..10]: 15 is stored as 10 and 0 as 1.
    From the registered defaults on, after any sequence of commands (in
    any guilds), messages and unloads, the stored limit of every guild is
    in that range. *)
Theorem max_links_always_clamped : forall ua net,
  (forall g limit st,
     (1 <= max_links_per_message (config (snd (ml_maxlinks g limit st)) g) <= 10)%Z)
  /\ (forall g st, max_links_per_message (config (snd (ml_maxlinks g 15 st)) g) = 10%Z)
  /\ (forall g st, max_links_per_message (config (snd (ml_maxlinks g 0 st)) g) = 1%Z)
  /\ (forall es, limits_clamped (run_events ua net es initial)).
Proof.
  intros ua net. split; [|split; [|split]].
  - intros g limit st. rewrite maxlinks_stored. apply clamp_range.
  - intros g st. rewrite maxlinks_stored. reflexivity.
  - intros g st. rewrite maxlinks_stored. reflexivity.
  - intro es. unfold run_events.
    assert (H : limits_clamped initial) by (intro g; simpl; lia).
    revert H. generalize initial. induction es as [|e es IH]; intros st H.
    + exact H.
    + simpl. apply IH. now apply step_keeps_clamped.
Qed.

(** C7.  A fetch, of a track or of a video, issues exactly one GET, with
    a total timeout of 10, for the oEmbed address of the id; it never
    raises; it returns [None] when the request times out, when the
    transport fails, when the status is not 200 and when the body does not
    decode, and otherwise the whole decoded body, whatever content type
    the response declares.  Nothing is asked a second time. *)
Theorem fetch_is_one_request : forall net id st,
  one_request net (_fetch_spotify_oembed net id)
              {| url := spotify_oembed_url id; timeout_total := 10 |} st
  /\ one_request net (_fetch_youtube_oembed net id)
                 {| url := youtube_oembed_url id; timeout_total := 10 |} st
  /\ metadata_of TimedOut = VNone
  /\ metadata_of Failed = VNone
  /\ (forall r, status r <> 200%Z -> metadata_of (Responded r) = VNone)
  /\ (forall ct v, metadata_of (Responded {| status := 200; content_type := ct;
                                              body := Some v |}) = v)
  /\ (forall ct, metadata_of (Responded {| status := 200; content_type := ct;
                                            body := None |}) = VNone).
Proof.
  intros net id st. unfold one_request.
  rewrite fetch_spotify_run, fetch_youtube_run. simpl.
  repeat match goal with |- _ /\ _ => split end; try reflexivity.
  intros r Hr. apply Z.eqb_neq in Hr. rewrite Hr. reflexivity.
Qed.

(* ===================================================================== *)
(** * Further properties: the matches and the lookups *)
(* ===================================================================== *)

(** X1.  Whatever the text, a match that [SPOTIFY_RE.finditer] yields is
    a piece of the text made of a track link (either scheme, the
    [intl-xx/] part with two lower-case letters or none, a 22-character
    alphanumeric id) and of the characters after it up to the next
    whitespace or the end of the text; group 1 is that id. *)
Theorem spotify_match_is_track_link : forall text mo,
  In mo (finditer SPOTIFY_RE text) ->
  exists pre post https intl id trail,
    text = pre ++ whole mo ++ post
    /\ whole mo = spotify_track_url https intl id ++ trail
    /\ group1 mo = Some id /\ is_track_id id
    /\ match intl with
       | Some (a, b) => is_lower_az a = true /\ is_lower_az b = true
       | None => True
       end
    /\ forallb non_space trail = true /\ before_blank post.
Proof.
  intros text mo H. apply finditer_exec in H. destruct H as (pre & rest & Ht & H).
  apply exec_spotify_sound in H.
  destruct H as (https & intl & id & trail & post & Hr & Hw & Hg & Hl & Hid & Hi & Htr & Hp).
  exists pre, post, https, intl, id, trail.
  split; [rewrite Ht, Hr; reflexivity|].
  repeat (split; [assumption|]). split; [split; assumption|].
  repeat (split; [assumption|]). assumption.
Qed.

Lemma spotify_match_is_track_link_witness :
  exists pre post https intl id trail,
    txt "a https://open.spotify.com/intl-de/track/abcdefghijklmnopqrstuv?si=1 b"
    = pre ++ txt "https://open.spotify.com/intl-de/track/abcdefghijklmnopqrstuv?si=1" ++ post
    /\ txt "https://open.spotify.com/intl-de/track/abcdefghijklmnopqrstuv?si=1"
       = spotify_track_url https intl id ++ trail
    /\ Some (txt "abcdefghijklmnopqrstuv") = Some id /\ is_track_id id
    /\ match intl with
       | Some (a, b) => is_lower_az a = true /\ is_lower_az b = true
       | None => True
       end
    /\ forallb non_space trail = true /\ before_blank post.
Proof.
  apply (spotify_match_is_track_link
           (txt "a https://open.spotify.com/intl-de/track/abcdefghijklmnopqrstuv?si=1 b")
           {| whole := txt "https://open.spotify.com/intl-de/track/abcdefghijklmnopqrstuv?si=1";
              group1 := Some (txt "abcdefghijklmnopqrstuv") |}).
  vm_compute. left. reflexivity.
Defined.

(** X2.  Whatever the text, a match that [YOUTUBE_RE.finditer] yields is
    a piece of the text made of a link in one of the three forms (either
    scheme; [youtube.com/watch?] with or without [www.], or
    [music.youtube.com/watch?], then parameters without whitespace and
    [v=]; or [youtu.be/]), an 11-character id over [[A-Za-z0-9_-]], and
    the characters after it up to the next whitespace or the end of the
    text; group 1 is that id. *)
Theorem youtube_match_is_video_link : forall text mo,
  In mo (finditer YOUTUBE_RE text) ->
  exists pre post https form id trail,
    text = pre ++ whole mo ++ post
    /\ whole mo = youtube_url https form id ++ trail
    /\ group1 mo = Some id /\ is_video_id id
    /\ form_ok form
    /\ forallb non_space trail = true /\ before_blank post.
Proof.
  intros text mo H. apply finditer_exec in H. destruct H as (pre & rest & Ht & H).
  apply exec_youtube_sound in H.
  destruct H as (https & form & id & trail & post & Hr & Hw & Hg & Hl & Hid & Hf & Htr & Hp).
  exists pre, post, https, form, id, trail.
  split; [rewrite Ht, Hr; reflexivity|].
  repeat (split; [assumption|]). split; [split; assumption|].
  repeat (split; [assumption|]). assumption.
Qed.

Lemma youtube_match_is_video_link_witness :
  exists pre post https form id trail,
    txt "see http://music.youtube.com/watch?list=x&v=dQw4w9WgXcQ&t=42s !"
    = pre ++ txt "http://music.youtube.com/watch?list=x&v=dQw4w9WgXcQ&t=42s" ++ post
    /\ txt "http://music.youtube.com/watch?list=x&v=dQw4w9WgXcQ&t=42s"
       = youtube_url https form id ++ trail
    /\ Some (txt "dQw4w9WgXcQ") = Some id /\ is_video_id id
    /\ form_ok form
    /\ forallb non_space trail = true /\ before_blank post.
Proof.
  apply (youtube_match_is_video_link
           (txt "see http://music.youtube.com/watch?list=x&v=dQw4w9WgXcQ&t=42s !")
           {| whole := txt "http://music.youtube.com/watch?list=x&v=dQw4w9WgXcQ&t=42s";
              group1 := Some (txt "dQw4w9WgXcQ") |}).
  vm_compute. left. reflexivity.
Defined.

(** X3.  From the start of the cog on, through any commands, messages
    and unloads and whatever the network answers, every request the cog
    has issued is a GET with a total timeout of 10 for the Spotify oEmbed
    address of a 22-character alphanumeric id or for the YouTube oEmbed
    address of an 11-character id over [[A-Za-z0-9_-]]: nothing else of a
    message ever reaches a request. *)
Theorem requests_are_oembed_lookups : forall ua net es,
  Forall oembed_lookup (requests (run_events ua net es initial)).
Proof.
  intros ua net es. apply run_events_keeps; [|constructor].
  intros [g c|msg|] st H; cbn [step].
  - now rewrite (proj1 (command_keeps_requests g c st)).
  - destruct (on_message_requests ua net msg st) as (j & k & _ & _ & Hr & _).
    rewrite Hr. apply Forall_app. split; [exact H|]. apply Forall_app. split.
    + apply lookups_of_prefix. intros m Hm. exact (spotify_request_lookup _ m Hm).
    + apply lookups_of_prefix. intros m Hm. exact (youtube_request_lookup _ m Hm).
  - now rewrite (proj1 (unload_keeps_requests st)).
Qed.

(** X4.  On any message and from any state the listener only adds to the
    requests issued: one request for each match it examines, for a prefix
    of the Spotify matches and then for a prefix of the YouTube matches,
    in that order.  It leaves the settings as they are, and the embeds it
    hands to the reply are at most as many as the requests it made; on a
    text without a match it asks nothing and hands over nothing. *)
Theorem message_requests_follow_matches : forall ua net msg st,
  exists j k,
    j <= List.length (finditer SPOTIFY_RE (content msg))
    /\ k <= List.length (finditer YOUTUBE_RE (content msg))
    /\ requests (snd (on_message ua net msg st))
       = requests st
         ++ List.map spotify_request (firstn j (finditer SPOTIFY_RE (content msg)))
         ++ List.map youtube_request (firstn k (finditer YOUTUBE_RE (content msg)))
    /\ config (snd (on_message ua net msg st)) = config st
    /\ reply_size (fst (on_message ua net msg st)) <= j + k
    /\ (finditer SPOTIFY_RE (content msg) = [] -> finditer YOUTUBE_RE (content msg) = [] ->
        requests (snd (on_message ua net msg st)) = requests st
        /\ reply_size (fst (on_message ua net msg st)) = 0).
Proof.
  intros ua net msg st.
  destruct (on_message_requests ua net msg st) as (j & k & Hj & Hk & Hr & _ & Hc & Hout).
  assert (Hsize : reply_size (fst (on_message ua net msg st)) <= j + k).
  { destruct (fst (on_message ua net msg st)) as [out|x]; simpl; [now apply Hout | lia]. }
  exists j, k. repeat (split; [assumption|]).
  intros Hs Hy. rewrite Hs, Hy in *. simpl in Hj, Hk.
  assert (j = 0) by lia. assert (k = 0) by lia. subst j k.
  split; [|lia]. rewrite Hr. simpl. now rewrite app_nil_r.
Qed.

(** X5.  The cog creates its session only when it first looks a link
    up: from the start on, after any events, there is no session exactly
    when no request has been issued; and unloading leaves no session
    open. *)
Theorem session_is_created_on_first_lookup : forall ua net es,
  (session (run_events ua net es initial) = NoSession
   <-> requests (run_events ua net es initial) = [])
  /\ session (run_events ua net (es ++ [OnUnload]) initial) <> SessionOpen.
Proof.
  intros ua net es. split.
  - apply (run_events_keeps ua net (fun st => session st = NoSession <-> requests st = []));
      [|split; reflexivity].
    intros [g c|msg|] st H; cbn [step].
    + destruct (command_keeps_requests g c st) as [-> ->]. exact H.
    + destruct (on_message_requests ua net msg st)
        as (j & k & Hj & Hk & Hr & Hse & _ & _).
      rewrite Hr, Hse. destruct j as [|j]; [destruct k as [|k]|].
      * simpl. rewrite app_nil_r. exact H.
      * simpl. destruct (finditer YOUTUBE_RE (content msg)); [simpl in Hk; lia|].
        simpl. split; [discriminate|]. intro E. now apply app_eq_nil in E.
      * simpl. destruct (finditer SPOTIFY_RE (content msg)); [simpl in Hj; lia|].
        simpl. split; [discriminate|]. intro E. now apply app_eq_nil in E.
    + destruct (unload_keeps_requests st) as (-> & _ & ->). exact H.
  - unfold run_events. rewrite fold_left_app. cbn [fold_left step].
    unfold cog_unload. destruct (session (fold_left _ es initial)) eqn:Hs; cbn; congruence.
Qed.

(** X6.  From the start of the cog on, after any commands, messages and
    unloads, the listener never hands more than ten embeds to one reply,
    whatever the message holds and whatever limit was asked for.  With
    the limit set to 50 and twelve links that all resolve, the reply
    holds ten. *)
Theorem reply_never_exceeds_ten : forall ua net es msg,
  reply_size (fst (on_message ua net msg (run_events ua net es initial))) <= 10
  /\ reply_size
       (fst (on_message ua all_answer (member_message twelve_links)
               (run_events ua all_answer [OnCommand 1%Z (CmdMaxlinks 50)] initial)))
     = 10.
Proof.
  intros ua net es msg. split; [|vm_compute; reflexivity].
  pose proof (reachable_clamped ua net es) as Hclamp.
  set (st := run_events ua net es initial) in *.
  destruct (guild msg) as [g|] eqn:Hg; [|unfold on_message; rewrite Hg; simpl; lia].
  destruct (author_bot msg) eqn:Hb; [unfold on_message; rewrite Hg, Hb; simpl; lia|].
  destruct (enabled (config st g)) eqn:He;
    [|unfold on_message; rewrite Hg, Hb, He; simpl; lia].
  destruct (ctx_valid msg) eqn:Hv; [unfold on_message; rewrite Hg, Hb, He, Hv; simpl; lia|].
  rewrite (on_message_run ua net msg g st Hg Hb He Hv).
  destruct (gather _ _ _) as [out|x] eqn:Hout; simpl; [|lia].
  apply gather_resolved in Hout. subst out. simpl.
  rewrite length_firstn. specialize (Hclamp g). lia.
Qed.

(** X29.  The listener looks nothing up beyond the cap: on a network
    where every lookup resolves (each answer tests true and is well
    formed), an answered message costs exactly as many requests as it
    gets embeds, the smaller of the guild's limit and the number of its
    matches. *)
Theorem no_lookup_beyond_the_cap : forall ua net,
  (forall n rq, resolves (net n rq) = true) ->
  forall msg g st,
    guild msg = Some g -> author_bot msg = false ->
    enabled (config st g) = true -> ctx_valid msg = false ->
    let n := Nat.min (Z.to_nat (max_links_per_message (config st g)))
                     (List.length (finditer SPOTIFY_RE (content msg))
                      + List.length (finditer YOUTUBE_RE (content msg))) in
    exists embeds,
      fst (on_message ua net msg st) = Ok embeds
      /\ List.length embeds = n
      /\ List.length (requests (snd (on_message ua net msg st)))
         = List.length (requests st) + n.
Proof.
  intros ua net Hnet msg g st Hg Hb He Hv n.
  unfold on_message. rewrite Hg, Hb, He, Hv. cbn [negb]. unfold bind.
  set (show := show_thumbnail (config st g)).
  set (max := max_links_per_message (config st g)) in *.
  destruct (resolving_spotify_loop net Hnet show max (finditer SPOTIFY_RE (content msg)) [] st)
    as (new1 & st1 & -> & Hl1 & Hr1).
  destruct (resolving_youtube_loop ua net Hnet show max (finditer YOUTUBE_RE (content msg))
              ([] ++ new1) st1)
    as (new2 & st2 & -> & Hl2 & Hr2).
  exists (([] ++ new1) ++ new2). cbn [fst snd]. split; [reflexivity|].
  rewrite !length_app in *. simpl in *. unfold n. lia.
Qed.

Lemma no_lookup_beyond_the_cap_witness :
  exists embeds,
    fst (on_message ascii_only one_song (member_message five_links) initial) = Ok embeds
    /\ List.length embeds = 3
    /\ List.length
         (requests (snd (on_message ascii_only one_song (member_message five_links) initial)))
       = 3.
Proof.
  apply (no_lookup_beyond_the_cap ascii_only one_song (fun n rq => eq_refl)
           (member_message five_links) 1%Z initial); reflexivity.
Defined.

(* ===================================================================== *)
(** * Further properties: metadata, embeds and what is passed over *)
(* ===================================================================== *)

(** X7.  When everything the network answers is well formed (a false
    value, or an object whose title, if it has one, is a string UTF-8 can
    encode), the listener never raises: on every message and from every
    state it ends with a list of embeds. *)
Theorem well_formed_answers_never_raise : forall ua net,
  (forall n rq, well_formed (metadata_of (net n rq)) = true) ->
  forall msg st, exists embeds, fst (on_message ua net msg st) = Ok embeds.
Proof.
  intros ua net Hnet msg st.
  destruct (guild msg) as [g|] eqn:Hg; [|unfold on_message; rewrite Hg; now exists []].
  destruct (author_bot msg) eqn:Hb; [unfold on_message; rewrite Hg, Hb; now exists []|].
  destruct (enabled (config st g)) eqn:He; [|unfold on_message; rewrite Hg, Hb, He; now exists []].
  destruct (ctx_valid msg) eqn:Hv; [unfold on_message; rewrite Hg, Hb, He, Hv; now exists []|].
  rewrite (on_message_run ua net msg g st Hg Hb He Hv).
  apply gather_no_raise. unfold message_units. apply Forall_app. split.
  - apply Forall_forall. intros u Hu. apply units_In in Hu.
    destruct Hu as (k & m & _ & ->). apply spotify_unit_well_formed, Hnet.
  - apply Forall_forall. intros u Hu. apply units_In in Hu.
    destruct Hu as (k & m & _ & ->). apply youtube_unit_well_formed, Hnet.
Qed.

Lemma well_formed_answers_never_raise_witness :
  exists embeds,
    fst (on_message ascii_only one_song (member_message five_links) initial) = Ok embeds.
Proof.
  apply (well_formed_answers_never_raise ascii_only one_song).
  intros n rq. reflexivity.
Defined.

(** X8.  Three kinds of metadata end the listener with an exception, in
    either loop, at the match they belong to and after its request was
    made, whatever embeds were built before: an answer that tests true
    and is no object raises [AttributeError] (the loop calls [data.get]
    on it); an object whose title is present and is no string raises
    [TypeError]; an object whose title is a string that UTF-8 cannot
    encode raises [UnicodeEncodeError] in the Spotify loop, and in the
    YouTube loop when the cleaned title cannot be encoded.  A listener
    that raises delivers nothing: the outbox stays as it was.  So it is
    with a JSON list as answer to the second of two links: the embed of
    the first link is not sent. *)
Theorem malformed_answer_ends_the_listener :
  forall ua net discord show max m ms embeds st msg log,
  (cap_reached embeds max = false ->
   forall v,
     metadata_of (net (List.length (requests st)) (spotify_request m)) = v ->
     truthy v = true -> (forall d, v <> VDict d) ->
     spotify_loop net show max (m :: ms) embeds st
     = (Raise AttributeError, asked st (spotify_request m)))
  /\ (cap_reached embeds max = false ->
      forall v,
        metadata_of (net (List.length (requests st)) (youtube_request m)) = v ->
        truthy v = true -> (forall d, v <> VDict d) ->
        youtube_loop ua net show max (m :: ms) embeds st
        = (Raise AttributeError, asked st (youtube_request m)))
  /\ (cap_reached embeds max = false ->
      forall d v,
        metadata_of (net (List.length (requests st)) (spotify_request m)) = VDict d ->
        lookup d (txt "title") = Some v -> (forall t, v <> VStr t) ->
        spotify_loop net show max (m :: ms) embeds st
        = (Raise TypeError, asked st (spotify_request m)))
  /\ (cap_reached embeds max = false ->
      forall d v,
        metadata_of (net (List.length (requests st)) (youtube_request m)) = VDict d ->
        lookup d (txt "title") = Some v -> (forall t, v <> VStr t) ->
        youtube_loop ua net show max (m :: ms) embeds st
        = (Raise TypeError, asked st (youtube_request m)))
  /\ (cap_reached embeds max = false ->
      forall d t,
        metadata_of (net (List.length (requests st)) (spotify_request m)) = VDict d ->
        lookup d (txt "title") = Some (VStr t) -> forallb is_scalar t = false ->
        spotify_loop net show max (m :: ms) embeds st
        = (Raise UnicodeEncodeError, asked st (spotify_request m)))
  /\ (cap_reached embeds max = false ->
      forall d t,
        metadata_of (net (List.length (requests st)) (youtube_request m)) = VDict d ->
        lookup d (txt "title") = Some (VStr t) ->
        forallb is_scalar (_clean_yt_title ua t) = false ->
        youtube_loop ua net show max (m :: ms) embeds st
        = (Raise UnicodeEncodeError, asked st (youtube_request m)))
  /\ (forall x st',
        on_message ua net msg st = (Raise x, st') ->
        on_message_sends ua net discord msg st log = (Raised, st', log))
  /\ (let two_links :=
        member_message
          (txt "https://open.spotify.com/track/abcdefghijklmnopqrstuv "
           ++ txt "https://youtu.be/dQw4w9WgXcQ") in
      let song_then_list :=
        fun n rq => match n with O => one_song n rq | S _ => a_list n rq end in
      fst (spotify_loop song_then_list true 3
             (finditer SPOTIFY_RE (content two_links)) [] initial)
      = fst (on_message ascii_only one_song
               (member_message (txt "https://open.spotify.com/track/abcdefghijklmnopqrstuv"))
               initial)
      /\ reply_size (fst (on_message ascii_only one_song
               (member_message (txt "https://open.spotify.com/track/abcdefghijklmnopqrstuv"))
               initial)) = 1
      /\ fst (on_message ascii_only song_then_list two_links initial)
         = Raise AttributeError
      /\ on_message_sends ascii_only song_then_list discord two_links initial log
         = (Raised, snd (on_message ascii_only song_then_list two_links initial), log)).
Proof.
  intros ua net discord show max m ms embeds st msg log.
  split; [|split; [|split; [|split; [|split; [|split; [|split]]]]]].
  - intros Hcap v Hv Ht Hd. cbn [spotify_loop]. rewrite Hcap, bind_fetch_spotify, Hv, Ht.
    rewrite bind_lift. destruct v; try reflexivity; try discriminate Ht.
    now elim (Hd d).
  - intros Hcap v Hv Ht Hd. cbn [youtube_loop]. rewrite Hcap, bind_fetch_youtube, Hv, Ht.
    rewrite bind_lift. destruct v; try reflexivity; try discriminate Ht.
    now elim (Hd d).
  - intros Hcap d v Hv Hl Hs.
    assert (Hne : d <> []) by (intros ->; discriminate Hl).
    rewrite (spotify_round net show max m ms embeds st d Hcap Hne Hv).
    unfold field_or at 1. rewrite Hl.
    destruct v; try reflexivity. now elim (Hs s).
  - intros Hcap d v Hv Hl Hs.
    assert (Hne : d <> []) by (intros ->; discriminate Hl).
    rewrite (youtube_round ua net show max m ms embeds st d Hcap Hne Hv).
    unfold field_or at 1. rewrite Hl.
    destruct v; try reflexivity. now elim (Hs s).
  - intros Hcap d t Hv Hl Hs.
    assert (Hne : d <> []) by (intros ->; discriminate Hl).
    rewrite (spotify_round net show max m ms embeds st d Hcap Hne Hv).
    unfold field_or at 1. rewrite Hl.
    pose proof (spotify_embed_cases (VStr t) (field_or d "thumbnail_url" VNone) show) as Hc.
    destruct (_build_spotify_embed (VStr t) (field_or d "thumbnail_url" VNone) show)
      as [e|x].
    + destruct Hc as (t' & Ht' & Hs' & _). injection Ht' as <-. congruence.
    + destruct Hc as [[_ Hc]|[-> _]]; [now elim (Hc t) | reflexivity].
  - intros Hcap d t Hv Hl Hs.
    assert (Hne : d <> []) by (intros ->; discriminate Hl).
    rewrite (youtube_round ua net show max m ms embeds st d Hcap Hne Hv).
    unfold field_or at 1. rewrite Hl.
    pose proof (youtube_embed_cases ua (VStr t) (field_or d "author_name" (VStr []))
                                    (field_or d "thumbnail_url" VNone) show) as Hc.
    destruct (_build_youtube_embed ua (VStr t) (field_or d "author_name" (VStr []))
                                   (field_or d "thumbnail_url" VNone) show) as [e|x].
    + destruct Hc as (t' & Ht' & Hs' & _). injection Ht' as <-. congruence.
    + destruct Hc as [[_ Hc]|[-> _]]; [now elim (Hc t) | reflexivity].
  - intros x st' H. unfold on_message_sends. rewrite H. reflexivity.
  - cbv zeta. split; [vm_compute; reflexivity|].
    split; [vm_compute; reflexivity|].
    split; [vm_compute; reflexivity|].
    unfold on_message_sends.
    destruct (on_message ascii_only _ _ initial) as [[embeds'|x] st'] eqn:E.
    + apply (f_equal fst) in E. cbn [fst] in E.
      assert (H : fst (on_message ascii_only
                   (fun n rq => match n with O => one_song n rq | S _ => a_list n rq end)
                   (member_message
                      (txt "https://open.spotify.com/track/abcdefghijklmnopqrstuv "
                       ++ txt "https://youtu.be/dQw4w9WgXcQ")) initial)
                  = Raise AttributeError) by (vm_compute; reflexivity).
      rewrite H in E. discriminate E.
    + reflexivity.
Qed.

(** X9.  In a guild where the thumbnails are switched off no embed of a
    reply carries a thumbnail, whatever the metadata holds. *)
Theorem no_thumbnail_when_switched_off : forall ua net msg g st,
  guild msg = Some g -> show_thumbnail (config st g) = false ->
  match fst (on_message ua net msg st) with
  | Ok embeds => Forall (fun e => thumbnail e = None) embeds
  | Raise _ => True
  end.
Proof.
  intros ua net msg g st Hg Hshow.
  destruct (author_bot msg) eqn:Hb; [unfold on_message; rewrite Hg, Hb; constructor|].
  destruct (enabled (config st g)) eqn:He;
    [|unfold on_message; rewrite Hg, Hb, He; constructor].
  destruct (ctx_valid msg) eqn:Hv; [unfold on_message; rewrite Hg, Hb, He, Hv; constructor|].
  rewrite (on_message_run ua net msg g st Hg Hb He Hv), Hshow.
  destruct (gather _ _ _) as [out|x] eqn:Hout; [|exact I].
  apply gather_resolved in Hout. subst out. simpl.
  apply Forall_forall. intros e He'. apply In_firstn, In_resolved in He'.
  unfold message_units in He'. apply in_app_or in He'. destruct He' as [Hu|Hu];
    apply units_In in Hu; destruct Hu as (k & m & _ & Hu); symmetry in Hu.
  - apply spotify_unit_thumbnail in Hu. destruct Hu as [thumb ->]. reflexivity.
  - apply youtube_unit_thumbnail in Hu. destruct Hu as [thumb ->]. reflexivity.
Qed.

Lemma no_thumbnail_when_switched_off_witness :
  reply_size (fst (on_message ascii_only one_song (member_message five_links)
                     (snd (ml_thumbnail 1%Z initial))))
  = 3
  /\ match fst (on_message ascii_only one_song (member_message five_links)
                  (snd (ml_thumbnail 1%Z initial))) with
     | Ok embeds => Forall (fun e => thumbnail e = None) embeds
     | Raise _ => True
     end.
Proof.
  split; [vm_compute; reflexivity|].
  apply (no_thumbnail_when_switched_off ascii_only one_song (member_message five_links) 1%Z);
    reflexivity.
Defined.

(** X10.  The listener passes over the message of a bot, a message
    outside a guild, a message in a guild where the cog is switched off
    and a message that is a command of the bot: no request is made, the
    state stays as it is and nothing is sent. *)
Theorem unanswered_messages_cost_nothing : forall ua net discord msg st log,
  author_bot msg = true \/ guild msg = None \/ ctx_valid msg = true
  \/ (exists g, guild msg = Some g /\ enabled (config st g) = false) ->
  on_message ua net msg st = (Ok [], st)
  /\ on_message_sends ua net discord msg st log = (Returned, st, log).
Proof.
  intros ua net discord msg st log H.
  assert (E : on_message ua net msg st = (Ok [], st)).
  { unfold on_message. destruct (guild msg) as [g|]; [|reflexivity].
    destruct (author_bot msg); [reflexivity|].
    destruct (enabled (config st g)) eqn:He; [|reflexivity].
    destruct (ctx_valid msg); [reflexivity|].
    destruct H as [H|[H|[H|(g' & [= <-] & H)]]]; congruence. }
  split; [exact E|]. unfold on_message_sends. rewrite E. reflexivity.
Qed.

Lemma unanswered_messages_cost_nothing_witness :
  on_message ascii_only all_answer
             {| author_bot := true; guild := Some 1%Z; ctx_valid := false;
                content := five_links |} initial
  = (Ok [], initial)
  /\ on_message_sends ascii_only all_answer accepts_all
                      {| author_bot := true; guild := Some 1%Z; ctx_valid := false;
                         content := five_links |} initial []
     = (Returned, initial, []).
Proof.
  apply (unanswered_messages_cost_nothing ascii_only all_answer accepts_all
           {| author_bot := true; guild := Some 1%Z; ctx_valid := false;
              content := five_links |} initial []).
  left. reflexivity.
Defined.


(** X12.  The YouTube embed builder quotes the cleaned title, not the
    raw one: it returns an embed exactly when the raw title is a string
    whose cleaned form UTF-8 can encode, raises [TypeError] on a title
    that is no string and [UnicodeEncodeError] when the cleaned title
    holds a surrogate.  A surrogate between brackets is cleaned away, and
    the embed is built, with the surrogate in its title. *)
Theorem youtube_embed_for_encodable_cleaned_titles : forall ua v author thumb show,
  match _build_youtube_embed ua v author thumb show with
  | Ok e =>
      exists t, v = VStr t /\ forallb is_scalar (_clean_yt_title ua t) = true
                /\ title e = note_prefix ++ t
  | Raise x =>
      (x = TypeError /\ forall t, v <> VStr t)
      \/ (x = UnicodeEncodeError
          /\ exists t, v = VStr t /\ forallb is_scalar (_clean_yt_title ua t) = false)
  end
  /\ (exists e,
        _build_youtube_embed ascii_only (VStr (txt "Song (" ++ [0xD800%N] ++ txt ")"))
                             author thumb show = Ok e
        /\ title e = note_prefix ++ txt "Song (" ++ [0xD800%N] ++ txt ")"
        /\ forallb is_scalar (title e) = false)
  /\ _build_youtube_embed ascii_only (VStr (txt "Song " ++ [0xD800%N])) author thumb show
     = Raise UnicodeEncodeError.
Proof.
  intros ua v author thumb show. split; [|split].
  - pose proof (youtube_embed_cases ua v author thumb show) as H.
    destruct (_build_youtube_embed ua v author thumb show) as [e|x]; [|exact H].
    destruct H as (t & H1 & H2 & H3 & _). exists t. auto.
  - eexists. split; [vm_compute; reflexivity|]. split; reflexivity.
  - vm_compute. reflexivity.
Qed.

(** X28.  What the listener hands to the reply depends on the state of
    the cog only through the settings of the guild the message was sent
    in (and through which requests the network sees as next): the
    settings of other guilds, commands given there and the unloading of
    the cog, which closes the session, change nothing in it. *)
Theorem listener_reads_only_its_guild : forall ua net msg st,
  (forall st',
     (forall g, guild msg = Some g -> config st' g = config st g) ->
     List.length (requests st') = List.length (requests st) ->
     fst (on_message ua net msg st') = fst (on_message ua net msg st))
  /\ (forall g g' c, guild msg = Some g -> g' <> g ->
        fst (on_message ua net msg (run_command g' c st))
        = fst (on_message ua net msg st))
  /\ fst (on_message ua net msg (snd (cog_unload st))) = fst (on_message ua net msg st).
Proof.
  intros ua net msg st.
  assert (H : forall st',
             (forall g, guild msg = Some g -> config st' g = config st g) ->
             List.length (requests st') = List.length (requests st) ->
             fst (on_message ua net msg st') = fst (on_message ua net msg st)).
  { intros st' Hc Hr.
    destruct (guild msg) as [g|] eqn:Hg; [|unfold on_message; now rewrite Hg].
    specialize (Hc g eq_refl).
    destruct (author_bot msg) eqn:Hb; [unfold on_message; now rewrite Hg, Hb|].
    destruct (enabled (config st g)) eqn:He;
      [|unfold on_message; now rewrite Hg, Hb, Hc, He].
    destruct (ctx_valid msg) eqn:Hv; [unfold on_message; now rewrite Hg, Hb, Hc, He, Hv|].
    rewrite (on_message_run ua net msg g st Hg Hb He Hv).
    rewrite (on_message_run ua net msg g st' Hg Hb); [|now rewrite Hc|exact Hv].
    now rewrite Hc, Hr. }
  split; [exact H|]. split.
  - intros g g' c Hg Hne. apply H.
    + intros g0 Hg0. rewrite Hg in Hg0. injection Hg0 as <-.
      apply command_other_guild. congruence.
    + now rewrite (proj1 (command_keeps_requests g' c st)).
  - apply H.
    + intros g _. now rewrite (proj1 (proj2 (unload_keeps_requests st))).
    + now rewrite (proj1 (unload_keeps_requests st)).
Qed.

(* ===================================================================== *)
(** * Further properties: what reaches the channel *)
(* ===================================================================== *)

(** X13.  Whatever Discord answers, the last block of the listener
    delivers embeds of the list it was given and no others, each at most
    once and in the order of the list: what reaches the channel is picked
    from the embeds by a mask.  It attempts at most one delivery more
    than there are embeds, and none at all for an empty list. *)
Theorem embeds_are_delivered_at_most_once : forall discord embeds log,
  exists new mask,
    snd (send_embeds discord embeds log) = log ++ new
    /\ delivered_embeds new = select mask embeds
    /\ List.length new <= 1 + List.length embeds
    /\ (embeds = [] -> new = []).
Proof. intros discord embeds log. apply send_embeds_log. Qed.

(** X14.  A refusal of Discord (an [HTTPException]) never leaves the
    block: when no delivery ends with another exception the block
    returns, having attempted nothing (no embeds), the reply alone (it
    was delivered), or the reply and then every embed by itself, once
    and in order, whichever of them were refused. *)
Theorem refusals_never_leave_the_listener : forall discord embeds log,
  (forall n d, discord n d <> OtherException) ->
  exists new,
    send_embeds discord embeds log = (Returned, log ++ new)
    /\ List.map fst new
       = match embeds with
         | [] => []
         | _ :: _ =>
             match discord (List.length log) (Reply embeds false) with
             | Delivered => [Reply embeds false]
             | _ => Reply embeds false :: List.map Send embeds
             end
         end.
Proof.
  intros discord embeds log Hno. destruct embeds as [|e embeds]; cbn [send_embeds].
  - exists []. now rewrite app_nil_r.
  - unfold attempt. set (es := e :: embeds).
    pose proof (Hno (List.length log) (Reply es false)) as Hv.
    destruct (discord (List.length log) (Reply es false)); [| |congruence].
    + exists [(Reply es false, Delivered)]. split; reflexivity.
    + destruct (send_each_returns discord es (log ++ [(Reply es false, HTTPException)]) Hno)
        as (new & Hrun & Hatt).
      exists ((Reply es false, HTTPException) :: new). rewrite <- app_assoc in Hrun.
      split; [exact Hrun|]. simpl. now rewrite Hatt.
Qed.

Lemma refusals_never_leave_the_listener_witness :
  exists new,
    send_embeds refuses_all [plain_embed "a"; plain_embed "b"] [] = (Returned, [] ++ new)
    /\ List.map fst new
       = [ Reply [plain_embed "a"; plain_embed "b"] false;
           Send (plain_embed "a"); Send (plain_embed "b") ].
Proof.
  apply (refusals_never_leave_the_listener refuses_all [plain_embed "a"; plain_embed "b"] []).
  intros n d. discriminate.
Defined.

(** X15.  When Discord refuses the reply but takes single embeds (the
    batch was too large, say), the fallback brings every embed to the
    channel, one by one and in order; when it takes the reply, the embeds
    arrive together.  Either way what reaches the channel is exactly the
    list of embeds. *)
Theorem fallback_delivers_every_embed : forall discord embeds log,
  (forall n e, discord n (Send e) = Delivered) ->
  discord (List.length log) (Reply embeds false) <> OtherException ->
  exists new,
    send_embeds discord embeds log = (Returned, log ++ new)
    /\ delivered_embeds new = embeds.
Proof.
  intros discord embeds log Hall Hreply. destruct embeds as [|e embeds]; cbn [send_embeds].
  - exists []. now rewrite app_nil_r.
  - unfold attempt. set (es := e :: embeds) in *.
    destruct (discord (List.length log) (Reply es false)); [| |congruence].
    + exists [(Reply es false, Delivered)]. split; [reflexivity|].
      cbn. now rewrite app_nil_r.
    + destruct (send_each_all discord es (log ++ [(Reply es false, HTTPException)]) Hall)
        as (new & Hrun & Hdel).
      exists ((Reply es false, HTTPException) :: new). rewrite <- app_assoc in Hrun.
      split; [exact Hrun|].
      change ((Reply es false, HTTPException) :: new)
        with ([(Reply es false, HTTPException)] ++ new).
      rewrite delivered_embeds_app, Hdel. reflexivity.
Qed.

Lemma fallback_delivers_every_embed_witness :
  exists new,
    send_embeds one_at_a_time [plain_embed "a"; plain_embed "b"] [] = (Returned, [] ++ new)
    /\ delivered_embeds new = [plain_embed "a"; plain_embed "b"].
Proof.
  apply (fallback_delivers_every_embed one_at_a_time [plain_embed "a"; plain_embed "b"] []).
  - intros n e. reflexivity.
  - discriminate.
Defined.

(** X16.  From the start of the cog on, after any events, one message
    makes the listener attempt at most eleven deliveries (the reply and
    ten single embeds) and brings at most ten embeds to the channel,
    whatever the network and Discord answer; when a loop raises, nothing
    is sent. *)
Theorem message_deliveries_are_bounded : forall ua net discord es msg log,
  exists new,
    snd (on_message_sends ua net discord msg (run_events ua net es initial) log) = log ++ new
    /\ List.length new <= 11
    /\ List.length (delivered_embeds new) <= 10
    /\ (forall x, fst (on_message ua net msg (run_events ua net es initial)) = Raise x ->
        new = []).
Proof.
  intros ua net discord es msg log.
  pose proof (reachable_clamped ua net es) as Hclamp.
  set (st := run_events ua net es initial) in *.
  assert (Hsize : reply_size (fst (on_message ua net msg st)) <= 10).
  { destruct (guild msg) as [g|] eqn:Hg; [|unfold on_message; rewrite Hg; simpl; lia].
    destruct (author_bot msg) eqn:Hb; [unfold on_message; rewrite Hg, Hb; simpl; lia|].
    destruct (enabled (config st g)) eqn:He;
      [|unfold on_message; rewrite Hg, Hb, He; simpl; lia].
    destruct (ctx_valid msg) eqn:Hv;
      [unfold on_message; rewrite Hg, Hb, He, Hv; simpl; lia|].
    rewrite (on_message_run ua net msg g st Hg Hb He Hv).
    destruct (gather _ _ _) as [out|x] eqn:Hout; simpl; [|lia].
    apply gather_resolved in Hout. subst out. simpl.
    rewrite length_firstn. specialize (Hclamp g). lia. }
  unfold on_message_sends.
  destruct (on_message ua net msg st) as [[embeds|x] st']; cbn [fst snd reply_size] in *.
  - destruct (send_embeds_log discord embeds log) as (new & mask & Hlog & Hdel & Hlen & _).
    destruct (send_embeds discord embeds log) as [r log']. cbn [snd] in *.
    exists new. split; [exact Hlog|]. split; [lia|]. split; [|discriminate].
    rewrite Hdel. pose proof (select_length _ mask embeds). lia.
  - exists []. rewrite app_nil_r. repeat split. simpl. lia. simpl. lia.
Qed.

(* ===================================================================== *)
(** * Further properties: the settings commands *)
(* ===================================================================== *)

(** X17.  Each of the two toggle commands answers with the state it has
    just stored: [enabled] or [disabled], [shown] or [hidden], according
    to the flag of the guild after the command.  After a toggle that
    answers [disabled] the listener passes over every message of the
    guild, and after one that answers [enabled] it is switched on
    there. *)
Theorem toggles_say_what_they_stored : forall ua net g st,
  fst (ml_toggle_sends g st)
  = Ok (txt "MusicLinker is now **"
        ++ (if enabled (config (snd (ml_toggle_sends g st)) g)
            then txt "enabled" else txt "disabled")
        ++ txt "**.")
  /\ fst (ml_thumbnail_sends g st)
     = Ok (txt "Thumbnails will now be **"
           ++ (if show_thumbnail (config (snd (ml_thumbnail_sends g st)) g)
               then txt "shown" else txt "hidden")
           ++ txt "**.")
  /\ enabled (config (snd (ml_toggle_sends g st)) g) = negb (enabled (config st g))
  /\ show_thumbnail (config (snd (ml_thumbnail_sends g st)) g)
     = negb (show_thumbnail (config st g))
  /\ (enabled (config st g) = true ->
      fst (ml_toggle_sends g st) = Ok (txt "MusicLinker is now **disabled**.")
      /\ forall msg, guild msg = Some g ->
           on_message ua net msg (snd (ml_toggle_sends g st))
           = (Ok [], snd (ml_toggle_sends g st)))
  /\ (enabled (config st g) = false ->
      fst (ml_toggle_sends g st) = Ok (txt "MusicLinker is now **enabled**.")).
Proof.
  intros ua net g st.
  assert (He : enabled (config (snd (ml_toggle_sends g st)) g) = negb (enabled (config st g))).
  { unfold ml_toggle_sends, ml_toggle. cbn [snd]. now rewrite set_guild_same. }
  assert (Ht : show_thumbnail (config (snd (ml_thumbnail_sends g st)) g)
               = negb (show_thumbnail (config st g))).
  { unfold ml_thumbnail_sends, ml_thumbnail. cbn [snd]. now rewrite set_guild_same. }
  split; [rewrite He; reflexivity|]. split; [rewrite Ht; reflexivity|].
  split; [exact He|]. split; [exact Ht|]. split.
  - intro H. split; [unfold ml_toggle_sends; cbn [fst]; now rewrite H|].
    intros msg Hg. unfold on_message. rewrite Hg, He, H.
    destruct (author_bot msg); reflexivity.
  - intro H. unfold ml_toggle_sends. cbn [fst]. now rewrite H.
Qed.

(** X18.  The limit command stores the limit it was given when that lies
    between 1 and 10, else the nearer of the two bounds, and answers with
    the stored number in decimal; the settings view of the guild then
    shows the same number, one of [1] to [10], under [Max links /
    message], and the two flags as they were. *)
Theorem maxlinks_is_read_back : forall blurple g limit st,
  let clamped := Z.max 1 (Z.min 10 limit) in
  let st' := snd (ml_maxlinks_sends g limit st) in
  max_links_per_message (config st' g) = clamped
  /\ ((1 <= limit <= 10)%Z -> clamped = limit)
  /\ ((limit < 1)%Z -> clamped = 1%Z)
  /\ ((10 < limit)%Z -> clamped = 10%Z)
  /\ fst (ml_maxlinks_sends g limit st)
     = Ok (txt "Max links per message set to **" ++ str_of_int clamped ++ txt "**.")
  /\ view_field (fst (musiclinker_sends blurple g st')) "Max links / message"
     = Some (str_of_int clamped)
  /\ In (str_of_int clamped)
        [txt "1"; txt "2"; txt "3"; txt "4"; txt "5"; txt "6"; txt "7"; txt "8"; txt "9";
         txt "10"]
  /\ view_field (fst (musiclinker_sends blurple g st')) "Enabled"
     = Some (yes_no (enabled (config st g)))
  /\ view_field (fst (musiclinker_sends blurple g st')) "Thumbnails"
     = Some (yes_no (show_thumbnail (config st g))).
Proof.
  intros blurple g limit st clamped st'.
  assert (Hc : config st' g
               = {| enabled := enabled (config st g);
                    show_thumbnail := show_thumbnail (config st g);
                    max_links_per_message := clamped |}).
  { unfold st', ml_maxlinks_sends, ml_maxlinks. cbn [snd]. now rewrite set_guild_same. }
  split; [now rewrite Hc|]. split; [unfold clamped; lia|]. split; [unfold clamped; lia|].
  split; [unfold clamped; lia|]. split; [reflexivity|].
  unfold musiclinker_sends. cbn [fst]. rewrite Hc. cbn [enabled show_thumbnail
                                                        max_links_per_message].
  split; [reflexivity|]. split; [apply str_of_clamped; unfold clamped; lia|].
  split; reflexivity.
Qed.

(** X19.  A settings command acts on the guild it is given in and on
    nothing else: the settings of every other guild, the session and the
    log of requests stay as they were, and the view command changes
    nothing at all. *)
Theorem commands_are_per_guild : forall g c st,
  (forall g', g' <> g -> config (run_command g c st) g' = config st g')
  /\ requests (run_command g c st) = requests st
  /\ session (run_command g c st) = session st
  /\ run_command g CmdView st = st.
Proof.
  intros g c st. split; [intros g' H; now apply command_other_guild|].
  destruct (command_keeps_requests g c st) as [Hr Hs]. repeat split; assumption.
Qed.

(** X20.  The two toggles undo themselves and do not get in each other's
    way: toggling twice gives back the settings of every guild, and the
    two toggles give the same settings in either order. *)
Theorem toggles_undo_themselves : forall g st g',
  config (snd (ml_toggle g (snd (ml_toggle g st)))) g' = config st g'
  /\ config (snd (ml_thumbnail g (snd (ml_thumbnail g st)))) g' = config st g'
  /\ config (snd (ml_toggle g (snd (ml_thumbnail g st)))) g'
     = config (snd (ml_thumbnail g (snd (ml_toggle g st)))) g'.
Proof.
  intros g st g'. unfold ml_toggle, ml_thumbnail. cbn [snd].
  destruct (Z.eq_dec g' g) as [->|Hne].
  - rewrite !set_guild_same. cbn [enabled show_thumbnail max_links_per_message].
    rewrite !negb_involutive. destruct (config st g). repeat split.
  - rewrite !(set_guild_other _ _ _ _ Hne). repeat split.
Qed.

(** X21.  A guild in which no settings command was ever given keeps the
    registered defaults through any run of the cog: the listener is
    switched on there, shows thumbnails and answers up to three links,
    whatever was set in other guilds. *)
Theorem untouched_guild_keeps_defaults : forall ua net es g,
  (forall c, ~ In (OnCommand g c) es) ->
  config (run_events ua net es initial) g = default_guild.
Proof. intros ua net es g H. now rewrite events_other_guild. Qed.

Lemma untouched_guild_keeps_defaults_witness :
  config (run_events ascii_only all_answer
            [ OnCommand 2%Z CmdToggle; OnCommand 2%Z (CmdMaxlinks 7);
              OnMessage (member_message five_links); OnUnload ] initial) 1%Z
  = default_guild.
Proof.
  apply (untouched_guild_keeps_defaults ascii_only all_answer
           [ OnCommand 2%Z CmdToggle; OnCommand 2%Z (CmdMaxlinks 7);
             OnMessage (member_message five_links); OnUnload ] 1%Z).
  intros c [H|[H|[H|[H|[]]]]]; discriminate H.
Defined.

(* ===================================================================== *)
(** * Further properties: the search links *)
(* ===================================================================== *)

(** X22.  Each of the four link builders tells queries apart: two
    queries for which a builder returns the same URL are the same query.
    The quoting loses nothing: UTF-8, the percent escapes and the [+]
    for a space can all be read back. *)
Theorem search_links_tell_queries_apart : forall q1 q2 u,
  (_yt_music_search q1 = Ok u -> _yt_music_search q2 = Ok u -> q1 = q2)
  /\ (_yt_search q1 = Ok u -> _yt_search q2 = Ok u -> q1 = q2)
  /\ (_spotify_search q1 = Ok u -> _spotify_search q2 = Ok u -> q1 = q2)
  /\ (_brave_lyrics q1 = Ok u -> _brave_lyrics q2 = Ok u -> q1 = q2).
Proof.
  intros q1 q2 u. split; [|split; [|split]].
  - unfold _yt_music_search. intros H1 H2.
    destruct (quote_plus q1) as [a|] eqn:E1; [|discriminate].
    destruct (quote_plus q2) as [b|] eqn:E2; [|discriminate].
    cbn [rbind] in H1, H2. rewrite <- H2 in H1. injection H1 as H1. subst b. exact (quote_plus_injective _ _ _ E1 E2).
  - unfold _yt_search. intros H1 H2.
    destruct (quote_plus q1) as [a|] eqn:E1; [|discriminate].
    destruct (quote_plus q2) as [b|] eqn:E2; [|discriminate].
    cbn [rbind] in H1, H2. rewrite <- H2 in H1. injection H1 as H1. subst b. exact (quote_plus_injective _ _ _ E1 E2).
  - unfold _spotify_search. intros H1 H2.
    destruct (quote q1) as [a|] eqn:E1; [|discriminate].
    destruct (quote q2) as [b|] eqn:E2; [|discriminate].
    cbn [rbind] in H1, H2. rewrite <- H2 in H1. injection H1 as H1. subst b. exact (quote_injective _ _ _ E1 E2).
  - unfold _brave_lyrics. intros H1 H2.
    destruct (quote_plus (q1 ++ txt " lyrics")) as [a|] eqn:E1; [|discriminate].
    destruct (quote_plus (q2 ++ txt " lyrics")) as [b|] eqn:E2; [|discriminate].
    cbn [rbind] in H1, H2. rewrite <- H2 in H1. injection H1 as H1. subst b.
    exact (app_inv_tail _ _ _ (quote_plus_injective _ _ _ E1 E2)).
Qed.

(** X23.  A query made of unreserved characters (letters, digits and
    [_.-~]) and spaces is quoted character by character: [quote_plus]
    writes a [+] for each space and [quote] writes [%20], and both
    leave every other character as it is; a query without spaces comes
    out unchanged. *)
Theorem plain_queries_are_quoted_as_they_are : forall q,
  forallb is_plain q = true ->
  quote_plus q = Ok (List.map (fun c => if (c =? ch " ")%N then ch "+" else c) q)
  /\ quote q = Ok (flat_map (fun c => if (c =? ch " ")%N then txt "%20" else [c]) q)
  /\ (forallb always_safe q = true -> quote_plus q = Ok q /\ quote q = Ok q).
Proof.
  intros q H. pose proof (encode_utf8_plain q H) as He.
  assert (Hall : Forall (fun c => is_plain c = true) q)
    by (apply Forall_forall, forallb_forall; exact H).
  assert (Hp : quote_plus q
               = Ok (List.map (fun c => if (c =? ch " ")%N then ch "+" else c) q)).
  { rewrite (quote_plus_bytes q q He). f_equal.
    rewrite (flat_map_ext_Forall _ _ _ plus_byte
               (fun c => [if (c =? ch " ")%N then ch "+" else c]) q Hall).
    - clear. induction q as [|c q IH]; cbn [flat_map List.map app]; [|rewrite IH];
        reflexivity.
    - intros c Hc. unfold plus_byte, quote_byte, is_plain in *.
      destruct (c =? ch " ")%N; [reflexivity|].
      rewrite orb_false_r in Hc. now rewrite Hc. }
  assert (Hq : quote q
               = Ok (flat_map (fun c => if (c =? ch " ")%N then txt "%20" else [c]) q)).
  { rewrite (quote_bytes q q He). f_equal.
    apply (flat_map_ext_Forall _ _ _ _ _ _ Hall). intros c Hc. unfold is_plain in Hc.
    destruct (c =? ch " ")%N eqn:Hsp.
    - apply N.eqb_eq in Hsp. subst c. reflexivity.
    - rewrite orb_false_r in Hc. unfold quote_byte. now rewrite Hc. }
  split; [exact Hp|]. split; [exact Hq|]. intro Hs.
  assert (Hsafe : Forall (fun c => always_safe c = true) q)
    by (apply Forall_forall, forallb_forall; exact Hs).
  rewrite Hp, Hq. clear -Hsafe. split; f_equal.
  - induction Hsafe as [|c q Hc _ IH]; cbn [List.map]; [reflexivity|]. rewrite IH.
    destruct (c =? ch " ")%N eqn:Hsp; [|reflexivity].
    apply N.eqb_eq in Hsp. subst c. discriminate.
  - induction Hsafe as [|c q Hc _ IH]; cbn [flat_map]; [reflexivity|]. rewrite IH.
    destruct (c =? ch " ")%N eqn:Hsp; [|reflexivity].
    apply N.eqb_eq in Hsp. subst c. discriminate.
Qed.

Lemma plain_queries_are_quoted_as_they_are_witness :
  quote_plus (txt "Daft Punk - One More Time") = Ok (txt "Daft+Punk+-+One+More+Time")
  /\ quote (txt "Daft Punk - One More Time") = Ok (txt "Daft%20Punk%20-%20One%20More%20Time")
  /\ (forallb always_safe (txt "Daft Punk - One More Time") = true ->
      quote_plus (txt "Daft Punk - One More Time") = Ok (txt "Daft Punk - One More Time")
      /\ quote (txt "Daft Punk - One More Time") = Ok (txt "Daft Punk - One More Time")).
Proof.
  apply (plain_queries_are_quoted_as_they_are (txt "Daft Punk - One More Time")).
  reflexivity.
Defined.

(* ===================================================================== *)
(** * Further properties: the title cleaner *)
(* ===================================================================== *)

(** X24.  What the cleaner returns is stripped, whichever way it ends:
    it neither starts nor ends with a whitespace character, and stripping
    it again changes nothing. *)
Theorem clean_result_is_stripped : forall ua title,
  strip (_clean_yt_title ua title) = _clean_yt_title ua title
  /\ (forall c rest, _clean_yt_title ua title = c :: rest -> is_space c = false)
  /\ (forall init c, _clean_yt_title ua title = init ++ [c] -> is_space c = false).
Proof.
  intros ua title.
  assert (H : exists x, _clean_yt_title ua title = strip x).
  { unfold _clean_yt_title. destruct (cleaned_title ua title) as [|c r] eqn:E.
    - exists title. reflexivity.
    - unfold cleaned_title in E. rewrite <- E. eauto. }
  destruct H as [x ->]. split; [apply strip_idempotent|]. split.
  - intros c rest H. exact (strip_head _ _ _ H).
  - intros init c H. exact (strip_last _ _ _ H).
Qed.

(** X25.  What the cleaning steps leave never holds two whitespace
    characters next to each other, so the cleaner's result is single
    spaced whenever the steps leave anything.  The fallback is the
    stripped title as it was: of [hd  mv] the steps leave nothing, and
    the two blanks come back. *)
Theorem cleaned_title_is_single_spaced : forall ua title,
  single_spaced (cleaned_title ua title) = true
  /\ (cleaned_title ua title <> [] -> single_spaced (_clean_yt_title ua title) = true)
  /\ _clean_yt_title ascii_only (txt "hd  mv") = txt "hd  mv"
  /\ single_spaced (txt "hd  mv") = false.
Proof.
  intros ua title.
  assert (H : single_spaced (cleaned_title ua title) = true).
  { unfold cleaned_title. rewrite sub_whitespace_run.
    apply strip_single_spaced. apply collapse_single_spaced. }
  split; [exact H|]. split; [|split; vm_compute; reflexivity].
  intro Hne. unfold _clean_yt_title.
  destruct (cleaned_title ua title); [congruence|exact H].
Qed.

(** X26.  The cleaner only takes away: its result is never longer than
    the title, and every character of it is a character of the title or
    the space that stands for a run of whitespace. *)
Theorem cleaning_only_removes : forall ua title,
  List.length (_clean_yt_title ua title) <= List.length title
  /\ Forall (fun c => In c title \/ c = ch " ") (_clean_yt_title ua title).
Proof.
  intros ua title. split.
  - unfold _clean_yt_title. pose proof (cleaned_title_length ua title) as H.
    destruct (cleaned_title ua title); [apply strip_length|exact H].
  - apply clean_Forall; [|right; reflexivity].
    apply Forall_forall. intros c Hc. left. exact Hc.
Qed.

(** X27.  A title with nothing to clean comes back as it is: when it
    holds no opening bracket, no match of the keyword pattern and no two
    whitespace characters together, and starts and ends with a character
    that is neither whitespace nor a separator, the cleaner returns it
    unchanged. *)
Theorem tidy_titles_are_kept : forall ua title,
  is_tidy title = true -> finditer (YT_TITLE_KEYWORDS ua) title = [] ->
  _clean_yt_title ua title = title.
Proof. intros ua title Ht Hk. exact (proj2 (clean_tidy ua title Ht Hk)). Qed.

Lemma tidy_titles_are_kept_witness :
  _clean_yt_title ascii_only (txt "Daft Punk - One More Time")
  = txt "Daft Punk - One More Time".
Proof.
  apply (tidy_titles_are_kept ascii_only (txt "Daft Punk - One More Time")).
  - reflexivity.
  - vm_compute. reflexivity.
Defined.
